(** * Statement synthesis of the PostgreSQL store (dialects/postgres/store.ts)

    A shallow embedding of [PgStore.toSQL], [createStatements] and the
    recursive [createStatement], followed by the properties of the
    synthesized statement batch.

    Conventions of the embedding.
    - A JavaScript object used as a dictionary ([dataModel.models], the
      store, [inserted], [pending], a row) is a [gmap string _]; a lookup
      that yields [undefined] is [None].  Model names are assumed not to
      collide with the properties of [Object.prototype].
    - A value is a JSON primitive or a reference to an object/array; [===]
      is then plain equality (numbers are integers here, so [NaN], the one
      value different from itself, does not occur).
    - The SQL text is produced by functions that are not part of the module
      ([format] of pg-format, [serializeToSQL], [escapeLiteral],
      [escapeIdentifier]).  A statement is therefore kept as the call that
      builds it (template flag and arguments); [render] turns it into text
      once those functions are supplied.
    - The context object of [createStatement] ([inserted], [pending],
      [statements]) is shared by all the calls of one synthesis and
      mutated in place; it is threaded through the calls as a state.  The
      data model and the store are only read.  The [console.log] calls
      are left out.
    - The module [Imperative] gives the same functions on a heap, where
      the objects of a call are created and written to by reference; it
      is related to the state-passing functions at the end of the file.
    - The recursion of [createStatement] is driven by a fuel argument;
      [OutOfFuel] is distinct from a returned value and from a thrown
      error. *)

From Stdlib Require Import ZArith List Bool.
From stdpp Require Import gmap strings list fin_maps pretty.
Import ListNotations.

Local Open Scope string_scope.
Local Open Scope list_scope.

(** ** Values and rows *)

Inductive Json : Type :=
| JNull
| JBool (b : bool)
| JNumber (n : Z)
| JString (s : string)
| JObject (addr : positive).

#[global] Instance Json_eq_dec : EqDecision Json.
Proof. solve_decision. Defined.

(** [ModelData]: a row, field name to value; an absent key reads as
    [undefined], that is [None]. *)
Abbreviation ModelData := (gmap string Json).

(** [a === b] on possibly undefined values. *)
Definition strict_eq (a b : option Json) : bool := bool_decide (a = b).

(** [kvs.every(([k, v]) => r[k] === v)] *)
Definition every_eq (kvs : list (string * option Json)) (r : ModelData) : bool :=
  forallb (fun kv => strict_eq (r !! fst kv) (snd kv)) kvs.

(** [kvs.every(([k, v]) => r[k] !== v)] *)
Definition every_ne (kvs : list (string * option Json)) (r : ModelData) : bool :=
  forallb (fun kv => negb (strict_eq (r !! fst kv) (snd kv))) kvs.

(** ** The schema graph *)

Record DataModelSequence : Type := { identifier : string }.

(** Modelled from the spec: the field and model descriptors, declared in
    core/dataModel/types.js, which is not among the sources.  A field is a
    tagged union of a scalar field and a relation field. *)
Record DataModelScalarField : Type := {
  s_name : string;
  columnName : string;
  s_type : string;
  isId : bool;
  isGenerated : bool;
  hasDefaultValue : bool;
  sequence : option DataModelSequence
}.

Record DataModelObjectField : Type := {
  o_name : string;
  o_type : string;                     (* the target model *)
  relationFromFields : list string;
  relationToFields : list string;
  nullable : bool                      (* may the "from" columns hold null *)
}.

Inductive DataModelField : Type :=
| Scalar (f : DataModelScalarField)
| Object (f : DataModelObjectField).

Record DataModelModel : Type := {
  fields : list DataModelField;
  tableName : string;
  schemaName : string
}.

Record DataModel : Type := { models : gmap string DataModelModel }.

(** Property reads on the union; a property a variant does not carry reads
    as [undefined], which is falsy. *)
Definition f_name (f : DataModelField) : string :=
  match f with Scalar s => s_name s | Object o => o_name o end.

Definition f_isId (f : DataModelField) : bool :=
  match f with Scalar s => isId s | Object _ => false end.

Definition f_isGenerated (f : DataModelField) : bool :=
  match f with Scalar s => isGenerated s | Object _ => false end.

Definition f_sequence (f : DataModelField) : option DataModelSequence :=
  match f with Scalar s => sequence s | Object _ => None end.

(** Modelled from the spec: [groupFields] of core/dataModel/utils.js, which
    is not among the sources; the scalar fields and the relation fields
    ("parent relations") of a model, each in declaration order.  A relation
    without "from" columns has no [parentIdFields]; the loop over the
    parents skips it, whether it is counted among them or not. *)
Definition groupFields (fs : list DataModelField)
  : list DataModelScalarField * list DataModelObjectField :=
  (omap (fun f => match f with Scalar s => Some s | Object _ => None end) fs,
   omap (fun f => match f with Scalar _ => None | Object o => Some o end) fs).

(** JavaScript truthiness of a string. *)
Definition truthy (s : string) : bool := negb (String.eqb s "").

(** ** Statements *)

(** A statement, kept as the call that builds its text.
    [InsertInto] is [format(insertStatementTemplate, schemaName, tableName,
    columns, values)], each value being the pair of arguments handed to
    [serializeToSQL]; [SelectSetval] is the sequence-fix template literal. *)
Inductive statement : Type :=
| InsertInto (overridingSystemValue : bool) (schema table : string)
    (columns : list string) (values : list (string * option Json))
| SelectSetval (sequenceIdentifier fieldColumn schema table : string).

#[global] Instance statement_eq_dec : EqDecision statement.
Proof. solve_decision. Defined.

Definition isInsert (s : statement) : bool :=
  match s with InsertInto _ _ _ _ _ => true | SelectSetval _ _ _ _ => false end.

Section Render.
(** The external text-producing functions. *)
Variable SqlValue : Type.
Variable serializeToSQL : string -> option Json -> SqlValue.
Variable format :
  string -> string -> string -> list string -> list SqlValue -> string.
Variable escapeLiteral escapeIdentifier : string -> string.

Definition insertStatementTemplate (isGeneratedId : bool) : string :=
  if isGeneratedId
  then "INSERT INTO %I.%I (%I) OVERRIDING SYSTEM VALUE VALUES (%L)"
  else "INSERT INTO %I.%I (%I) VALUES (%L)".

Definition render (s : statement) : string :=
  match s with
  | InsertInto g sch tbl cols vals =>
      format (insertStatementTemplate g) sch tbl cols
        (map (fun tv => serializeToSQL (fst tv) (snd tv)) vals)
  | SelectSetval sid col sch tbl =>
      ("SELECT setval(" ++ escapeLiteral sid ++ "::regclass, (SELECT MAX("
        ++ escapeIdentifier col ++ ") FROM " ++ escapeIdentifier sch ++ "."
        ++ escapeIdentifier tbl ++ "))")%string
  end.
End Render.

(** ** Results *)

Inductive error : Type :=
| TypeError
    (* a property read on [undefined] *)
| CircularDependency (model : string) (row : ModelData).
    (* "Circular dependency detected for model ${model} for row ${row}" *)

Inductive result (A : Type) : Type :=
| Ok (a : A)
| Throw (e : error)
| OutOfFuel.
Arguments Ok {A} a.
Arguments Throw {A} e.
Arguments OutOfFuel {A}.

Definition bind {A B : Type} (r : result A) (k : A -> result B) : result B :=
  match r with
  | Ok a => k a
  | Throw e => Throw e
  | OutOfFuel => OutOfFuel
  end.

Notation "'let*' x ':=' c 'in' k" := (bind c (fun x => k))
  (at level 10, x name, c at level 100, k at level 200).

(** [for (const x of xs) body(x)] over a threaded state. *)
Fixpoint forEach {A S : Type} (body : A -> S -> result S) (xs : list A) (s : S)
  : result S :=
  match xs with
  | [] => Ok s
  | x :: xs' => let* s' := body x s in forEach body xs' s'
  end.

(** ** The synthesis context *)

Record Ctx : Type := {
  inserted : gmap string (list ModelData);
  pending : gmap string (list ModelData);
  statements : list statement
}.

Section Synthesis.
Variable dataModel : DataModel.
Variable store : gmap string (list ModelData).

(** [model.fields.filter((f) => f.isId).map((f) => [f.name, row[f.name]])] *)
Definition rowIdFields (model : DataModelModel) (row : ModelData)
  : list (string * option Json) :=
  map (fun f => (f_name f, row !! f_name f))
      (List.filter f_isId (fields model)).

(** The [parentIdFields] of a relation: position [i] pairs
    [relationToFields[i]] with [row[relationFromFields[i]]]; a missing
    "to" name is the key [undefined], which reads the property
    ["undefined"]. *)
Definition parentIdFields (parent : DataModelObjectField) (row : ModelData)
  : list (string * option Json) :=
  imap (fun i from => (nth i (relationToFields parent) "undefined", row !! from))
       (relationFromFields parent).

Definition allNull (kvs : list (string * option Json)) : bool :=
  forallb (fun kv => strict_eq (snd kv) (Some JNull)) kvs.

(** The INSERT of a row: every scalar field, in declaration order. *)
Definition insertStatement (model : DataModelModel) (row : ModelData)
  : statement :=
  let scalars := fst (groupFields (fields model)) in
  let isGeneratedId :=
    negb (Nat.eqb (length (List.filter (fun f => f_isGenerated f && f_isId f)
                                       (fields model))) 0) in
  InsertInto isGeneratedId (schemaName model) (tableName model)
    (map columnName scalars)
    (map (fun f => (s_type f, row !! s_name f)) scalars).

(** One turn of [for (const parent of parents)]; [rec] is the recursive
    call of [createStatement]. *)
Definition resolveParent (rec : string -> ModelData -> Ctx -> result Ctx)
    (row : ModelData) (parent : DataModelObjectField) (ctx : Ctx)
  : result Ctx :=
  let pids := parentIdFields parent row in
  if allNull pids then Ok ctx
  else
    match store !! o_type parent with
    | None => Throw TypeError
    | Some rows =>
        match List.find (every_eq pids) rows with
        | None => Ok ctx      (* external data *)
        | Some parentRow =>
            match pending ctx !! o_type parent with
            | None => Throw TypeError
            | Some pend =>
                if existsb (every_eq pids) pend
                then Throw (CircularDependency (o_type parent) parentRow)
                else rec (o_type parent) parentRow ctx
            end
        end
    end.

(** The body of [createStatement]; [rec] is the function itself, called
    for the parent rows. *)
Definition createStatement_body
    (rec : string -> ModelData -> Ctx -> result Ctx)
    (modelName : string) (row : ModelData) (ctx : Ctx) : result Ctx :=
  match models dataModel !! modelName with
  | None => Throw TypeError
  | Some model =>
      let ids := rowIdFields model row in
      (* check if the row has already been inserted *)
      match inserted ctx !! modelName with
      | None => Throw TypeError
      | Some ins =>
          if existsb (every_eq ids) ins then Ok ctx
          else
            (* mark the row as pending *)
            match pending ctx !! modelName with
            | None => Throw TypeError
            | Some pend =>
                let ctx1 :=
                  {| inserted := inserted ctx;
                     pending := <[modelName := pend ++ [row]]> (pending ctx);
                     statements := statements ctx |} in
                let* ctx2 :=
                  forEach (resolveParent rec row)
                    (snd (groupFields (fields model))) ctx1 in
                (* create the statement for the current model *)
                let stmts := statements ctx2 ++ [insertStatement model row] in
                (* remove the row from pending and add it to inserted *)
                match pending ctx2 !! modelName with
                | None => Throw TypeError
                | Some pend2 =>
                    let pending3 :=
                      <[modelName := List.filter (every_ne ids) pend2]>
                        (pending ctx2) in
                    match inserted ctx2 !! modelName with
                    | None => Throw TypeError
                    | Some ins2 =>
                        Ok {| inserted :=
                                <[modelName := ins2 ++ [row]]> (inserted ctx2);
                              pending := pending3;
                              statements := stmts |}
                    end
                end
            end
      end
  end.

Fixpoint createStatement (fuel : nat)
  : string -> ModelData -> Ctx -> result Ctx :=
  match fuel with
  | O => fun _ _ _ => OutOfFuel
  | S fuel' => createStatement_body (createStatement fuel')
  end.

(** [isRowInserted], as [createStatement] computes it. *)
Definition isRowInserted (ctx : Ctx) (modelName : string) (row : ModelData)
  : bool :=
  match models dataModel !! modelName, inserted ctx !! modelName with
  | Some model, Some ins => existsb (every_eq (rowIdFields model row)) ins
  | _, _ => false
  end.

(** The parent row a relation resolves to: [None] when the relation is
    absent for the row (all "from" values null) or the row it references
    is not in the store. *)
Definition parentRow (parent : DataModelObjectField) (row : ModelData)
  : option ModelData :=
  let pids := parentIdFields parent row in
  if allNull pids then None
  else
    match store !! o_type parent with
    | None => None
    | Some rows => List.find (every_eq pids) rows
    end.
End Synthesis.

(** ** JavaScript [Map] with string keys

    Entries keep the order of first insertion; setting a key that is
    present replaces its value in place. *)

Definition jsMapSet {V : Type} (k : string) (v : V) (m : list (string * V))
  : list (string * V) :=
  if existsb (fun kv => String.eqb (fst kv) k) m
  then map (fun kv => if String.eqb (fst kv) k then (k, v) else kv) m
  else m ++ [(k, v)].

(** [new Map(entries)] *)
Definition jsMapOf {V : Type} (entries : list (string * V)) : list (string * V) :=
  fold_left (fun m kv => jsMapSet (fst kv) (snd kv) m) entries [].

(** [m.get(k)] *)
Definition jsMapGet {V : Type} (k : string) (m : list (string * V)) : option V :=
  option_map snd (List.find (fun kv => String.eqb (fst kv) k) m).

(** ** [createStatements] and [toSQL] *)

(** An entry of the model sequencer: [entry.node], a model descriptor
    together with its [modelName]. *)
Record ModelNode : Type := {
  modelName : string;
  node : DataModelModel
}.

(** [f.kind === "scalar" && !(f.isGenerated && !f.isId)] *)
Definition insertable (f : DataModelField) : option DataModelScalarField :=
  match f with
  | Scalar s => if negb (isGenerated s && negb (isId s)) then Some s else None
  | Object _ => None
  end.

(** [new Map(model.fields.filter(...).map((f) => [f.name, f]))] *)
Definition fieldMap (model : DataModelModel)
  : list (string * DataModelScalarField) :=
  jsMapOf (map (fun s => (s_name s, s)) (omap insertable (fields model))).

(** [new Map(Array.from(fieldMap.values()).map((f) => [f.name, f.columnName]))] *)
Definition fieldToColumnMap (model : DataModelModel) : list (string * string) :=
  jsMapOf (map (fun kv => (s_name (snd kv), columnName (snd kv))) (fieldMap model)).

(** The body of [for (const sequenceField of sequenceFields)]: the statement
    pushed for one field, if the guard lets it through. *)
Definition sequenceFixerStatement (model : DataModelModel)
    (sequenceField : DataModelField) : option statement :=
  match jsMapGet (f_name sequenceField) (fieldToColumnMap model),
        f_sequence sequenceField with
  | Some fieldColumn, Some seq =>
      if truthy fieldColumn && truthy (schemaName model)
         && truthy (tableName model) && truthy (identifier seq)
      then Some (SelectSetval (identifier seq) fieldColumn
                   (schemaName model) (tableName model))
      else None
  | _, _ => None
  end.

(** [model.fields.filter((f) => f.sequence)] *)
Definition sequenceFields (model : DataModelModel) : list DataModelField :=
  List.filter (fun f => bool_decide (is_Some (f_sequence f))) (fields model).

Definition sequenceFixerStatements (model : DataModelModel) : list statement :=
  omap (sequenceFixerStatement model) (sequenceFields model).

(** The fresh context of a call: an empty list under every model name. *)
Definition freshCtx (dataModel : DataModel) : Ctx :=
  {| inserted := (fun _ => []) <$> models dataModel;
     pending := (fun _ => []) <$> models dataModel;
     statements := [] |}.

Section CreateStatements.
(** Model sequencer, core/store/topologicalSort.js: not among the
    sources, taken as a parameter. *)
Variable sortModels : DataModel -> list ModelNode.

Variable dataModel : DataModel.
Variable store : gmap string (list ModelData).

(** [for (const entry of sortedModels)].  A model without rows is
    skipped before anything is written, so the context and the list of
    sequence fixers reach the first model with rows as they were
    created; the body of that model ends in [return]. [None] is the
    [undefined] of a function that falls off its end. *)
Fixpoint createStatements_loop (fuel : nat) (ctx : Ctx)
    (fixers : list statement) (sortedModels : list ModelNode)
  : result (option (list statement)) :=
  match sortedModels with
  | [] => Ok None
  | entry :: rest =>
      match store !! modelName entry with
      | None => Throw TypeError
      | Some rows =>
          if Nat.eqb (length rows) 0
          then createStatements_loop fuel ctx fixers rest
          else
            let fixers' := fixers ++ sequenceFixerStatements (node entry) in
            let* ctx' :=
              forEach (createStatement dataModel store fuel (modelName entry))
                rows ctx in
            Ok (Some (statements ctx' ++ fixers'))
      end
  end.

Definition createStatements (fuel : nat) : result (option (list statement)) :=
  createStatements_loop fuel (freshCtx dataModel) [] (sortModels dataModel).
End CreateStatements.

(** The store object: [this.dataModel] and [this._store]. *)
Record PgStore : Type := {
  dataModel : DataModel;
  _store : gmap string (list ModelData)
}.

(** [PgStore.toSQL]: the method returns the value of [createStatements];
    the statements that follow that [return] in its body are never run. *)
Definition toSQL (sortModels : DataModel -> list ModelNode) (fuel : nat)
    (this : PgStore) : result (option (list statement)) :=
  createStatements sortModels (dataModel this) (_store this) fuel.

(** ** Predicates of the statements *)

(** [Inserted] has only grown from [c] to [c']. *)
Definition inserted_le (c c' : Ctx) : Prop :=
  forall m l, inserted c !! m = Some l ->
              exists l', inserted c' !! m = Some (l ++ l').

(** [s] is the INSERT of the row [e.2] of the model named [e.1]. *)
Definition isInsertOf (dataModel : DataModel) (e : string * ModelData)
    (s : statement) : Prop :=
  exists model, models dataModel !! e.1 = Some model
                /\ s = insertStatement model e.2.

(** [a'] carries the identity tuple of [a], a row of the model [m]. *)
Definition sameIdentity (dataModel : DataModel) (m : string)
    (a a' : ModelData) : Prop :=
  exists model, models dataModel !! m = Some model
                /\ every_eq (rowIdFields model a) a' = true.

(** No other row of the model [m] carries the identity tuple of its row
    [a]. *)
Definition soleIdentity (dataModel : DataModel)
    (store : gmap string (list ModelData)) (m : string) (a : ModelData)
  : bool :=
  match models dataModel !! m, store !! m with
  | Some model, Some rows =>
      forallb (fun a' => implb (every_eq (rowIdFields model a) a')
                               (bool_decide (a = a'))) rows
  | _, _ => true
  end.

(** Every model of the sequence has an empty list of rows in the store. *)
Definition allEmpty (store : gmap string (list ModelData))
    (sortedModels : list ModelNode) : bool :=
  forallb (fun e => bool_decide (store !! modelName e = Some [])) sortedModels.

(** The first model of the sequence that has rows. *)
Fixpoint firstWithRows (store : gmap string (list ModelData))
    (sortedModels : list ModelNode) : option ModelNode :=
  match sortedModels with
  | [] => None
  | entry :: rest =>
      match store !! modelName entry with
      | None => None
      | Some [] => firstWithRows store rest
      | Some (_ :: _) => Some entry
      end
  end.

(** The sequence fix a field calls for, in the words of the
    specification: a scalar field with a sequence binding gets the
    statement that sets the named sequence to the maximum of the field's
    own column over the table; a field that is not written by an INSERT
    (generated and not an id) or whose names are empty gets none. *)
Definition boundSequenceFix (model : DataModelModel) (f : DataModelField)
  : option statement :=
  match f with
  | Scalar s =>
      match sequence s with
      | Some seq =>
          if negb (isGenerated s && negb (isId s))
             && truthy (columnName s) && truthy (schemaName model)
             && truthy (tableName model) && truthy (identifier seq)
          then Some (SelectSetval (identifier seq) (columnName s)
                       (schemaName model) (tableName model))
          else None
      | None => None
      end
  | Object _ => None
  end.

(** The field names of a model are pairwise distinct. *)
Definition distinctFieldNames (model : DataModelModel) : bool :=
  bool_decide (NoDup (map f_name (fields model))).

(** A model sequence given by a list of model names. *)
Definition sequenceOf (names : list string) (dataModel : DataModel)
  : list ModelNode :=
  omap (fun n => (fun m => {| modelName := n; node := m |})
                   <$> models dataModel !! n) names.

(** [log] tells, statement by statement, which row of which model each
    statement of the context is the INSERT of: the rows come from the
    store, every row of [Inserted] is logged, and every logged row comes
    after a row carrying the identity of each of its parents. *)
Record Traced (dataModel : DataModel) (store : gmap string (list ModelData))
    (c : Ctx) (log : list (string * ModelData)) : Prop := {
  traced_statements : Forall2 (isInsertOf dataModel) log (statements c);
  traced_inserted :
    forall m l r, inserted c !! m = Some l -> In r l -> In (m, r) log;
  traced_store :
    forall m r, In (m, r) log ->
                exists rows, store !! m = Some rows /\ In r rows;
  traced_parents :
    forall i m r model p a,
      log !! i = Some (m, r) -> models dataModel !! m = Some model ->
      In p (snd (groupFields (fields model))) ->
      parentRow store p r = Some a ->
      exists j a', j < i /\ log !! j = Some (o_type p, a')
                   /\ sameIdentity dataModel (o_type p) a a'
}.

(** What a completed resolution of the row [r] of the model [m] leaves:
    a trace extended by the rows it inserted, an [Inserted] that has only
    grown, and the row in it. *)
Definition resolved (dataModel : DataModel)
    (store : gmap string (list ModelData)) (c : Ctx)
    (log : list (string * ModelData)) (m : string) (r : ModelData)
    (c' : Ctx) : Prop :=
  exists log', Traced dataModel store c' (log ++ log')
               /\ inserted_le c c'
               /\ isRowInserted dataModel c' m r = true.

(** The references between the rows of the store form no cycle: [rank]
    gives every row of the store a number larger than that of each row its
    relations resolve to. *)
Definition ranked (dataModel : DataModel)
    (store : gmap string (list ModelData))
    (rank : string -> ModelData -> nat) : bool :=
  forallb
    (fun kv =>
       match models dataModel !! fst kv with
       | None => true
       | Some model =>
           forallb
             (fun r =>
                forallb
                  (fun p =>
                     match parentRow store p r with
                     | Some a => Nat.ltb (rank (o_type p) a) (rank (fst kv) r)
                     | None => true
                     end)
                  (snd (groupFields (fields model))))
             (snd kv)
       end)
    (map_to_list store).

(** From [c] to [c'] every list of [Inserted] has only grown, by rows that
    [bound] accepts. *)
Definition pushed (bound : string -> ModelData -> Prop) (c c' : Ctx) : Prop :=
  forall m l, inserted c !! m = Some l ->
              exists l', inserted c' !! m = Some (l ++ l')
                         /\ forall x, In x l' -> bound m x.

(** From [c] to [c'] statements were only appended and [Inserted] has
    only grown. *)
Definition grows (c c' : Ctx) : Prop :=
  inserted_le c c' /\ exists new, statements c' = statements c ++ new.

(** ** Sample schemas *)

Module Samples.

Definition scalarField (name type : string) (id gen dflt : bool)
    (seq : option DataModelSequence) : DataModelField :=
  Scalar {| s_name := name; columnName := name; s_type := type; isId := id;
            isGenerated := gen; hasDefaultValue := dflt; sequence := seq |}.

Definition relationField (name target : string) (from to : list string)
    (null : bool) : DataModelField :=
  Object {| o_name := name; o_type := target; relationFromFields := from;
            relationToFields := to; nullable := null |}.

Definition row (kvs : list (string * Json)) : ModelData := list_to_map kvs.

(** [customer(id serial primary key, name text not null,
     referrer_id integer references customer(id))], the table of the test
    "should handle auto circular references"; [referrerNullable] tells
    whether [referrer_id] may hold null (it may, in the test). *)
Definition customer (referrerNullable : bool) : DataModelModel :=
  {| fields :=
       [ scalarField "id" "int4" true false true
           (Some {| identifier := "public.customer_id_seq" |});
         scalarField "name" "text" false false false None;
         scalarField "referrer_id" "int4" false false false None;
         relationField "customer" "customer" ["referrer_id"] ["id"]
           referrerNullable ];
     tableName := "customer";
     schemaName := "public" |}.

Definition john : ModelData :=
  row [("id", JNumber 1); ("name", JString "John Doe");
       ("referrer_id", JNumber 2)].
Definition jane : ModelData :=
  row [("id", JNumber 2); ("name", JString "Jane Doe");
       ("referrer_id", JNumber 1)].

(** [john] was referred by [founder], who was referred by nobody. *)
Definition founder : ModelData :=
  row [("id", JNumber 2); ("name", JString "Jane Doe"); ("referrer_id", JNull)].

Definition referralChain : PgStore :=
  {| dataModel := {| models := {[ "customer" := customer true ]} |};
     _store := {[ "customer" := [john; founder] ]} |}.

Definition referrals (referrerNullable : bool) : PgStore :=
  {| dataModel := {| models := {[ "customer" := customer referrerNullable ]} |};
     _store := {[ "customer" := [john; jane] ]} |}.

(** The tables of the test "should handle relational data with nullable
    column values correctly": [test_customer(id serial primary key, name,
    email)] and [test_order(id serial primary key, customer_id not null
    references test_customer(id), product_name, quantity default 1)]. *)
Definition test_customer : DataModelModel :=
  {| fields :=
       [ scalarField "id" "int4" true false true
           (Some {| identifier := "public.test_customer_id_seq" |});
         scalarField "name" "text" false false false None;
         scalarField "email" "text" false false false None ];
     tableName := "test_customer";
     schemaName := "public" |}.

Definition test_order : DataModelModel :=
  {| fields :=
       [ scalarField "id" "int4" true false true
           (Some {| identifier := "public.test_order_id_seq" |});
         scalarField "customer_id" "int4" false false false None;
         scalarField "product_name" "text" false false false None;
         scalarField "quantity" "int4" false false true None;
         relationField "test_customer" "test_customer" ["customer_id"] ["id"]
           false ];
     tableName := "test_order";
     schemaName := "public" |}.

Definition shopModel : DataModel :=
  {| models := {[ "test_customer" := test_customer;
                  "test_order" := test_order ]} |}.

Definition johnDoe : ModelData :=
  row [("id", JNumber 1); ("name", JString "John Doe");
       ("email", JString "john@doe.email")].
Definition janeDoe : ModelData :=
  row [("id", JNumber 2); ("name", JString "Jane Doe");
       ("email", JString "jane@doe.email")].
Definition widget : ModelData :=
  row [("id", JNumber 1); ("customer_id", JNumber 1);
       ("product_name", JString "Widget"); ("quantity", JNumber 3)].
Definition gadget : ModelData :=
  row [("id", JNumber 2); ("customer_id", JNumber 2);
       ("product_name", JString "Gadget")].

Definition shop : PgStore :=
  {| dataModel := shopModel;
     _store := {[ "test_customer" := [johnDoe; janeDoe];
                  "test_order" := [widget; gadget] ]} |}.

(** The shop before any row is added. *)
Definition emptyShop : PgStore :=
  {| dataModel := shopModel;
     _store := {[ "test_customer" := []; "test_order" := [] ]} |}.

(** The table of the test "should insert into columns with default value
    set": [test_customer(id serial primary key, name text default
    'default_name' not null, email text not null)], and its first row,
    added without a name. *)
Definition defaulted_customer : DataModelModel :=
  {| fields :=
       [ scalarField "id" "int4" true false true
           (Some {| identifier := "public.test_customer_id_seq" |});
         scalarField "name" "text" false false true None;
         scalarField "email" "text" false false false None ];
     tableName := "test_customer";
     schemaName := "public" |}.

Definition cadavre : ModelData := row [("email", JString "cadavre@ex.quis")].

Definition winrar : ModelData :=
  row [("name", JString "Winrar Skarsgard"); ("email", JString "win@rar.gard")].

(** The two rows of that test, both added without an id. *)
Definition defaultsOfTest : PgStore :=
  {| dataModel := {| models := {[ "test_customer" := defaulted_customer ]} |};
     _store := {[ "test_customer" := [cadavre; winrar] ]} |}.

Definition defaults : PgStore :=
  {| dataModel := {| models := {[ "test_customer" := defaulted_customer ]} |};
     _store := {[ "test_customer" := [cadavre] ]} |}.

(** A table without primary key and without unique non-null column,
    whose rows refer to one another: [step(label unique, next, prev)],
    [next] and [prev] referencing [label]. *)
Definition step : DataModelModel :=
  {| fields :=
       [ scalarField "label" "int4" false false false None;
         scalarField "next" "int4" false false false None;
         scalarField "prev" "int4" false false false None;
         relationField "step_next" "step" ["next"] ["label"] true;
         relationField "step_prev" "step" ["prev"] ["label"] true ];
     tableName := "step";
     schemaName := "public" |}.

Definition stepRow (label : Z) (next prev : Json) : ModelData :=
  row [("label", JNumber label); ("next", next); ("prev", prev)].

Definition first : ModelData := stepRow 10 (JNumber 20) JNull.
Definition last : ModelData := stepRow 20 JNull JNull.

(** Two steps, the first followed by the last. *)
Definition steps : PgStore :=
  {| dataModel := {| models := {[ "step" := step ]} |};
     _store := {[ "step" := [first; last] ]} |}.

Definition middle : ModelData := stepRow 10 (JNumber 20) (JNumber 30).
Definition after : ModelData := stepRow 20 JNull JNull.
Definition before : ModelData := stepRow 30 JNull JNull.

(** Three steps, the middle one referring to the two others. *)
Definition line : PgStore :=
  {| dataModel := {| models := {[ "step" := step ]} |};
     _store := {[ "step" := [middle; after; before] ]} |}.

(** [seat(row_no, seat_no, primary key (row_no, seat_no), next seat,
    booking_code not null references booking(code))] and
    [booking(id serial primary key, code unique, replaces references
    booking(code), seat not null references seat)]: the seat [seat11] and
    the booking [bookingC] refer to each other through columns that may
    not be null. *)
Definition seat : DataModelModel :=
  {| fields :=
       [ scalarField "row_no" "int4" true false false None;
         scalarField "seat_no" "int4" true false false None;
         scalarField "next_row" "int4" false false false None;
         scalarField "next_seat" "int4" false false false None;
         scalarField "booking_code" "text" false false false None;
         relationField "seat_next" "seat" ["next_row"; "next_seat"]
           ["row_no"; "seat_no"] true;
         relationField "seat_booking" "booking" ["booking_code"] ["code"]
           false ];
     tableName := "seat";
     schemaName := "public" |}.

Definition booking : DataModelModel :=
  {| fields :=
       [ scalarField "id" "int4" true false true None;
         scalarField "code" "text" false false false None;
         scalarField "replaces" "text" false false false None;
         scalarField "seat_row" "int4" false false false None;
         scalarField "seat_no" "int4" false false false None;
         relationField "booking_replaces" "booking" ["replaces"] ["code"] true;
         relationField "booking_seat" "seat" ["seat_row"; "seat_no"]
           ["row_no"; "seat_no"] false ];
     tableName := "booking";
     schemaName := "public" |}.

Definition seat11 : ModelData :=
  row [("row_no", JNumber 1); ("seat_no", JNumber 1); ("next_row", JNumber 1);
       ("next_seat", JNumber 2); ("booking_code", JString "C")].
Definition seat12 : ModelData :=
  row [("row_no", JNumber 1); ("seat_no", JNumber 2); ("next_row", JNull);
       ("next_seat", JNull); ("booking_code", JString "Z")].
Definition bookingC : ModelData :=
  row [("code", JString "C"); ("replaces", JString "Y");
       ("seat_row", JNumber 1); ("seat_no", JNumber 1)].
Definition bookingY : ModelData :=
  row [("code", JString "Y"); ("replaces", JNull);
       ("seat_row", JNumber 9); ("seat_no", JNumber 9)].

Definition hall : PgStore :=
  {| dataModel := {| models := {[ "seat" := seat; "booking" := booking ]} |};
     _store := {[ "seat" := [seat11; seat12];
                  "booking" := [bookingC; bookingY] ]} |}.

(** [ticket(id serial primary key, serial_no integer generated always as
    identity)]: both columns are bound to a sequence, the second is
    generated and not an id. *)
Definition ticket : DataModelModel :=
  {| fields :=
       [ scalarField "id" "int4" true false true
           (Some {| identifier := "public.ticket_id_seq" |});
         scalarField "serial_no" "int4" false true false
           (Some {| identifier := "public.ticket_serial_no_seq" |}) ];
     tableName := "ticket";
     schemaName := "public" |}.

Definition tickets : PgStore :=
  {| dataModel := {| models := {[ "ticket" := ticket ]} |};
     _store := {[ "ticket" := [row [("id", JNumber 7)]] ]} |}.

(** A rank for the referral chain: who was referred by nobody comes
    first. *)
Definition seniority (m : string) (r : ModelData) : nat :=
  match r !! "referrer_id" with
  | Some JNull => 0
  | _ => 1
  end.

(** The context left by resolving [john] of the referral chain in a fresh
    context: [founder] and [john] are inserted. *)
Definition afterJohn : Ctx :=
  {| inserted := {[ "customer" := [founder; john] ]};
     pending := {[ "customer" := [] ]};
     statements := [ insertStatement (customer true) founder;
                     insertStatement (customer true) john ] |}.

(** A context of [steps] in which the row [last] has been inserted. *)
Definition afterLast : Ctx :=
  {| inserted := {[ "step" := [last] ]};
     pending := {[ "step" := [] ]};
     statements := [insertStatement step last] |}.

End Samples.


(** * Further notions, for the properties beyond the claims *)

(** ** The loop over the models *)

(** The sequence reaches, before any model with rows, a model whose name
    has no list in the store ([rows] is [undefined]). *)
Fixpoint reachesMissing (store : gmap string (list ModelData))
    (sortedModels : list ModelNode) : bool :=
  match sortedModels with
  | [] => false
  | entry :: rest =>
      match store !! modelName entry with
      | None => true
      | Some [] => reachesMissing store rest
      | Some (_ :: _) => false
      end
  end.

(** ** Relations that resolve to nothing *)

(** The relation [p] of [row] resolves to no row of the store: it is
    absent (all "from" values are null) or external (no row of the target
    model matches). *)
Definition unresolved (store : gmap string (list ModelData))
    (p : DataModelObjectField) (row : ModelData) : bool :=
  allNull (parentIdFields p row)
  || match store !! o_type p with
     | Some rows =>
         bool_decide (List.find (every_eq (parentIdFields p row)) rows = None)
     | None => false
     end.

(** The context a resolution leaves when it emits the INSERT of [row]
    and nothing else: the row is pushed on [Inserted], and [Pending] is
    filtered after the row was pushed on it. *)
Definition insertedAlone (model : DataModelModel) (m : string)
    (row : ModelData) (ins pend : list ModelData) (c : Ctx) : Ctx :=
  {| inserted := <[m := ins ++ [row]]> (inserted c);
     pending :=
       <[m := List.filter (every_ne (rowIdFields model row)) (pend ++ [row])]>
         (<[m := pend ++ [row]]> (pending c));
     statements := statements c ++ [insertStatement model row] |}.

(** The rows of [rows] that are not taken for inserted when their turn
    comes, [acc] being the rows inserted so far: the first row of every
    identity tuple. *)
Fixpoint newRows (model : DataModelModel) (acc rows : list ModelData)
  : list ModelData :=
  match rows with
  | [] => []
  | r :: rest =>
      if existsb (every_eq (rowIdFields model r)) acc
      then newRows model acc rest
      else r :: newRows model (acc ++ [r]) rest
  end.

Definition keepFirst (model : DataModelModel) (rows : list ModelData)
  : list ModelData :=
  newRows model [] rows.

(** No row carries the identity tuple of a row before it. *)
Fixpoint distinctIdentities (model : DataModelModel) (rows : list ModelData)
  : bool :=
  match rows with
  | [] => true
  | r :: rest =>
      forallb (fun r' => negb (every_eq (rowIdFields model r') r)) rest
      && distinctIdentities model rest
  end.

(** The model has no relation field. *)
Definition relationFree (model : DataModelModel) : bool :=
  match snd (groupFields (fields model)) with
  | [] => true
  | _ :: _ => false
  end.

(** ** [logToSqlErrors] *)

(** [MissingPKForUpdateError], the one variant of [ToSQLErrors]; its
    [type] tag is constant. *)
Record MissingPKForUpdateError : Type := { error_modelName : string }.

(** A line written by [console.log]: the model name and the number put
    into the message. *)
Record Warning : Type := {
  warning_modelName : string;
  affectedRows : nat
}.

(** The text of the line. *)
Definition warningText (w : Warning) : string :=
  ("Warning: skipping UPDATE on model " ++ warning_modelName w ++ " for "
   ++ pretty (affectedRows w)
   ++ " rows as it has no id fields (no PRIMARY KEYS or UNIQUE NON NULL columns found)")%string.

(** [missingPKForUpdateErrorsMap] after the first loop. *)
Definition missingPKForUpdateErrorsMap (errors : list MissingPKForUpdateError)
  : list (string * nat) :=
  fold_left
    (fun m error =>
       jsMapSet (error_modelName error)
         (default 1 (jsMapGet (error_modelName error) m) + 1) m)
    errors [].

(** [logToSqlErrors]: the lines it writes, in order. *)
Definition logToSqlErrors (errors : list MissingPKForUpdateError)
  : list Warning :=
  if Nat.eqb (length errors) 0 then []
  else
    map (fun kv => {| warning_modelName := fst kv; affectedRows := snd kv |})
        (missingPKForUpdateErrorsMap errors).

(** The number of errors recorded for a model. *)
Definition occurrences (name : string) (errors : list MissingPKForUpdateError)
  : nat :=
  length (List.filter (fun e => String.eqb (error_modelName e) name) errors).

(** ** [Pending], and stores on which synthesis succeeds *)

(** Every model has at least one id field. *)
Definition allHaveId (dataModel : DataModel) : bool :=
  forallb
    (fun kv => negb (Nat.eqb (length (List.filter f_isId (fields (snd kv)))) 0))
    (map_to_list (models dataModel)).

(** Every model has a list of rows in the store, and every relation
    targets a model. *)
Definition closed (dataModel : DataModel)
    (store : gmap string (list ModelData)) : bool :=
  forallb
    (fun kv =>
       bool_decide (is_Some (store !! fst kv))
       && forallb (fun p => bool_decide (is_Some (models dataModel !! o_type p)))
            (snd (groupFields (fields (snd kv)))))
    (map_to_list (models dataModel)).

(** The "to" columns of a relation single out the row it resolves to:
    no other row of the target model matches the "from" values. *)
Definition uniqueTargets (dataModel : DataModel)
    (store : gmap string (list ModelData)) : bool :=
  forallb
    (fun kv =>
       match models dataModel !! fst kv with
       | None => true
       | Some model =>
           forallb
             (fun r =>
                forallb
                  (fun p =>
                     match parentRow store p r, store !! o_type p with
                     | Some a, Some prows =>
                         forallb
                           (fun x =>
                              implb (every_eq (parentIdFields p r) x)
                                    (bool_decide (x = a)))
                           prows
                     | _, _ => true
                     end)
                  (snd (groupFields (fields model))))
             (snd kv)
       end)
    (map_to_list store).

(** Every row of the store ranks below [fuel]. *)
Definition rankedBelow (store : gmap string (list ModelData))
    (rank : string -> ModelData -> nat) (fuel : nat) : bool :=
  forallb (fun kv => forallb (fun r => Nat.ltb (rank (fst kv) r) fuel) (snd kv))
          (map_to_list store).

(** [Inserted] and [Pending] hold a list for every model. *)
Definition keyed (dataModel : DataModel) (c : Ctx) : Prop :=
  forall m, is_Some (models dataModel !! m) ->
            is_Some (inserted c !! m) /\ is_Some (pending c !! m).

(** The lists of [Pending] in [c'] hold only rows they held in [c]. *)
Definition pending_sub (c c' : Ctx) : Prop :=
  forall m l', pending c' !! m = Some l' ->
               exists l, pending c !! m = Some l
                         /\ forall x, In x l' -> In x l.

(** Every pending row is a row of the store that ranks at least [n]. *)
Definition guarded (store : gmap string (list ModelData))
    (rank : string -> ModelData -> nat) (n : nat) (c : Ctx) : Prop :=
  forall m0 l x, pending c !! m0 = Some l -> In x l ->
                 (exists rows, store !! m0 = Some rows /\ In x rows)
                 /\ n <= rank m0 x.

(** [c] and [c'] hold lists under the same model names. *)
Definition sameKeys (c c' : Ctx) : Prop :=
  forall m, (is_Some (inserted c' !! m) <-> is_Some (inserted c !! m))
            /\ (is_Some (pending c' !! m) <-> is_Some (pending c !! m)).

(** The list of [Pending] for the model [m] has lost no row from [c] to
    [c']. *)
Definition pending_keeps (m : string) (c c' : Ctx) : Prop :=
  forall l x, pending c !! m = Some l -> In x l ->
              exists l', pending c' !! m = Some l' /\ In x l'.

(** ** Further samples *)

Module Cases.

(** The context left by resolving the row [last] of [steps] in a fresh
    context: the row is inserted, and still pending. *)
Definition lastResolved : Ctx :=
  {| inserted := {[ "step" := [Samples.last] ]};
     pending := {[ "step" := [Samples.last] ]};
     statements := [insertStatement Samples.step Samples.last] |}.

(** The relation [step_next] of the model [step]. *)
Definition step_next : DataModelObjectField :=
  {| o_name := "step_next"; o_type := "step";
     relationFromFields := ["next"]; relationToFields := ["label"];
     nullable := true |}.

End Cases.

(** ** Descriptors under other flags

    The data model with [hasDefaultValue] of every scalar field and
    [nullable] of every relation field replaced by the values of [d]
    and [n]. *)

Definition reflagField (d : DataModelScalarField -> bool)
    (n : DataModelObjectField -> bool) (f : DataModelField) : DataModelField :=
  match f with
  | Scalar s =>
      Scalar {| s_name := s_name s; columnName := columnName s;
                s_type := s_type s; isId := isId s;
                isGenerated := isGenerated s; hasDefaultValue := d s;
                sequence := sequence s |}
  | Object o =>
      Object {| o_name := o_name o; o_type := o_type o;
                relationFromFields := relationFromFields o;
                relationToFields := relationToFields o; nullable := n o |}
  end.

Definition reflagModel (d : DataModelScalarField -> bool)
    (n : DataModelObjectField -> bool) (model : DataModelModel)
  : DataModelModel :=
  {| fields := map (reflagField d n) (fields model);
     tableName := tableName model;
     schemaName := schemaName model |}.

Definition reflag (d : DataModelScalarField -> bool)
    (n : DataModelObjectField -> bool) (dataModel : DataModel) : DataModel :=
  {| models := reflagModel d n <$> models dataModel |}.

Definition reflagNode (d : DataModelScalarField -> bool)
    (n : DataModelObjectField -> bool) (entry : ModelNode) : ModelNode :=
  {| modelName := modelName entry; node := reflagModel d n (node entry) |}.

(** ** The objects of a call

    [createStatements] creates the objects [sequenceFixerStatements],
    [inserted], [pending] and [statements], and [createStatement] changes
    them in place through the references of the context it is handed,
    which [{...ctx, modelName, row}] copies to the nested calls.  Here
    the objects live in a heap and are reached by reference, the store
    object [this._store] and its arrays among them: a creation appends
    an object, a method call or an assignment rewrites the object at its
    reference.  The rows and the data model, which no statement of the
    code writes to, stay values.  A loop over an array ([for ... of],
    [some], [find], [filter]) takes the elements the array holds when
    the loop starts; the array returned, [[...statements,
    ...sequenceFixerStatements]], is given by its elements. *)

Module Imperative.

Record heap : Type := {
  arrays : list (list ModelData);      (* the objects Array<ModelData> *)
  records : list (gmap string nat);    (* Record<string, Array<ModelData>> *)
  texts : list (list statement)        (* Array<string> *)
}.

(** A computation on the heap; what it wrote stays written when it
    throws. *)
Definition M (A : Type) : Type := heap -> result A * heap.

Definition ret {A : Type} (a : A) : M A := fun h => (Ok a, h).

Definition throw {A : Type} (e : error) : M A := fun h => (Throw e, h).

Definition bindM {A B : Type} (c : M A) (k : A -> M B) : M B :=
  fun h =>
    match c h with
    | (Ok a, h') => k a h'
    | (Throw e, h') => (Throw e, h')
    | (OutOfFuel, h') => (OutOfFuel, h')
    end.

Notation "'let!' x ':=' c 'in' k" := (bindM c (fun x => k))
  (at level 10, x name, c at level 100, k at level 200).

Fixpoint forEachM {A : Type} (body : A -> M unit) (xs : list A) : M unit :=
  match xs with
  | [] => ret tt
  | x :: xs' => let! _ := body x in forEachM body xs'
  end.

(** [record[key]], about to be read as an array: the reference of the
    array and its elements; a TypeError when [record[key]] is
    [undefined]. *)
Definition member (record : nat) (key : string) : M (nat * list ModelData) :=
  fun h =>
    match records h !! record ≫= (fun d => d !! key) with
    | Some a =>
        match arrays h !! a with
        | Some rows => (Ok (a, rows), h)
        | None => (Throw TypeError, h)
        end
    | None => (Throw TypeError, h)
    end.

(** [array.push(row)] *)
Definition push (a : nat) (row : ModelData) : M unit :=
  fun h =>
    match arrays h !! a with
    | Some rows =>
        (Ok tt, {| arrays := <[a := rows ++ [row]]> (arrays h);
                   records := records h; texts := texts h |})
    | None => (Throw TypeError, h)
    end.

(** A new array, as [[]] or [filter] creates one. *)
Definition newArray (rows : list ModelData) : M nat :=
  fun h =>
    (Ok (length (arrays h)),
     {| arrays := arrays h ++ [rows]; records := records h;
        texts := texts h |}).

(** [record[key] = array] *)
Definition assign (record : nat) (key : string) (a : nat) : M unit :=
  fun h =>
    match records h !! record with
    | Some d =>
        (Ok tt, {| arrays := arrays h;
                   records := <[record := <[key := a]> d]> (records h);
                   texts := texts h |})
    | None => (Throw TypeError, h)
    end.

Definition newRecord (d : gmap string nat) : M nat :=
  fun h =>
    (Ok (length (records h)),
     {| arrays := arrays h; records := records h ++ [d];
        texts := texts h |}).

Definition newText : M nat :=
  fun h =>
    (Ok (length (texts h)),
     {| arrays := arrays h; records := records h;
        texts := texts h ++ [[]] |}).

Definition pushText (t : nat) (s : statement) : M unit :=
  fun h =>
    match texts h !! t with
    | Some l =>
        (Ok tt, {| arrays := arrays h; records := records h;
                   texts := <[t := l ++ [s]]> (texts h) |})
    | None => (Throw TypeError, h)
    end.

Definition readText (t : nat) : M (list statement) :=
  fun h =>
    match texts h !! t with
    | Some l => (Ok l, h)
    | None => (Throw TypeError, h)
    end.

(** The references a context carries: [ctx.inserted], [ctx.pending],
    [ctx.statements] and [ctx.store]. *)
Record Refs : Type := {
  r_inserted : nat;
  r_pending : nat;
  r_statements : nat;
  r_store : nat
}.

Section Synthesis.
Variable dataModel : DataModel.
Variable ctx : Refs.

Definition resolveParent (rec : string -> ModelData -> M unit)
    (row : ModelData) (parent : DataModelObjectField) : M unit :=
  let pids := parentIdFields parent row in
  if allNull pids then ret tt
  else
    let! rows := member (r_store ctx) (o_type parent) in
    match List.find (every_eq pids) (snd rows) with
    | None => ret tt
    | Some parentRow =>
        let! pend := member (r_pending ctx) (o_type parent) in
        if existsb (every_eq pids) (snd pend)
        then throw (CircularDependency (o_type parent) parentRow)
        else rec (o_type parent) parentRow
    end.

Definition createStatement_body (rec : string -> ModelData -> M unit)
    (modelName : string) (row : ModelData) : M unit :=
  match models dataModel !! modelName with
  | None => throw TypeError
  | Some model =>
      let ids := rowIdFields model row in
      let! ins := member (r_inserted ctx) modelName in
      if existsb (every_eq ids) (snd ins) then ret tt
      else
        let! pend := member (r_pending ctx) modelName in
        let! _ := push (fst pend) row in
        let! _ := forEachM (resolveParent rec row)
                    (snd (groupFields (fields model))) in
        let! _ := pushText (r_statements ctx) (insertStatement model row) in
        let! pend2 := member (r_pending ctx) modelName in
        let! kept := newArray (List.filter (every_ne ids) (snd pend2)) in
        let! _ := assign (r_pending ctx) modelName kept in
        let! ins2 := member (r_inserted ctx) modelName in
        push (fst ins2) row
  end.

Fixpoint createStatement (fuel : nat) : string -> ModelData -> M unit :=
  match fuel with
  | O => fun _ _ h => (OutOfFuel, h)
  | S fuel' => createStatement_body (createStatement fuel')
  end.
End Synthesis.

(** [Object.fromEntries(keys.map((modelName) => [modelName, []]))] *)
Fixpoint emptyArrays (keys : list string) (d : gmap string nat)
  : M (gmap string nat) :=
  match keys with
  | [] => ret d
  | key :: keys' => let! a := newArray [] in emptyArrays keys' (<[key := a]> d)
  end.

Definition fromEntries (keys : list string) : M nat :=
  let! d := emptyArrays keys ∅ in newRecord d.

Section CreateStatements.
Variable sortModels : DataModel -> list ModelNode.
Variable dataModel : DataModel.

Fixpoint createStatements_loop (fuel : nat) (ctx : Refs) (fixers : nat)
    (sortedModels : list ModelNode) : M (option (list statement)) :=
  match sortedModels with
  | [] => ret None
  | entry :: rest =>
      let! rows := member (r_store ctx) (modelName entry) in
      if Nat.eqb (length (snd rows)) 0
      then createStatements_loop fuel ctx fixers rest
      else
        let! _ := forEachM (pushText fixers)
                    (sequenceFixerStatements (node entry)) in
        let! _ := forEachM (createStatement dataModel ctx fuel (modelName entry))
                    (snd rows) in
        let! stmts := readText (r_statements ctx) in
        let! fixes := readText fixers in
        ret (Some (stmts ++ fixes))
  end.

Definition createStatements (store : nat) (fuel : nat)
  : M (option (list statement)) :=
  let keys := map fst (map_to_list (models dataModel)) in
  let! fixers := newText in
  let! ins := fromEntries keys in
  let! pend := fromEntries keys in
  let! stmts := newText in
  createStatements_loop fuel
    {| r_inserted := ins; r_pending := pend; r_statements := stmts;
       r_store := store |}
    fixers (sortModels dataModel).
End CreateStatements.

(** The store object: [this.dataModel] and the reference [this._store]. *)
Record PgStore : Type := {
  dataModel : DataModel;
  _store : nat
}.

Definition toSQL (sortModels : DataModel -> list ModelNode) (fuel : nat)
    (this : PgStore) : M (option (list statement)) :=
  createStatements sortModels (dataModel this) (_store this) fuel.

(** What a record of arrays holds in a heap. *)
Definition view (h : heap) (d : gmap string nat)
  : gmap string (list ModelData) :=
  omap (fun a => arrays h !! a) d.

(** The rows [this._store] holds in a heap. *)
Definition snapshot (h : heap) (store : nat) : gmap string (list ModelData) :=
  match records h !! store with
  | Some d => view h d
  | None => ∅
  end.

(** The store object exists and refers to arrays that exist. *)
Definition wellFormed (h : heap) (store : nat) : bool :=
  match records h !! store with
  | Some d =>
      forallb (fun kv => Nat.ltb (snd kv) (length (arrays h))) (map_to_list d)
  | None => false
  end.

(** Every object of [h] is in [h'], as it was. *)
Definition extends (h h' : heap) : Prop :=
  arrays h `prefix_of` arrays h'
  /\ records h `prefix_of` records h'
  /\ texts h `prefix_of` texts h'.

End Imperative.

(** ** The objects of a call and the context they stand for *)

(** The arrays a record refers to were created after [h0] and exist. *)
Definition owned (h0 h : Imperative.heap) (d : gmap string nat) : Prop :=
  forall k a, d !! k = Some a ->
              length (Imperative.arrays h0) <= a
              /\ a < length (Imperative.arrays h).

(** No array is held under two keys. *)
Definition unshared (d : gmap string nat) : Prop :=
  forall k k' a, d !! k = Some a -> d !! k' = Some a -> k = k'.

(** No array is held by both records. *)
Definition apart (d d' : gmap string nat) : Prop :=
  forall k k' a, d !! k = Some a -> d' !! k' = Some a -> False.

(** In the heap [h], which extends the heap [h0] of the moment of the
    call, the references of [ctx] lead to objects created since, that
    share nothing, and that hold the context [c]; [fixers] is the
    reference of [sequenceFixerStatements], which holds [fx]. *)
Record Rep (h0 : Imperative.heap) (ctx : Imperative.Refs) (fixers : nat)
    (di : gmap string nat) (fx : list statement)
    (h : Imperative.heap) (c : Ctx) : Prop := {
  rep_ext : Imperative.extends h0 h;
  rep_records :
    length (Imperative.records h0) <= Imperative.r_inserted ctx
    /\ length (Imperative.records h0) <= Imperative.r_pending ctx
    /\ Imperative.r_inserted ctx <> Imperative.r_pending ctx;
  rep_texts :
    length (Imperative.texts h0) <= Imperative.r_statements ctx
    /\ length (Imperative.texts h0) <= fixers
    /\ fixers <> Imperative.r_statements ctx;
  rep_statements :
    Imperative.texts h !! Imperative.r_statements ctx = Some (statements c);
  rep_fixers : Imperative.texts h !! fixers = Some fx;
  rep_inserted :
    Imperative.records h !! Imperative.r_inserted ctx = Some di
    /\ Imperative.view h di = inserted c
    /\ owned h0 h di /\ unshared di;
  rep_pending :
    exists dp,
      Imperative.records h !! Imperative.r_pending ctx = Some dp
      /\ Imperative.view h dp = pending c
      /\ owned h0 h dp /\ unshared dp /\ apart di dp
}.

(** The run [imp] on the heap ends as the run [pure] on the context:
    with the same error, or with a heap that holds the context
    returned. *)
Definition sim {A : Type} (P : Imperative.heap -> Ctx -> Prop)
    (Q : Imperative.heap -> Prop) (pure : result Ctx)
    (imp : result A * Imperative.heap) : Prop :=
  match pure with
  | Ok c' => (exists a, fst imp = Ok a) /\ P (snd imp) c'
  | Throw e => fst imp = Throw e /\ Q (snd imp)
  | OutOfFuel => fst imp = OutOfFuel /\ Q (snd imp)
  end.

(** The arrays a record refers to were created from the reference [lo]
    on, are empty, and none is held under two keys. *)
Definition blank (lo : nat) (h : Imperative.heap) (d : gmap string nat)
  : Prop :=
  (forall k a, d !! k = Some a ->
               lo <= a /\ Imperative.arrays h !! a = Some [])
  /\ unshared d.

(** The run [imp] on the heap ends as [pure] does and leaves every
    object of [h0] as it was. *)
Definition ends {A : Type} (h0 : Imperative.heap) (pure : result A)
    (imp : result A * Imperative.heap) : Prop :=
  fst imp = pure /\ Imperative.extends h0 (snd imp).

(** The heap of the shop: the store object and its two arrays. *)
Definition shopHeap : Imperative.heap :=
  {| Imperative.arrays := [ [Samples.johnDoe; Samples.janeDoe];
                            [Samples.widget; Samples.gadget] ];
     Imperative.records := [ {[ "test_customer" := 0; "test_order" := 1 ]} ];
     Imperative.texts := [] |}.

Definition shopObject : Imperative.PgStore :=
  {| Imperative.dataModel := Samples.shopModel; Imperative._store := 0 |}.

(** * Properties *)

(** ** Generic facts about the loop and the result type *)

(** An invariant that every turn preserves holds when the loop is left. *)
Lemma forEach_invariant {A S : Type} (body : A -> S -> result S)
    (I : S -> Prop) (xs : list A) :
  (forall x s s', In x xs -> I s -> body x s = Ok s' -> I s') ->
  forall s s', I s -> forEach body xs s = Ok s' -> I s'.
Proof.
  induction xs as [|x xs IH]; intros Hstep s s' Hs Hrun; simpl in Hrun.
  - congruence.
  - destruct (body x s) as [s1| |] eqn:Hb; simpl in Hrun; try discriminate.
    eapply IH; [| |exact Hrun].
    + intros y t t' Hy. apply Hstep. now right.
    + eapply Hstep; [now left|exact Hs|exact Hb].
Qed.

(** A loop whose body agrees with another on every completed turn. *)
Lemma forEach_mono {A S : Type} (b1 b2 : A -> S -> result S) (xs : list A) :
  (forall x s, b1 x s <> OutOfFuel -> b2 x s = b1 x s) ->
  forall s, forEach b1 xs s <> OutOfFuel -> forEach b2 xs s = forEach b1 xs s.
Proof.
  intros Hb. induction xs as [|x xs IH]; intros s Hrun; simpl in *; [reflexivity|].
  destruct (b1 x s) as [s1| |] eqn:H1; simpl in *.
  - rewrite Hb by (rewrite H1; discriminate). rewrite H1. simpl. now apply IH.
  - rewrite Hb by (rewrite H1; discriminate). rewrite H1. reflexivity.
  - congruence.
Qed.

(** ** Fuel: a completed run does not depend on the budget *)

Section Fuel.
Variable dataModel : DataModel.
Variable store : gmap string (list ModelData).

Lemma resolveParent_mono (rec1 rec2 : string -> ModelData -> Ctx -> result Ctx)
    (row : ModelData) :
  (forall m r c, rec1 m r c <> OutOfFuel -> rec2 m r c = rec1 m r c) ->
  forall p c, resolveParent store rec1 row p c <> OutOfFuel ->
              resolveParent store rec2 row p c = resolveParent store rec1 row p c.
Proof.
  intros Hrec p c. unfold resolveParent.
  destruct (allNull _); [reflexivity|].
  destruct (store !! o_type p); [|reflexivity].
  destruct (List.find _ _); [|reflexivity].
  destruct (pending c !! o_type p); [|reflexivity].
  destruct (existsb _ _); [reflexivity|].
  apply Hrec.
Qed.

Lemma createStatement_body_mono
    (rec1 rec2 : string -> ModelData -> Ctx -> result Ctx) :
  (forall m r c, rec1 m r c <> OutOfFuel -> rec2 m r c = rec1 m r c) ->
  forall m r c, createStatement_body dataModel store rec1 m r c <> OutOfFuel ->
                createStatement_body dataModel store rec2 m r c
                = createStatement_body dataModel store rec1 m r c.
Proof.
  intros Hrec m r c. unfold createStatement_body.
  destruct (models dataModel !! m) as [model|]; [|reflexivity].
  destruct (inserted c !! m) as [ins|]; [|reflexivity].
  destruct (existsb _ ins); [reflexivity|].
  destruct (pending c !! m) as [pend|]; [|reflexivity].
  intros Hrun.
  rewrite (forEach_mono (resolveParent store rec1 r) (resolveParent store rec2 r)).
  - reflexivity.
  - intros p s. now apply resolveParent_mono.
  - intros E. apply Hrun. rewrite E. reflexivity.
Qed.

Lemma createStatement_S (fuel : nat) (m : string) (r : ModelData) (c : Ctx) :
  createStatement dataModel store fuel m r c <> OutOfFuel ->
  createStatement dataModel store (S fuel) m r c
  = createStatement dataModel store fuel m r c.
Proof.
  revert m r c. induction fuel as [|fuel IH]; intros m r c Hrun.
  - now contradiction Hrun.
  - change (createStatement dataModel store (S (S fuel)))
      with (createStatement_body dataModel store
              (createStatement dataModel store (S fuel))).
    change (createStatement dataModel store (S fuel))
      with (createStatement_body dataModel store
              (createStatement dataModel store fuel)) at 2.
    apply createStatement_body_mono; [exact IH|exact Hrun].
Qed.

Lemma createStatement_fuel (fuel extra : nat) (m : string) (r : ModelData)
    (c : Ctx) :
  createStatement dataModel store fuel m r c <> OutOfFuel ->
  createStatement dataModel store (extra + fuel) m r c
  = createStatement dataModel store fuel m r c.
Proof.
  intros Hrun. induction extra as [|extra IH]; [reflexivity|].
  change (S extra + fuel) with (S (extra + fuel)).
  rewrite createStatement_S; [exact IH|]. rewrite IH. exact Hrun.
Qed.
End Fuel.

(** ** What a resolution leaves behind *)

Lemma every_eq_self (model : DataModelModel) (r : ModelData) :
  every_eq (rowIdFields model r) r = true.
Proof.
  unfold every_eq, rowIdFields. apply forallb_forall. intros [k v] Hin.
  apply in_map_iff in Hin. destruct Hin as [f [E _]]. inversion E; subst.
  simpl. unfold strict_eq. now apply bool_decide_eq_true.
Qed.

Lemma inserted_le_refl (c : Ctx) : inserted_le c c.
Proof. intros m l H. exists []. now rewrite app_nil_r. Qed.

Lemma inserted_le_trans (c1 c2 c3 : Ctx) :
  inserted_le c1 c2 -> inserted_le c2 c3 -> inserted_le c1 c3.
Proof.
  intros H12 H23 m l H. destruct (H12 m l H) as [l1 H1].
  destruct (H23 m _ H1) as [l2 H2]. exists (l1 ++ l2).
  now rewrite app_assoc.
Qed.

(** Pushing a row on the list of its model keeps [Inserted] above where
    it was. *)
Lemma inserted_le_push (c c2 : Ctx) (m : string) (ins2 : list ModelData)
    (r : ModelData) (pend : gmap string (list ModelData))
    (stmts : list statement) :
  inserted_le c c2 -> inserted c2 !! m = Some ins2 ->
  inserted_le c {| inserted := <[m := ins2 ++ [r]]> (inserted c2);
                   pending := pend; statements := stmts |}.
Proof.
  intros Hle Hins2 m0 l Hl. destruct (Hle m0 l Hl) as [l' Hl']. cbn [inserted].
  destruct (decide (m = m0)) as [->|Hne].
  - rewrite lookup_insert_eq. rewrite Hins2 in Hl'. inversion Hl'; subst ins2.
    exists (l' ++ [r]). now rewrite app_assoc.
  - rewrite lookup_insert_ne by exact Hne. now exists l'.
Qed.

Section Resolution.
Variable dataModel : DataModel.
Variable store : gmap string (list ModelData).

Lemma isRowInserted_le (c c' : Ctx) (m : string) (r : ModelData) :
  inserted_le c c' ->
  isRowInserted dataModel c m r = true -> isRowInserted dataModel c' m r = true.
Proof.
  unfold isRowInserted. intros Hle.
  destruct (models dataModel !! m) as [model|]; [|discriminate].
  destruct (inserted c !! m) as [ins|] eqn:E; [|discriminate].
  destruct (Hle m ins E) as [l' E']. rewrite E'. intros H.
  rewrite existsb_app, H. reflexivity.
Qed.

(** A row found in [Inserted] is skipped: nothing is emitted, nothing is
    changed. *)
Lemma createStatement_inserted (fuel : nat) (m : string) (r : ModelData)
    (c : Ctx) :
  isRowInserted dataModel c m r = true ->
  createStatement dataModel store (S fuel) m r c = Ok c.
Proof.
  unfold isRowInserted. simpl. unfold createStatement_body.
  destruct (models dataModel !! m) as [model|]; [|discriminate].
  destruct (inserted c !! m) as [ins|]; [|discriminate].
  intros H. now rewrite H.
Qed.

Lemma Traced_same (c c' : Ctx) (log : list (string * ModelData)) :
  inserted c' = inserted c -> statements c' = statements c ->
  Traced dataModel store c log -> Traced dataModel store c' log.
Proof.
  intros Hi Hs [T1 T2 T3 T4]. split; rewrite ?Hi, ?Hs; assumption.
Qed.

Lemma resolveParent_traced
    (rec : string -> ModelData -> Ctx -> result Ctx) (row : ModelData) :
  (forall m r c c' log,
      rec m r c = Ok c' -> Traced dataModel store c log ->
      (exists rows, store !! m = Some rows /\ In r rows) ->
      resolved dataModel store c log m r c') ->
  forall p c c' log,
    resolveParent store rec row p c = Ok c' ->
    Traced dataModel store c log ->
    exists log', Traced dataModel store c' (log ++ log')
                 /\ inserted_le c c'
                 /\ forall a, parentRow store p row = Some a ->
                              exists a', In (o_type p, a') (log ++ log')
                                         /\ sameIdentity dataModel (o_type p) a a'.
Proof.
  intros Hrec p c c' log Hrun HT.
  unfold resolveParent in Hrun. unfold parentRow.
  destruct (allNull (parentIdFields p row)).
  { inversion Hrun; subst. exists []. rewrite app_nil_r.
    split; [exact HT|]. split; [apply inserted_le_refl|]. discriminate. }
  destruct (store !! o_type p) as [rows|] eqn:Hst; [|discriminate].
  destruct (List.find (every_eq (parentIdFields p row)) rows) as [a|] eqn:Hfind.
  2:{ inversion Hrun; subst. exists []. rewrite app_nil_r.
      split; [exact HT|]. split; [apply inserted_le_refl|]. discriminate. }
  destruct (pending c !! o_type p) as [pend|]; [|discriminate].
  destruct (existsb _ pend); [discriminate|].
  apply find_some in Hfind. destruct Hfind as [Hin _].
  destruct (Hrec _ _ _ _ log Hrun HT) as [log' [HT' [Hle Hins]]].
  { exists rows. now split. }
  exists log'. split; [exact HT'|]. split; [exact Hle|].
  intros a0 E. inversion E; subst a0.
  unfold isRowInserted in Hins.
  destruct (models dataModel !! o_type p) as [pm|] eqn:Hpm; [|discriminate].
  destruct (inserted c' !! o_type p) as [ins|] eqn:Hi; [|discriminate].
  apply existsb_exists in Hins. destruct Hins as [a' [Ha' Hid]].
  exists a'. split.
  - destruct HT' as [_ T2 _ _]. eapply T2; eassumption.
  - exists pm. now split.
Qed.
End Resolution.

Section ResolutionTrace.
Variable dataModel : DataModel.
Variable store : gmap string (list ModelData).

Lemma parents_traced
    (rec : string -> ModelData -> Ctx -> result Ctx) (row : ModelData) :
  (forall m r c c' log,
      rec m r c = Ok c' -> Traced dataModel store c log ->
      (exists rows, store !! m = Some rows /\ In r rows) ->
      resolved dataModel store c log m r c') ->
  forall ps c c' log,
    forEach (resolveParent store rec row) ps c = Ok c' ->
    Traced dataModel store c log ->
    exists log', Traced dataModel store c' (log ++ log')
                 /\ inserted_le c c'
                 /\ forall p a, In p ps -> parentRow store p row = Some a ->
                      exists a', In (o_type p, a') (log ++ log')
                                 /\ sameIdentity dataModel (o_type p) a a'.
Proof.
  intros Hrec ps. induction ps as [|p ps IH]; intros c c' log Hrun HT.
  - simpl in Hrun. inversion Hrun; subst. exists []. rewrite app_nil_r.
    split; [exact HT|]. split; [apply inserted_le_refl|]. intros ? ? [].
  - simpl in Hrun.
    destruct (resolveParent store rec row p c) as [c1| |] eqn:Hp;
      simpl in Hrun; try discriminate.
    destruct (resolveParent_traced dataModel store rec row Hrec p c c1 log Hp HT)
      as [l1 [HT1 [Hle1 Hp1]]].
    destruct (IH c1 c' (log ++ l1) Hrun HT1) as [l2 [HT2 [Hle2 Hp2]]].
    exists (l1 ++ l2). rewrite app_assoc.
    split; [exact HT2|]. split; [eapply inserted_le_trans; eassumption|].
    intros q a [->|Hq] Ha.
    + destruct (Hp1 a Ha) as [a' [Hin Hid]]. exists a'. split; [|exact Hid].
      apply in_or_app. now left.
    + now apply Hp2.
Qed.

(** What a completed resolution leaves: a trace extended by the rows it
    inserted, an [Inserted] that has only grown, and the row in it. *)
Lemma createStatement_traced (fuel : nat) :
  forall m r c c' log,
    createStatement dataModel store fuel m r c = Ok c' ->
    Traced dataModel store c log ->
    (exists rows, store !! m = Some rows /\ In r rows) ->
    resolved dataModel store c log m r c'.
Proof.
  induction fuel as [|fuel IH]; intros m r c c' log Hrun HT Hstore.
  { discriminate. }
  simpl in Hrun. unfold createStatement_body in Hrun.
  destruct (models dataModel !! m) as [model|] eqn:Hm; [|discriminate].
  destruct (inserted c !! m) as [ins|] eqn:Hins; [|discriminate].
  destruct (existsb (every_eq (rowIdFields model r)) ins) eqn:Hex.
  { inversion Hrun; subst c'. exists []. rewrite app_nil_r.
    split; [exact HT|]. split; [apply inserted_le_refl|].
    unfold isRowInserted. now rewrite Hm, Hins. }
  destruct (pending c !! m) as [pend|] eqn:Hpend; [|discriminate].
  match type of Hrun with
  | bind (forEach _ _ ?c1) _ = _ => set (ctx1 := c1) in *
  end.
  destruct (forEach _ _ ctx1) as [c2| |] eqn:Hloop; simpl in Hrun;
    try discriminate.
  destruct (pending c2 !! m) as [pend2|]; [|discriminate].
  destruct (inserted c2 !! m) as [ins2|] eqn:Hins2; [|discriminate].
  inversion Hrun; subst c'; clear Hrun.
  assert (HT1 : Traced dataModel store ctx1 log)
    by (eapply Traced_same; [| |exact HT]; reflexivity).
  destruct (parents_traced _ r IH _ _ _ log Hloop HT1) as [lk [HTk [Hlek Hpk]]].
  assert (Hle : inserted_le c c2) by exact Hlek.
  exists (lk ++ [(m, r)]). rewrite app_assoc.
  destruct HTk as [T1 T2 T3 T4].
  split; [split|split]; simpl.
  - apply Forall2_app; [exact T1|]. constructor; [|constructor].
    exists model. now split.
  - intros m0 l r0 Hl Hr0. apply in_or_app.
    destruct (decide (m = m0)) as [->|Hne].
    + rewrite lookup_insert_eq in Hl. inversion Hl; subst l.
      apply in_app_or in Hr0. destruct Hr0 as [Hr0|[->|[]]].
      * left. eapply T2; eassumption.
      * right. now left.
    + rewrite lookup_insert_ne in Hl by exact Hne. left. eapply T2; eassumption.
  - intros m0 r0 Hin. apply in_app_or in Hin. destruct Hin as [Hin|[E|[]]].
    + now apply T3.
    + inversion E; subst. exact Hstore.
  - intros i m0 r0 model0 p a Hi Hm0 Hp Ha.
    apply lookup_snoc_Some in Hi. destruct Hi as [[Hlt Hi]|[Hi E]].
    + destruct (T4 i m0 r0 model0 p a Hi Hm0 Hp Ha) as [j [a' [Hj [Hlj Hid]]]].
      exists j, a'. split; [exact Hj|]. split; [|exact Hid].
      rewrite lookup_app_l; [exact Hlj|]. apply lookup_lt_Some in Hlj. exact Hlj.
    + inversion E; subst m0 r0. rewrite Hm in Hm0. inversion Hm0; subst model0.
      destruct (Hpk p a Hp Ha) as [a' [Hin Hid]].
      apply list_elem_of_In, list_elem_of_lookup in Hin. destruct Hin as [j Hj].
      exists j, a'. split; [|split; [|exact Hid]].
      * rewrite Hi. apply lookup_lt_Some in Hj. exact Hj.
      * rewrite lookup_app_l; [exact Hj|]. apply lookup_lt_Some in Hj. exact Hj.
  - now apply inserted_le_push.
  - unfold isRowInserted. cbn [inserted]. rewrite Hm, lookup_insert_eq.
    rewrite existsb_app. simpl. rewrite every_eq_self.
    now rewrite orb_true_r.
Qed.
End ResolutionTrace.

(** ** The loop over the models *)

Section ModelLoop.
Variable dataModel : DataModel.
Variable store : gmap string (list ModelData).

(** A batch is returned by the turn of the first model that has rows:
    the models before it have none, and the batch is what the rows of
    that one model produce, followed by its sequence fixers. *)
Lemma createStatements_loop_returns (fuel : nat) (ctx : Ctx)
    (fixers : list statement) (sortedModels : list ModelNode)
    (out : list statement) :
  createStatements_loop dataModel store fuel ctx fixers sortedModels
  = Ok (Some out) ->
  exists before entry after rows ctx',
    sortedModels = before ++ entry :: after
    /\ (forall e, In e before -> store !! modelName e = Some [])
    /\ store !! modelName entry = Some rows /\ rows <> []
    /\ forEach (createStatement dataModel store fuel (modelName entry)) rows ctx
       = Ok ctx'
    /\ out = statements ctx' ++ fixers ++ sequenceFixerStatements (node entry).
Proof.
  induction sortedModels as [|entry rest IH]; simpl; intros Hrun.
  { discriminate. }
  destruct (store !! modelName entry) as [rows|] eqn:Hrows; [|discriminate].
  destruct rows as [|row rows].
  - simpl in Hrun. destruct (IH Hrun) as (before & e & after & rs & c' & H).
    destruct H as (-> & Hbefore & Hrs & Hne & Hloop & ->).
    exists (entry :: before), e, after, rs, c'.
    split; [reflexivity|]. split; [|now repeat split].
    intros e' [<-|Hin]; [exact Hrows|now apply Hbefore].
  - cbn [length Nat.eqb] in Hrun.
    destruct (forEach _ (row :: rows) ctx) as [c'| |] eqn:Hloop;
      simpl in Hrun; try discriminate.
    inversion Hrun; subst out.
    exists [], entry, rest, (row :: rows), c'.
    split; [reflexivity|]. split; [intros ? []|].
    split; [exact Hrows|]. split; [discriminate|]. now split.
Qed.

(** With no row under any model the loop is left at its end. *)
Lemma createStatements_loop_empty (fuel : nat) (ctx : Ctx)
    (fixers : list statement) (sortedModels : list ModelNode) :
  (forall e, In e sortedModels -> store !! modelName e = Some []) ->
  createStatements_loop dataModel store fuel ctx fixers sortedModels = Ok None.
Proof.
  induction sortedModels as [|entry rest IH]; simpl; intros H; [reflexivity|].
  rewrite (H entry) by now left. simpl. apply IH. intros e He. apply H. now right.
Qed.

Lemma createStatements_loop_fuel (fuel extra : nat) (ctx : Ctx)
    (fixers : list statement) (sortedModels : list ModelNode) :
  createStatements_loop dataModel store fuel ctx fixers sortedModels
  <> OutOfFuel ->
  createStatements_loop dataModel store (extra + fuel) ctx fixers sortedModels
  = createStatements_loop dataModel store fuel ctx fixers sortedModels.
Proof.
  induction sortedModels as [|entry rest IH]; simpl; [reflexivity|].
  destruct (store !! modelName entry) as [rows|]; [|reflexivity].
  destruct (Nat.eqb (length rows) 0); [exact IH|].
  intros Hrun.
  rewrite (forEach_mono
             (createStatement dataModel store fuel (modelName entry))
             (createStatement dataModel store (extra + fuel) (modelName entry))).
  - reflexivity.
  - intros r c. apply createStatement_fuel.
  - intros E. apply Hrun. rewrite E. reflexivity.
Qed.

Lemma Traced_fresh : Traced dataModel store (freshCtx dataModel) [].
Proof.
  split; simpl.
  - constructor.
  - intros m l r Hl. rewrite lookup_fmap in Hl.
    destruct (models dataModel !! m); simpl in Hl; [|discriminate].
    inversion Hl; subst. intros [].
  - intros ? ? [].
  - intros i ? ? ? ? ? Hi. rewrite lookup_nil in Hi. discriminate.
Qed.

(** The rows of one model, resolved from a traced context. *)
Lemma rows_traced (fuel : nat) (m : string) (rows todo : list ModelData)
    (c c' : Ctx) (log : list (string * ModelData)) :
  store !! m = Some rows -> (forall r, In r todo -> In r rows) ->
  Traced dataModel store c log ->
  forEach (createStatement dataModel store fuel m) todo c = Ok c' ->
  exists log', Traced dataModel store c' (log ++ log')
               /\ inserted_le c c'
               /\ forall r, In r todo -> isRowInserted dataModel c' m r = true.
Proof.
  intros Hst. revert c log.
  induction todo as [|r todo IH]; intros c log Hsub HT Hrun; simpl in Hrun.
  - inversion Hrun; subst. exists []. rewrite app_nil_r.
    split; [exact HT|]. split; [apply inserted_le_refl|]. intros ? [].
  - destruct (createStatement dataModel store fuel m r c) as [c1| |] eqn:H1;
      simpl in Hrun; try discriminate.
    destruct (createStatement_traced dataModel store fuel m r c c1 log H1 HT)
      as [l1 [HT1 [Hle1 Hin1]]].
    { exists rows. split; [exact Hst|]. apply Hsub. now left. }
    destruct (IH c1 (log ++ l1)) as [l2 [HT2 [Hle2 Hin2]]]; try assumption.
    { intros r' Hr'. apply Hsub. now right. }
    exists (l1 ++ l2). rewrite app_assoc. split; [exact HT2|].
    split; [eapply inserted_le_trans; eassumption|].
    intros r' [<-|Hr'].
    + eapply isRowInserted_le; eassumption.
    + now apply Hin2.
Qed.

Lemma sequenceFixerStatements_not_insert (model : DataModelModel) :
  Forall (fun s => isInsert s = false) (sequenceFixerStatements model).
Proof.
  unfold sequenceFixerStatements. apply Forall_forall. intros s Hs.
  apply list_elem_of_omap in Hs. destruct Hs as [f [_ Hf]].
  unfold sequenceFixerStatement in Hf.
  destruct (jsMapGet _ _); [|discriminate].
  destruct (f_sequence f); [|discriminate].
  destruct (_ && _); [|discriminate]. now inversion Hf.
Qed.
End ModelLoop.

(** ** Decidable hypotheses *)

Lemma soleIdentity_spec (dataModel : DataModel)
    (store : gmap string (list ModelData)) (m : string) (a : ModelData) :
  soleIdentity dataModel store m a = true ->
  forall model rows a',
    models dataModel !! m = Some model -> store !! m = Some rows ->
    In a' rows -> every_eq (rowIdFields model a) a' = true -> a = a'.
Proof.
  unfold soleIdentity. intros H model rows a' Hm Hst Ha' Hid.
  rewrite Hm, Hst in H. rewrite forallb_forall in H. specialize (H a' Ha').
  rewrite Hid in H. simpl in H. now apply bool_decide_eq_true in H.
Qed.

Lemma allEmpty_spec (store : gmap string (list ModelData))
    (sortedModels : list ModelNode) :
  allEmpty store sortedModels = true ->
  forall e, In e sortedModels -> store !! modelName e = Some [].
Proof.
  unfold allEmpty. rewrite forallb_forall. intros H e He.
  specialize (H e He). now apply bool_decide_eq_true in H.
Qed.

(** The loop returns from the turn of the first model that has rows: the
    models sequenced after it play no part in the outcome, and their rows
    are resolved only as parents of the rows of that model. *)
Lemma createStatements_loop_first (dataModel : DataModel)
    (store : gmap string (list ModelData)) (fuel : nat) (ctx : Ctx)
    (fixers : list statement) (sortedModels : list ModelNode)
    (entry : ModelNode) :
  firstWithRows store sortedModels = Some entry ->
  createStatements_loop dataModel store fuel ctx fixers sortedModels
  = createStatements_loop dataModel store fuel ctx fixers [entry].
Proof.
  induction sortedModels as [|e rest IH]; simpl; [discriminate|].
  destruct (store !! modelName e) as [[|row rows]|] eqn:He; [| |discriminate].
  - simpl. exact IH.
  - intros H. inversion H; subst e. now rewrite He.
Qed.

(** ** The whole call *)

Lemma toSQL_fuel (sortModels : DataModel -> list ModelNode) (fuel extra : nat)
    (this : PgStore) :
  toSQL sortModels fuel this <> OutOfFuel ->
  toSQL sortModels (extra + fuel) this = toSQL sortModels fuel this.
Proof. unfold toSQL, createStatements. apply createStatements_loop_fuel. Qed.

(** Settles a goal [toSQL _ (extra + fuel) this = outcome] by running the
    call with the budget [fuel]. *)
Ltac run_toSQL :=
  rewrite toSQL_fuel; [vm_compute; reflexivity|vm_compute; discriminate].

(** A returned batch is the trace of the rows of one model followed by
    that model's sequence fixers. *)
Lemma toSQL_traced (sortModels : DataModel -> list ModelNode) (fuel : nat)
    (this : PgStore) (out : list statement) :
  toSQL sortModels fuel this = Ok (Some out) ->
  exists entry row rows ctx' log,
    firstWithRows (_store this) (sortModels (dataModel this)) = Some entry
    /\ _store this !! modelName entry = Some (row :: rows)
    /\ Traced (dataModel this) (_store this) ctx' log
    /\ (forall r, In r (row :: rows) ->
                  isRowInserted (dataModel this) ctx' (modelName entry) r = true)
    /\ out = statements ctx' ++ sequenceFixerStatements (node entry).
Proof.
  unfold toSQL, createStatements. intros Hrun.
  apply createStatements_loop_returns in Hrun.
  destruct Hrun as (before & entry & after & rows & ctx' & Hrun).
  destruct Hrun as (Hsplit & Hbefore & Hrows & Hne & Hloop & ->).
  destruct rows as [|row rows]; [now contradiction Hne|].
  destruct (rows_traced (dataModel this) (_store this) fuel (modelName entry)
              (row :: rows) (row :: rows) _ ctx' [] Hrows (fun r H => H)
              (Traced_fresh _ _) Hloop) as [log [HT [_ Hins]]].
  exists entry, row, rows, ctx', log.
  split; [|split; [exact Hrows|split; [exact HT|split; [exact Hins|reflexivity]]]].
  rewrite Hsplit. clear -Hbefore Hrows.
  induction before as [|e before IH]; simpl.
  - now rewrite Hrows.
  - rewrite (Hbefore e) by now left. apply IH. intros e' He'. apply Hbefore.
    now right.
Qed.

(** ** Resolutions only add *)

Lemma grows_refl (c : Ctx) : grows c c.
Proof. split; [apply inserted_le_refl|]. exists []. now rewrite app_nil_r. Qed.

Lemma grows_trans (c1 c2 c3 : Ctx) : grows c1 c2 -> grows c2 c3 -> grows c1 c3.
Proof.
  intros [Hi1 [n1 Hs1]] [Hi2 [n2 Hs2]]. split.
  - eapply inserted_le_trans; eassumption.
  - exists (n1 ++ n2). now rewrite Hs2, Hs1, app_assoc.
Qed.

Section Growth.
Variable dataModel : DataModel.
Variable store : gmap string (list ModelData).

Lemma resolveParent_grows
    (rec : string -> ModelData -> Ctx -> result Ctx) (row : ModelData) :
  (forall m r c c', rec m r c = Ok c' -> grows c c') ->
  forall p c c', resolveParent store rec row p c = Ok c' -> grows c c'.
Proof.
  intros Hrec p c c'. unfold resolveParent.
  destruct (allNull _); [intros E; inversion E; apply grows_refl|].
  destruct (store !! o_type p); [|discriminate].
  destruct (List.find _ _); [|intros E; inversion E; apply grows_refl].
  destruct (pending c !! o_type p); [|discriminate].
  destruct (existsb _ _); [discriminate|]. apply Hrec.
Qed.

Lemma parents_grow
    (rec : string -> ModelData -> Ctx -> result Ctx) (row : ModelData) :
  (forall m r c c', rec m r c = Ok c' -> grows c c') ->
  forall ps c c', forEach (resolveParent store rec row) ps c = Ok c' ->
                  grows c c'.
Proof.
  intros Hrec ps c c' Hrun.
  apply (forEach_invariant (resolveParent store rec row) (grows c) ps)
    with (s := c); [|apply grows_refl|exact Hrun].
  intros p s s' _ Hs Hp. eapply grows_trans; [exact Hs|].
  eapply resolveParent_grows; eassumption.
Qed.

(** The shape of a completed resolution: either the row was found in
    [Inserted] and nothing changed, or the statements emitted for its
    parents are followed by its own INSERT, and it is in [Inserted]. *)
Lemma createStatement_body_shape
    (rec : string -> ModelData -> Ctx -> result Ctx) :
  (forall m r c c', rec m r c = Ok c' -> grows c c') ->
  forall m r c c',
    createStatement_body dataModel store rec m r c = Ok c' ->
    (isRowInserted dataModel c m r = true /\ c' = c)
    \/ (isRowInserted dataModel c m r = false
        /\ inserted_le c c'
        /\ isRowInserted dataModel c' m r = true
        /\ exists model parentStatements,
             models dataModel !! m = Some model
             /\ statements c'
                = statements c ++ parentStatements ++ [insertStatement model r]).
Proof.
  intros Hrec m r c c' Hrun. unfold createStatement_body in Hrun.
  unfold isRowInserted.
  destruct (models dataModel !! m) as [model|] eqn:Hm; [|discriminate].
  destruct (inserted c !! m) as [ins|] eqn:Hins; [|discriminate].
  destruct (existsb (every_eq (rowIdFields model r)) ins) eqn:Hex.
  { left. inversion Hrun. now split. }
  right. split; [reflexivity|].
  destruct (pending c !! m) as [pend|]; [|discriminate].
  match type of Hrun with
  | bind (forEach _ _ ?c1) _ = _ => set (ctx1 := c1) in *
  end.
  destruct (forEach _ _ ctx1) as [c2| |] eqn:Hloop; simpl in Hrun;
    try discriminate.
  destruct (pending c2 !! m) as [pend2|]; [|discriminate].
  destruct (inserted c2 !! m) as [ins2|] eqn:Hins2; [|discriminate].
  inversion Hrun; subst c'; clear Hrun. cbn [inserted statements].
  destruct (parents_grow rec r Hrec _ _ _ Hloop) as [Hle [new Hnew]].
  split; [|split].
  - now apply inserted_le_push.
  - rewrite lookup_insert_eq, existsb_app. simpl.
    now rewrite every_eq_self, orb_true_r.
  - exists model, new. split; [reflexivity|].
    rewrite Hnew. simpl. now rewrite app_assoc.
Qed.

Lemma createStatement_grows (fuel : nat) :
  forall m r c c',
    createStatement dataModel store fuel m r c = Ok c' -> grows c c'.
Proof.
  induction fuel as [|fuel IH]; intros m r c c' Hrun; [discriminate|].
  simpl in Hrun.
  destruct (createStatement_body_shape _ IH m r c c' Hrun)
    as [[_ ->]|(_ & Hle & _ & model & ps & _ & Hs)].
  - apply grows_refl.
  - split; [exact Hle|]. now exists (ps ++ [insertStatement model r]).
Qed.
End Growth.

(** ** References without cycle *)

Lemma ranked_spec (dataModel : DataModel)
    (store : gmap string (list ModelData))
    (rank : string -> ModelData -> nat) :
  ranked dataModel store rank = true ->
  forall m model rows r p a,
    models dataModel !! m = Some model -> store !! m = Some rows ->
    In r rows -> In p (snd (groupFields (fields model))) ->
    parentRow store p r = Some a -> rank (o_type p) a < rank m r.
Proof.
  unfold ranked. intros H m model rows r p a Hm Hst Hr Hp Ha.
  rewrite forallb_forall in H.
  assert (Hin : In (m, rows) (map_to_list store)).
  { apply list_elem_of_In. now apply elem_of_map_to_list. }
  specialize (H _ Hin). simpl in H. rewrite Hm in H.
  rewrite forallb_forall in H. specialize (H r Hr).
  rewrite forallb_forall in H. specialize (H p Hp).
  rewrite Ha in H. now apply Nat.ltb_lt in H.
Qed.

Lemma pushed_refl (bound : string -> ModelData -> Prop) (c : Ctx) :
  pushed bound c c.
Proof.
  intros m l H. exists []. rewrite app_nil_r. split; [exact H|intros ? []].
Qed.

Lemma pushed_trans (bound : string -> ModelData -> Prop) (c1 c2 c3 : Ctx) :
  pushed bound c1 c2 -> pushed bound c2 c3 -> pushed bound c1 c3.
Proof.
  intros H12 H23 m l H. destruct (H12 m l H) as [l1 [H1 B1]].
  destruct (H23 m _ H1) as [l2 [H2 B2]]. exists (l1 ++ l2).
  rewrite app_assoc. split; [exact H2|].
  intros x Hx. apply in_app_or in Hx. destruct Hx; auto.
Qed.

Lemma pushed_weaken (bound bound' : string -> ModelData -> Prop) (c c' : Ctx) :
  (forall m x, bound m x -> bound' m x) -> pushed bound c c' ->
  pushed bound' c c'.
Proof.
  intros Hb H m l Hl. destruct (H m l Hl) as [l' [Hl' B]].
  exists l'. split; [exact Hl'|]. intros x Hx. apply Hb. now apply B.
Qed.

Section Ranked.
Variable dataModel : DataModel.
Variable store : gmap string (list ModelData).
Variable rank : string -> ModelData -> nat.
Hypothesis Hranked : ranked dataModel store rank = true.

(** The rows a loop over the parents of [row] pushes rank below [row]. *)
Lemma parents_ranked
    (rec : string -> ModelData -> Ctx -> result Ctx) (m : string)
    (model : DataModelModel) (rows : list ModelData) (row : ModelData) :
  (forall m' r c c' rows',
      store !! m' = Some rows' -> In r rows' -> rec m' r c = Ok c' ->
      pushed (fun m0 x => rank m0 x <= rank m' r) c c') ->
  models dataModel !! m = Some model -> store !! m = Some rows ->
  In row rows ->
  forall ps c c',
    (forall p, In p ps -> In p (snd (groupFields (fields model)))) ->
    forEach (resolveParent store rec row) ps c = Ok c' ->
    pushed (fun m0 x => rank m0 x < rank m row) c c'.
Proof.
  intros Hrec Hm Hst Hrow ps.
  induction ps as [|p ps IH]; intros c c' Hsub Hrun; simpl in Hrun.
  - inversion Hrun. apply pushed_refl.
  - destruct (resolveParent store rec row p c) as [c1| |] eqn:Hp;
      simpl in Hrun; try discriminate.
    eapply pushed_trans; [|apply (IH c1 c'); [|exact Hrun]].
    2:{ intros q Hq. apply Hsub. now right. }
    clear IH Hrun.
    assert (Hpar := fun a => ranked_spec _ _ _ Hranked m model rows row p a
                               Hm Hst Hrow (Hsub p (or_introl eq_refl))).
    unfold parentRow in Hpar. unfold resolveParent in Hp.
    destruct (allNull _); [inversion Hp; apply pushed_refl|].
    destruct (store !! o_type p) as [prows|] eqn:Hprows; [|discriminate].
    destruct (List.find _ prows) as [a|] eqn:Hfind;
      [|inversion Hp; apply pushed_refl].
    destruct (pending c !! o_type p); [|discriminate].
    destruct (existsb _ _); [discriminate|].
    specialize (Hpar a eq_refl). apply find_some in Hfind.
    eapply pushed_weaken; [|eapply Hrec; [exact Hprows|apply Hfind|exact Hp]].
    simpl. intros m0 x Hx. lia.
Qed.

(** The rows a resolution of [r] pushes rank at most as [r]; before it
    pushes [r] itself, all rank below it. *)
Lemma createStatement_ranked (fuel : nat) :
  forall m r c c' rows,
    store !! m = Some rows -> In r rows ->
    createStatement dataModel store fuel m r c = Ok c' ->
    pushed (fun m0 x => rank m0 x <= rank m r) c c'
    /\ (isRowInserted dataModel c m r = false ->
        exists ins mid,
          inserted c !! m = Some ins
          /\ inserted c' !! m = Some (ins ++ mid ++ [r])
          /\ forall x, In x mid -> rank m x < rank m r).
Proof.
  induction fuel as [|fuel IH]; intros m r c c' rows Hst Hr Hrun;
    [discriminate|].
  simpl in Hrun. unfold createStatement_body in Hrun. unfold isRowInserted.
  destruct (models dataModel !! m) as [model|] eqn:Hm; [|discriminate].
  destruct (inserted c !! m) as [ins|] eqn:Hins; [|discriminate].
  destruct (existsb (every_eq (rowIdFields model r)) ins) eqn:Hex.
  { inversion Hrun. split; [apply pushed_refl|discriminate]. }
  destruct (pending c !! m) as [pend|]; [|discriminate].
  match type of Hrun with
  | bind (forEach _ _ ?c1) _ = _ => set (ctx1 := c1) in *
  end.
  destruct (forEach _ _ ctx1) as [c2| |] eqn:Hloop; simpl in Hrun;
    try discriminate.
  destruct (pending c2 !! m) as [pend2|]; [|discriminate].
  destruct (inserted c2 !! m) as [ins2|] eqn:Hins2; [|discriminate].
  inversion Hrun; subst c'; clear Hrun.
  assert (Hloop' : pushed (fun m0 x => rank m0 x < rank m r) ctx1 c2).
  { eapply (parents_ranked (createStatement dataModel store fuel) m model rows r);
      try eassumption; [|auto].
    intros m' r' c0 c0' rows' Hst' Hr' Hrun'.
    exact (proj1 (IH m' r' c0 c0' rows' Hst' Hr' Hrun')). }
  destruct (Hloop' m ins Hins) as [mid [Hmid Bmid]].
  rewrite Hins2 in Hmid. inversion Hmid; subst ins2.
  split.
  - intros m0 l Hl. destruct (Hloop' m0 l Hl) as [l' [Hl' B]]. cbn [inserted].
    destruct (decide (m = m0)) as [->|Hne].
    + rewrite lookup_insert_eq. rewrite Hins2 in Hl'. inversion Hl' as [E].
      exists (l' ++ [r]). rewrite E, app_assoc. split; [reflexivity|].
      intros x Hx. apply in_app_or in Hx. destruct Hx as [Hx|[<-|[]]].
      * apply B in Hx. lia.
      * lia.
    + rewrite lookup_insert_ne by exact Hne. exists l'. split; [exact Hl'|].
      intros x Hx. apply B in Hx. lia.
  - intros _. exists ins, mid. split; [reflexivity|]. cbn [inserted].
    rewrite lookup_insert_eq, app_assoc. now split.
Qed.
End Ranked.

(** * The claims *)

(** X13.  Parents before children, where identities are unique.  A batch
    returned by [toSQL] is a list of INSERTs followed by the sequence
    fixes, and there
    is a log naming, for each INSERT in turn, the row it inserts (a row of
    the store), such that: whenever a relation of a logged row resolves to
    a parent row of the store, and no other row of the parent's model
    carries the parent's identity tuple, the parent is logged strictly
    before the child.  The INSERT of the parent stands strictly before the
    INSERT of the child. *)
Theorem dependency_ordering (sortModels : DataModel -> list ModelNode)
    (fuel : nat) (this : PgStore) (out : list statement) :
  toSQL sortModels fuel this = Ok (Some out) ->
  exists log inserts fixers,
    out = inserts ++ fixers
    /\ Forall2 (isInsertOf (dataModel this)) log inserts
    /\ Forall (fun s => isInsert s = false) fixers
    /\ (forall m r, In (m, r) log ->
                    exists rows, _store this !! m = Some rows /\ In r rows)
    /\ forall i child childRow model relation parent,
         log !! i = Some (child, childRow) ->
         models (dataModel this) !! child = Some model ->
         In relation (snd (groupFields (fields model))) ->
         parentRow (_store this) relation childRow = Some parent ->
         soleIdentity (dataModel this) (_store this) (o_type relation) parent
         = true ->
         exists j, j < i /\ log !! j = Some (o_type relation, parent).
Proof.
  intros Hrun.
  destruct (toSQL_traced _ _ _ _ Hrun)
    as (entry & row & rows & ctx' & log & _ & _ & HT & _ & ->).
  exists log, (statements ctx'), (sequenceFixerStatements (node entry)).
  split; [reflexivity|]. destruct HT as [T1 T2 T3 T4].
  split; [exact T1|]. split; [apply sequenceFixerStatements_not_insert|].
  split; [exact T3|].
  intros i child childRow model relation parent Hi Hm Hrel Hparent Hsole.
  destruct (T4 i child childRow model relation parent Hi Hm Hrel Hparent)
    as (j & a' & Hj & Hlj & pm & Hpm & Hid).
  exists j. split; [exact Hj|].
  assert (Hin : In (o_type relation, a') log).
  { apply list_elem_of_In, list_elem_of_lookup. now exists j. }
  destruct (T3 _ _ Hin) as (prows & Hprows & Ha').
  now rewrite (soleIdentity_spec _ _ _ _ Hsole pm prows a' Hpm Hprows Ha' Hid).
Qed.

Lemma dependency_ordering_witness :
  exists log inserts fixers,
    [ insertStatement (Samples.customer true) Samples.founder;
      insertStatement (Samples.customer true) Samples.john;
      SelectSetval "public.customer_id_seq" "id" "public" "customer" ]
    = inserts ++ fixers
    /\ Forall2 (isInsertOf (dataModel Samples.referralChain)) log inserts
    /\ Forall (fun s => isInsert s = false) fixers
    /\ (forall m r, In (m, r) log ->
                    exists rows, _store Samples.referralChain !! m = Some rows
                                 /\ In r rows)
    /\ forall i child childRow model relation parent,
         log !! i = Some (child, childRow) ->
         models (dataModel Samples.referralChain) !! child = Some model ->
         In relation (snd (groupFields (fields model))) ->
         parentRow (_store Samples.referralChain) relation childRow
         = Some parent ->
         soleIdentity (dataModel Samples.referralChain)
           (_store Samples.referralChain) (o_type relation) parent = true ->
         exists j, j < i /\ log !! j = Some (o_type relation, parent).
Proof.
  apply (dependency_ordering (sequenceOf ["customer"]) 2 Samples.referralChain).
  vm_compute. reflexivity.
Defined.

(** C5 (dependency ordering) fails on the code.  In [line] the relation
    [step_prev] of the row [middle] resolves to the row [before] of the
    store.  The model has no id field, so the guard "check if the row has
    already been inserted" compares an empty identity tuple and takes
    [before] for inserted as soon as [after], the parent resolved first,
    is: [toSQL] returns a batch that holds the INSERT of the child
    [middle] and no INSERT of its parent [before], neither before the
    child's INSERT nor after it. *)
Lemma parent_with_shared_identity_not_inserted :
  parentRow (_store Samples.line)
    {| o_name := "step_prev"; o_type := "step";
       relationFromFields := ["prev"]; relationToFields := ["label"];
       nullable := true |}
    Samples.middle = Some Samples.before
  /\ forall extra,
       exists out,
         toSQL (sequenceOf ["step"]) (extra + 2) Samples.line = Ok (Some out)
         /\ In (insertStatement Samples.step Samples.middle) out
         /\ ~ In (insertStatement Samples.step Samples.before) out.
Proof.
  split; [vm_compute; reflexivity|]. intros extra.
  exists [ insertStatement Samples.step Samples.after;
           insertStatement Samples.step Samples.middle ].
  split; [|split].
  - run_toSQL.
  - right. now left.
  - vm_compute. intros [H|[H|[]]]; discriminate.
Qed.

(** X14.  Resolving a row again.  A completed resolution of a row either
    found the row in [Inserted] and changed nothing, or emitted, after the
    statements of its parents, the INSERT of the row; when the references
    between the rows of the store form no cycle, the rows it pushed on
    [Inserted] before the row itself are other rows: the row is pushed on
    [Inserted] exactly once.  From then on, in every context whose [Inserted] has only
    grown, resolving the row again returns at once: no statement is
    emitted and the context is unchanged. *)
Theorem idempotent_visitation (dataModel : DataModel)
    (store : gmap string (list ModelData)) (fuel : nat) (m : string)
    (r : ModelData) (c c1 : Ctx) :
  createStatement dataModel store fuel m r c = Ok c1 ->
  ((isRowInserted dataModel c m r = true /\ c1 = c)
   \/ (isRowInserted dataModel c m r = false
       /\ (exists model parentStatements,
              models dataModel !! m = Some model
              /\ statements c1
                 = statements c ++ parentStatements
                   ++ [insertStatement model r])
       /\ forall rank rows,
            ranked dataModel store rank = true ->
            store !! m = Some rows -> In r rows ->
            exists ins mid,
              inserted c !! m = Some ins
              /\ inserted c1 !! m = Some (ins ++ mid ++ [r])
              /\ ~ In r mid))
  /\ forall c2 fuel',
       inserted_le c1 c2 ->
       createStatement dataModel store (S fuel') m r c2 = Ok c2.
Proof.
  intros Hrun. pose proof Hrun as Hrun'.
  destruct fuel as [|fuel]; [discriminate|]. simpl in Hrun.
  destruct (createStatement_body_shape dataModel store _
              (createStatement_grows dataModel store fuel) m r c c1 Hrun)
    as [[Hin ->]|(Hout & _ & Hin & Hshape)].
  - split; [left; now split|]. intros c2 fuel' Hle.
    apply createStatement_inserted. eapply isRowInserted_le; eassumption.
  - split.
    + right. split; [exact Hout|]. split; [exact Hshape|].
      intros rank rows Hranked Hst Hr.
      destruct (createStatement_ranked dataModel store rank Hranked _ _ _ _ _
                  rows Hst Hr Hrun') as [_ Hmid].
      destruct (Hmid Hout) as (ins & mid & Hins & Hins1 & Hlt).
      exists ins, mid. split; [exact Hins|]. split; [exact Hins1|].
      intros Hx. apply Hlt in Hx. lia.
    + intros c2 fuel' Hle.
      apply createStatement_inserted. eapply isRowInserted_le; eassumption.
Qed.

Lemma idempotent_visitation_witness :
  createStatement (dataModel Samples.referralChain)
    (_store Samples.referralChain) 2 "customer" Samples.john
    (freshCtx (dataModel Samples.referralChain)) = Ok Samples.afterJohn
  /\ (exists ins mid,
        inserted (freshCtx (dataModel Samples.referralChain)) !! "customer"
        = Some ins
        /\ inserted Samples.afterJohn !! "customer"
           = Some (ins ++ mid ++ [Samples.john])
        /\ ~ In Samples.john mid)
  /\ createStatement (dataModel Samples.referralChain)
       (_store Samples.referralChain) 1 "customer" Samples.john
       Samples.afterJohn = Ok Samples.afterJohn.
Proof.
  assert (H : createStatement (dataModel Samples.referralChain)
                (_store Samples.referralChain) 2 "customer" Samples.john
                (freshCtx (dataModel Samples.referralChain))
              = Ok Samples.afterJohn) by (vm_compute; reflexivity).
  split; [exact H|].
  destruct (idempotent_visitation _ _ _ _ _ _ _ H)
    as [[[Hin _]|(_ & _ & Hrank)] Hagain].
  - vm_compute in Hin. discriminate.
  - split; [|apply Hagain, inserted_le_refl].
    apply (Hrank Samples.seniority [Samples.john; Samples.founder]).
    + vm_compute. reflexivity.
    + vm_compute. reflexivity.
    + now left.
Defined.

(** C9 (nothing to insert).  When the list of rows of every model is empty,
    [toSQL] returns [undefined], not an empty list of statements: the loop
    over the models is left at its end, past the only [return]. *)
Theorem no_rows_returns_undefined (sortModels : DataModel -> list ModelNode)
    (fuel : nat) (this : PgStore) :
  allEmpty (_store this) (sortModels (dataModel this)) = true ->
  toSQL sortModels fuel this = Ok None.
Proof.
  intros H. unfold toSQL, createStatements.
  apply createStatements_loop_empty. now apply allEmpty_spec.
Qed.

Lemma no_rows_returns_undefined_witness :
  toSQL (sequenceOf ["test_customer"; "test_order"]) 0 Samples.emptyShop
  = Ok None.
Proof.
  apply no_rows_returns_undefined. vm_compute. reflexivity.
Defined.

(** ** Models without id fields *)

Lemma isRowInserted_nonempty (dataModel : DataModel) (c : Ctx) (m : string)
    (r : ModelData) :
  isRowInserted dataModel c m r = true ->
  exists first ins, inserted c !! m = Some (first :: ins).
Proof.
  unfold isRowInserted.
  destruct (models dataModel !! m); [|discriminate].
  destruct (inserted c !! m) as [[|first ins]|]; try discriminate.
  intros _. now exists first, ins.
Qed.

(** C10, as the code has it.  In a model without id fields the identity
    tuple of every row is empty.  Once a row of the model is in
    [Inserted], resolving any row of the model emits nothing and changes
    nothing; in particular the loop over the rows of such a model emits
    nothing beyond what the resolution of its first row emits.  (Rows of
    the model resolved while [Inserted] is still empty, through the
    parents of a row being resolved, each get their INSERT.) *)
Theorem no_id_rows_skipped_once_inserted (dataModel : DataModel)
    (store : gmap string (list ModelData)) (fuel : nat) (m : string)
    (model : DataModelModel) :
  models dataModel !! m = Some model ->
  List.filter f_isId (fields model) = [] ->
  (forall c r first ins,
      inserted c !! m = Some (first :: ins) ->
      createStatement dataModel store (S fuel) m r c = Ok c)
  /\ (forall c c' r rest,
        createStatement dataModel store (S fuel) m r c = Ok c' ->
        forEach (createStatement dataModel store (S fuel) m) (r :: rest) c
        = Ok c').
Proof.
  intros Hm Hids.
  assert (Hskip : forall c r first ins,
             inserted c !! m = Some (first :: ins) ->
             createStatement dataModel store (S fuel) m r c = Ok c).
  { intros c r first ins Hins. apply createStatement_inserted.
    unfold isRowInserted, rowIdFields. now rewrite Hm, Hins, Hids. }
  split; [exact Hskip|].
  intros c c' r rest Hrun.
  assert (Hne : exists first ins, inserted c' !! m = Some (first :: ins)).
  { pose proof Hrun as Hrun'. simpl in Hrun'.
    destruct (createStatement_body_shape dataModel store _
                (createStatement_grows dataModel store fuel) m r c c' Hrun')
      as [[Hin ->]|(_ & _ & Hin & _)];
      eapply isRowInserted_nonempty; exact Hin. }
  destruct Hne as (first & ins & Hins).
  cbn [forEach]. rewrite Hrun. cbn [bind].
  induction rest as [|r' rest IH]; [reflexivity|].
  cbn [forEach]. rewrite (Hskip c' r' first ins Hins). exact IH.
Qed.

Lemma no_id_rows_skipped_once_inserted_witness :
  createStatement (dataModel Samples.steps) (_store Samples.steps) 1 "step"
    Samples.first Samples.afterLast = Ok Samples.afterLast.
Proof.
  refine (proj1 (no_id_rows_skipped_once_inserted (dataModel Samples.steps)
                   (_store Samples.steps) 0 "step" Samples.step _ _)
            Samples.afterLast Samples.first Samples.last [] _);
    vm_compute; reflexivity.
Defined.

(** C10, as stated, fails: the model [step] has no id field, and the two
    rows of [steps] both get an INSERT, the second row being resolved as
    the parent of the first while [Inserted] is still empty. *)
Lemma two_inserts_without_id :
  List.filter f_isId (fields Samples.step) = []
  /\ forall extra,
       toSQL (sequenceOf ["step"]) (extra + 2) Samples.steps
       = Ok (Some [ insertStatement Samples.step Samples.last;
                    insertStatement Samples.step Samples.first ]).
Proof.
  split; [reflexivity|]. intros extra.
  run_toSQL.
Qed.

(** ** The maps of fields and columns *)

Lemma jsMapSet_fresh {V : Type} (k : string) (v : V) (m : list (string * V)) :
  ~ In k (map fst m) -> jsMapSet k v m = m ++ [(k, v)].
Proof.
  intros Hk. unfold jsMapSet.
  destruct (existsb (fun kv => String.eqb (fst kv) k) m) eqn:E; [|reflexivity].
  exfalso. apply Hk. apply existsb_exists in E. destruct E as [kv [Hin Heq]].
  apply String.eqb_eq in Heq. subst k. now apply in_map.
Qed.

Lemma jsMapOf_distinct {V : Type} (l : list (string * V)) :
  List.NoDup (map fst l) -> jsMapOf l = l.
Proof.
  unfold jsMapOf.
  assert (G : forall acc, List.NoDup (map fst (acc ++ l)) ->
                fold_left (fun m kv => jsMapSet (fst kv) (snd kv) m) l acc
                = acc ++ l).
  { induction l as [|[k v] l IH]; intros acc Hnd; simpl.
    - now rewrite app_nil_r.
    - rewrite jsMapSet_fresh.
      + rewrite IH; rewrite <- app_assoc; [reflexivity|exact Hnd].
      + rewrite map_app in Hnd. simpl in Hnd.
        apply NoDup_remove_2 in Hnd. intros Hin. apply Hnd.
        apply in_or_app. now left. }
  intros Hnd. exact (G [] Hnd).
Qed.

Lemma jsMapGet_distinct {V : Type} (l : list (string * V)) (k : string) (v : V) :
  List.NoDup (map fst l) -> In (k, v) l -> jsMapGet k l = Some v.
Proof.
  unfold jsMapGet. induction l as [|[k0 v0] l IH]; intros Hnd Hin; [destruct Hin|].
  simpl in *. inversion Hnd as [|? ? Hk0 Hnd']; subst.
  destruct (String.eqb k0 k) eqn:E.
  - apply String.eqb_eq in E. subst k0. destruct Hin as [Heq|Hin].
    + now inversion Heq.
    + exfalso. apply Hk0. change k with (fst (k, v)). now apply in_map.
  - destruct Hin as [Heq|Hin].
    + inversion Heq; subst. now rewrite String.eqb_refl in E.
    + now apply IH.
Qed.

Lemma jsMapGet_absent {V : Type} (l : list (string * V)) (k : string) :
  ~ In k (map fst l) -> jsMapGet k l = None.
Proof.
  unfold jsMapGet. induction l as [|[k0 v0] l IH]; intros Hk; [reflexivity|].
  simpl in *. destruct (String.eqb k0 k) eqn:E.
  - apply String.eqb_eq in E. exfalso. apply Hk. now left.
  - apply IH. intros Hin. apply Hk. now right.
Qed.

Lemma insertable_In (fs : list DataModelField) (s : DataModelScalarField) :
  In s (omap insertable fs) <->
  In (Scalar s) fs /\ negb (isGenerated s && negb (isId s)) = true.
Proof.
  rewrite <- !list_elem_of_In, list_elem_of_omap. split.
  - intros [f [Hf Hs]]. destruct f as [s0|o]; simpl in Hs; [|discriminate].
    destruct (negb (isGenerated s0 && negb (isId s0))) eqn:E; [|discriminate].
    inversion Hs; subst s0. now split.
  - intros [Hf E]. exists (Scalar s). split; [exact Hf|]. simpl. now rewrite E.
Qed.

Lemma insertable_names (fs : list DataModelField) :
  List.NoDup (map f_name fs) ->
  List.NoDup (map s_name (omap insertable fs))
  /\ forall n, In n (map s_name (omap insertable fs)) -> In n (map f_name fs).
Proof.
  induction fs as [|f fs IH]; intros Hnd; simpl.
  - split; [constructor|intros ? []].
  - inversion Hnd as [|? ? Hf Hnd']; subst. destruct (IH Hnd') as [IH1 IH2].
    destruct f as [s|o]; simpl.
    + destruct (negb (isGenerated s && negb (isId s))); simpl.
      * split.
        -- constructor; [|exact IH1]. intros Hin. apply Hf. now apply IH2.
        -- intros n [<-|Hn]; [now left|right; now apply IH2].
      * split; [exact IH1|]. intros n Hn. right. now apply IH2.
    + split; [exact IH1|]. intros n Hn. right. now apply IH2.
Qed.

Lemma distinct_names_inj (fs : list DataModelField) (f g : DataModelField) :
  List.NoDup (map f_name fs) -> In f fs -> In g fs -> f_name f = f_name g ->
  f = g.
Proof.
  induction fs as [|h fs IH]; intros Hnd Hf Hg E; [destruct Hf|].
  simpl in Hnd. inversion Hnd as [|? ? Hh Hnd']; subst.
  destruct Hf as [->|Hf], Hg as [->|Hg]; try reflexivity.
  - exfalso. apply Hh. rewrite E. now apply in_map.
  - exfalso. apply Hh. rewrite <- E. now apply in_map.
  - now apply IH.
Qed.

Lemma fieldToColumnMap_distinct (model : DataModelModel) :
  distinctFieldNames model = true ->
  fieldToColumnMap model
  = map (fun s => (s_name s, columnName s)) (omap insertable (fields model))
  /\ List.NoDup (map s_name (omap insertable (fields model))).
Proof.
  unfold distinctFieldNames. intros H. apply bool_decide_eq_true in H.
  apply NoDup_ListNoDup in H.
  destruct (insertable_names _ H) as [Hnd _]. split; [|exact Hnd].
  unfold fieldToColumnMap, fieldMap.
  rewrite (jsMapOf_distinct (map (fun s => (s_name s, s)) _)).
  - rewrite map_map. simpl. apply jsMapOf_distinct.
    rewrite map_map. simpl. exact Hnd.
  - rewrite map_map. simpl. exact Hnd.
Qed.

(** With distinct field names the column found for a sequence field is the
    field's own: the statement pushed is the one the field calls for. *)
Lemma sequenceFixerStatement_bound (model : DataModelModel)
    (f : DataModelField) :
  distinctFieldNames model = true -> In f (fields model) ->
  sequenceFixerStatement model f = boundSequenceFix model f.
Proof.
  intros Hd Hf. destruct (fieldToColumnMap_distinct model Hd) as [Hmap Hnd].
  unfold sequenceFixerStatement, boundSequenceFix. rewrite Hmap.
  destruct f as [s|o]; simpl.
  2:{ now destruct (jsMapGet _ _). }
  destruct (sequence s) as [seq|]; [|now destruct (jsMapGet _ _)].
  destruct (negb (isGenerated s && negb (isId s))) eqn:E.
  - rewrite (jsMapGet_distinct _ (s_name s) (columnName s)).
    + reflexivity.
    + rewrite map_map. simpl. exact Hnd.
    + apply (in_map (fun s0 => (s_name s0, columnName s0))).
      apply insertable_In. now split.
  - rewrite jsMapGet_absent; [reflexivity|].
    rewrite map_map. simpl. intros Hin. apply in_map_iff in Hin.
    destruct Hin as [s' [Hname Hs']]. apply insertable_In in Hs'.
    destruct Hs' as [Hs' E'].
    unfold distinctFieldNames in Hd. apply bool_decide_eq_true in Hd.
    apply NoDup_ListNoDup in Hd.
    assert (Heq : Scalar s' = Scalar s)
      by (eapply distinct_names_inj; eassumption).
    inversion Heq; subst s'. rewrite E in E'. discriminate.
Qed.

Lemma sequenceFixerStatements_bound (model : DataModelModel) :
  distinctFieldNames model = true ->
  sequenceFixerStatements model
  = omap (boundSequenceFix model) (fields model).
Proof.
  intros Hd. unfold sequenceFixerStatements, sequenceFields.
  assert (G : forall fs, (forall f, In f fs -> In f (fields model)) ->
                omap (sequenceFixerStatement model)
                  (List.filter (fun f => bool_decide (is_Some (f_sequence f))) fs)
                = omap (boundSequenceFix model) fs).
  { induction fs as [|f fs IH]; intros Hsub; [reflexivity|].
    assert (IH' := IH (fun g Hg => Hsub g (or_intror Hg))).
    cbn [List.filter]. destruct (bool_decide (is_Some (f_sequence f))) eqn:E.
    - change (omap ?g (f :: ?l))
        with (match g f with Some y => y :: omap g l | None => omap g l end).
      rewrite IH', sequenceFixerStatement_bound;
        [reflexivity|exact Hd|apply Hsub; now left].
    - rewrite IH'.
      change (omap ?g (f :: ?l))
        with (match g f with Some y => y :: omap g l | None => omap g l end).
      apply bool_decide_eq_false in E.
      destruct f as [s|o]; simpl; [|reflexivity].
      destruct (sequence s) eqn:Es; [|reflexivity].
      exfalso. apply E. simpl. rewrite Es. now eexists. }
  apply G. auto.
Qed.

Lemma Traced_inserts (dataModel : DataModel)
    (store : gmap string (list ModelData)) (c : Ctx)
    (log : list (string * ModelData)) :
  Traced dataModel store c log ->
  Forall (fun s => isInsert s = true) (statements c).
Proof.
  intros [T1 _ _ _]. induction T1 as [|e s log stmts He _ IH]; constructor.
  - destruct He as [model [_ ->]]. reflexivity.
  - exact IH.
Qed.

(** C7, as the code has it.  Let [entry] be the first model of the
    sequence that has rows, with pairwise distinct field names.  The batch
    [toSQL] returns is a list of INSERTs followed by the sequence fixes of
    that model: one for each of its scalar fields, in declaration order,
    that is bound to a sequence and written by the INSERTs (not generated,
    or an id), the names involved being non-empty; each sets the named
    sequence to the maximum of the field's own column over the table.  A
    field that is generated and not an id gets no sequence fix. *)
Theorem sequence_fixes_of_first_model
    (sortModels : DataModel -> list ModelNode) (fuel : nat) (this : PgStore)
    (entry : ModelNode) (out : list statement) :
  firstWithRows (_store this) (sortModels (dataModel this)) = Some entry ->
  distinctFieldNames (node entry) = true ->
  toSQL sortModels fuel this = Ok (Some out) ->
  exists inserts,
    out = inserts ++ omap (boundSequenceFix (node entry)) (fields (node entry))
    /\ Forall (fun s => isInsert s = true) inserts.
Proof.
  intros Hfirst Hd Hrun.
  destruct (toSQL_traced _ _ _ _ Hrun)
    as (entry' & row & rows & ctx' & log & Hfirst' & _ & HT & _ & ->).
  rewrite Hfirst in Hfirst'. inversion Hfirst'; subst entry'.
  exists (statements ctx'). split.
  - now rewrite sequenceFixerStatements_bound.
  - eapply Traced_inserts. exact HT.
Qed.

Lemma sequence_fixes_of_first_model_witness :
  exists inserts,
    [ insertStatement Samples.test_customer Samples.johnDoe;
      insertStatement Samples.test_customer Samples.janeDoe;
      SelectSetval "public.test_customer_id_seq" "id" "public" "test_customer" ]
    = inserts ++ omap (boundSequenceFix Samples.test_customer)
                   (fields Samples.test_customer)
    /\ Forall (fun s => isInsert s = true) inserts.
Proof.
  apply (sequence_fixes_of_first_model
           (sequenceOf ["test_customer"; "test_order"]) 1 Samples.shop
           {| modelName := "test_customer"; node := Samples.test_customer |});
    vm_compute; reflexivity.
Defined.

(** C7, as stated, fails: the field [serial_no] of [ticket] is a scalar
    field bound to a sequence and its model has a row, yet the batch holds
    no statement for that sequence. *)
Lemma generated_sequence_field_not_fixed :
  In (Samples.scalarField "serial_no" "int4" false true false
        (Some {| identifier := "public.ticket_serial_no_seq" |}))
     (fields Samples.ticket)
  /\ forall extra,
       exists out,
         toSQL (sequenceOf ["ticket"]) (extra + 1) Samples.tickets
         = Ok (Some out)
         /\ forall col sch tbl,
              ~ In (SelectSetval "public.ticket_serial_no_seq" col sch tbl) out.
Proof.
  split; [right; now left|]. intros extra.
  exists [ insertStatement Samples.ticket (Samples.row [("id", JNumber 7)]);
           SelectSetval "public.ticket_id_seq" "id" "public" "ticket" ].
  split.
  - run_toSQL.
  - intros col sch tbl [H|[H|[]]]; discriminate.
Qed.

(** ** Where the code departs from the specification *)

(** C1.  The two customers of the test "should handle auto circular
    references" refer to each other through the nullable [referrer_id].
    [toSQL] does not return two INSERTs with the reference nulled and two
    patch UPDATEs: resolving [john] resolves [jane], whose parent [john] is
    pending, and the call throws. *)
Theorem nullable_self_cycle_throws (extra : nat) :
  nullable <$> snd (groupFields (fields (Samples.customer true))) = [true]
  /\ toSQL (sequenceOf ["customer"]) (extra + 2) (Samples.referrals true)
     = Throw (CircularDependency "customer" Samples.john).
Proof.
  split; [reflexivity|].
  run_toSQL.
Qed.

(** C3.  The circular-dependency error does not depend on the nullability
    of the relation that closes the loop: whether [referrer_id] may hold
    null or not, the two customers that refer to each other make [toSQL]
    throw the same error, naming the model and the row found pending. *)
Theorem circular_error_ignores_nullability (referrerNullable : bool)
    (extra : nat) :
  toSQL (sequenceOf ["customer"]) (extra + 2) (Samples.referrals referrerNullable)
  = Throw (CircularDependency "customer" Samples.john).
Proof.
  rewrite toSQL_fuel; destruct referrerNullable;
    (vm_compute; reflexivity) || (vm_compute; discriminate).
Qed.

(** C2.  With the customers sequenced before the orders that reference
    them, [toSQL] returns from the turn of the customers: the batch holds
    the INSERTs of the two customers and the sequence fix of their table,
    and no INSERT for either order. *)
Theorem later_models_not_visited (extra : nat) :
  toSQL (sequenceOf ["test_customer"; "test_order"]) (extra + 1) Samples.shop
  = Ok (Some [ insertStatement Samples.test_customer Samples.johnDoe;
               insertStatement Samples.test_customer Samples.janeDoe;
               SelectSetval "public.test_customer_id_seq" "id" "public"
                 "test_customer" ])
  /\ _store Samples.shop !! "test_order" = Some [Samples.widget; Samples.gadget].
Proof.
  split; [|vm_compute; reflexivity].
  run_toSQL.
Qed.

(** C4.  The first row of the test "should insert into columns with
    default value set" is added without [id] and without [name], both of
    which have a default.  Its INSERT hands the absent values to the codec
    like any other value: no column is rendered as the DEFAULT marker. *)
Theorem absent_default_not_marked (extra : nat) :
  toSQL (sequenceOf ["test_customer"]) (extra + 1) Samples.defaults
  = Ok (Some [ InsertInto false "public" "test_customer"
                 ["id"; "name"; "email"]
                 [ ("int4", None); ("text", None);
                   ("text", Some (JString "cadavre@ex.quis")) ];
               SelectSetval "public.test_customer_id_seq" "id" "public"
                 "test_customer" ]).
Proof.
  run_toSQL.
Qed.

(** Rows added without a value for their id field all carry the identity
    tuple [(id, undefined)]: of the two customers of the test "should
    insert into columns with default value set" the second is taken for
    inserted once the first is, and gets no INSERT. *)
Lemma rows_without_id_collide (extra : nat) :
  toSQL (sequenceOf ["test_customer"]) (extra + 1) Samples.defaultsOfTest
  = Ok (Some [ insertStatement Samples.defaulted_customer Samples.cadavre;
               SelectSetval "public.test_customer_id_seq" "id" "public"
                 "test_customer" ]).
Proof.
  run_toSQL.
Qed.

(** C6 (idempotent visitation) fails on the code: a row resolved twice
    gets two INSERTs.  In [hall] the seat [seat11] refers
    to the booking [bookingC], which refers back to [seat11].  When
    [seat12] is inserted, [seat11], which shares its [row_no], leaves
    [Pending] with it; when [bookingY] is inserted, [bookingC], added
    without an id like it, leaves [Pending] and counts as inserted.  The
    resolution of [seat11] is then entered a second time, inside the
    first, and both emit its INSERT: no error is thrown, and the batch
    holds the INSERT of [seat11] twice. *)
Lemma undetected_cycle_inserts_twice (extra : nat) :
  toSQL (sequenceOf ["seat"; "booking"]) (extra + 4) Samples.hall
  = Ok (Some [ insertStatement Samples.seat Samples.seat12;
               insertStatement Samples.booking Samples.bookingY;
               insertStatement Samples.seat Samples.seat11;
               insertStatement Samples.booking Samples.bookingC;
               insertStatement Samples.seat Samples.seat11 ]).
Proof.
  run_toSQL.
Qed.

(** * Further properties *)

(** ** The loop over the models, continued *)

Lemma firstWithRows_rows (store : gmap string (list ModelData))
    (sortedModels : list ModelNode) (entry : ModelNode) :
  firstWithRows store sortedModels = Some entry ->
  exists row rows, store !! modelName entry = Some (row :: rows).
Proof.
  induction sortedModels as [|e rest IH]; simpl; [discriminate|].
  destruct (store !! modelName e) as [[|row rows]|] eqn:He; [| |discriminate].
  - exact IH.
  - intros H. inversion H; subst e. now exists row, rows.
Qed.

Lemma createStatements_loop_none (dataModel : DataModel)
    (store : gmap string (list ModelData)) (fuel : nat) (ctx : Ctx)
    (fixers : list statement) (sortedModels : list ModelNode) :
  createStatements_loop dataModel store fuel ctx fixers sortedModels = Ok None ->
  forall e, In e sortedModels -> store !! modelName e = Some [].
Proof.
  induction sortedModels as [|entry rest IH]; simpl; intros Hrun e He;
    [destruct He|].
  destruct (store !! modelName entry) as [[|row rows]|] eqn:Hrows;
    [| |discriminate].
  - simpl in Hrun. destruct He as [<-|He]; [exact Hrows|now apply IH].
  - cbn [length Nat.eqb] in Hrun.
    destruct (forEach _ (row :: rows) ctx); simpl in Hrun; discriminate.
Qed.

(** X1.  The outcome of [toSQL] depends on the sequence of models only
    through its first model with rows: it is the outcome for the sequence
    made of that model alone, whatever models come before and after it.
    The rows of the other models count only as parents. *)
Theorem toSQL_first_model_only (sortModels : DataModel -> list ModelNode)
    (fuel : nat) (this : PgStore) (entry : ModelNode) :
  firstWithRows (_store this) (sortModels (dataModel this)) = Some entry ->
  toSQL sortModels fuel this = toSQL (fun _ => [entry]) fuel this.
Proof.
  intros H. unfold toSQL, createStatements.
  now apply createStatements_loop_first.
Qed.

Lemma toSQL_first_model_only_witness :
  toSQL (sequenceOf ["test_customer"; "test_order"]) 3 Samples.shop
  = toSQL (fun _ => [ {| modelName := "test_customer";
                        node := Samples.test_customer |} ]) 3 Samples.shop.
Proof.
  apply toSQL_first_model_only. vm_compute. reflexivity.
Defined.

(** X2.  [toSQL] returns [undefined] exactly when every model of the
    sequence has an empty list of rows: with a row under any sequenced
    model the call returns a list, throws, or runs out of budget. *)
Theorem undefined_exactly_when_empty
    (sortModels : DataModel -> list ModelNode) (fuel : nat) (this : PgStore) :
  toSQL sortModels fuel this = Ok None
  <-> allEmpty (_store this) (sortModels (dataModel this)) = true.
Proof.
  unfold toSQL, createStatements. split.
  - intros Hrun. unfold allEmpty. apply forallb_forall. intros e He.
    apply bool_decide_eq_true. eapply createStatements_loop_none; eassumption.
  - intros H. apply createStatements_loop_empty. now apply allEmpty_spec.
Qed.

(** X3.  When the sequence reaches, before any model with rows, a model
    whose name has no list in the store, [toSQL] throws a TypeError (the
    length of [undefined] is read), whatever the budget. *)
Theorem missing_list_throws (sortModels : DataModel -> list ModelNode)
    (fuel : nat) (this : PgStore) :
  reachesMissing (_store this) (sortModels (dataModel this)) = true ->
  toSQL sortModels fuel this = Throw TypeError.
Proof.
  unfold toSQL, createStatements.
  generalize (freshCtx (dataModel this)) as ctx.
  generalize (@nil statement) as fixers.
  induction (sortModels (dataModel this)) as [|entry rest IH];
    intros fixers ctx; simpl; [discriminate|].
  destruct (_store this !! modelName entry) as [[|row rows]|];
    [|discriminate|reflexivity].
  simpl. apply IH.
Qed.

Lemma missing_list_throws_witness :
  toSQL (fun _ => [ {| modelName := "test_customer";
                       node := Samples.test_customer |};
                    {| modelName := "test_parcel";
                       node := Samples.test_order |} ]) 0 Samples.emptyShop
  = Throw TypeError.
Proof.
  apply missing_list_throws. vm_compute. reflexivity.
Defined.

(** ** Rows whose relations resolve to nothing *)

Lemma parents_unresolved (store : gmap string (list ModelData))
    (rec : string -> ModelData -> Ctx -> result Ctx) (row : ModelData)
    (ps : list DataModelObjectField) (c : Ctx) :
  forallb (fun p => unresolved store p row) ps = true ->
  forEach (resolveParent store rec row) ps c = Ok c.
Proof.
  induction ps as [|p ps IH]; simpl; [reflexivity|].
  intros H. apply andb_prop in H. destruct H as [Hp Hps].
  assert (E : resolveParent store rec row p c = Ok c).
  { unfold resolveParent. unfold unresolved in Hp.
    destruct (allNull (parentIdFields p row)); [reflexivity|]. simpl in Hp.
    destruct (store !! o_type p) as [rows|]; [|discriminate].
    apply bool_decide_eq_true in Hp. now rewrite Hp. }
  rewrite E. simpl. now apply IH.
Qed.

Lemma createStatement_alone (dataModel : DataModel)
    (store : gmap string (list ModelData)) (fuel : nat) (m : string)
    (model : DataModelModel) (row : ModelData) (ins pend : list ModelData)
    (c : Ctx) :
  models dataModel !! m = Some model ->
  inserted c !! m = Some ins -> pending c !! m = Some pend ->
  existsb (every_eq (rowIdFields model row)) ins = false ->
  forallb (fun p => unresolved store p row) (snd (groupFields (fields model)))
  = true ->
  createStatement dataModel store (S fuel) m row c
  = Ok (insertedAlone model m row ins pend c).
Proof.
  intros Hm Hins Hpend Hex Hun. simpl. unfold createStatement_body.
  rewrite Hm, Hins, Hex, Hpend.
  rewrite parents_unresolved by exact Hun. cbn [bind pending inserted statements].
  rewrite lookup_insert_eq, Hins. reflexivity.
Qed.

(** X4.  A row that has not been inserted and none of whose relations
    resolves to a row of the store (every relation is absent, its "from"
    values all null, or external, no row of the target matching) is
    settled with a budget of one: exactly its INSERT is appended, the row
    is pushed on [Inserted], and nothing is thrown. *)
Theorem unresolved_relations_emit_one_insert (dataModel : DataModel)
    (store : gmap string (list ModelData)) (fuel : nat) (m : string)
    (model : DataModelModel) (row : ModelData) (ins pend : list ModelData)
    (c : Ctx) :
  models dataModel !! m = Some model ->
  inserted c !! m = Some ins -> pending c !! m = Some pend ->
  isRowInserted dataModel c m row = false ->
  forallb (fun p => unresolved store p row) (snd (groupFields (fields model)))
  = true ->
  exists c',
    createStatement dataModel store (S fuel) m row c = Ok c'
    /\ statements c' = statements c ++ [insertStatement model row]
    /\ inserted c' = <[m := ins ++ [row]]> (inserted c).
Proof.
  intros Hm Hins Hpend Hnot Hun.
  exists (insertedAlone model m row ins pend c).
  split; [|split; reflexivity].
  apply createStatement_alone; try assumption.
  unfold isRowInserted in Hnot. now rewrite Hm, Hins in Hnot.
Qed.

Lemma unresolved_relations_emit_one_insert_witness :
  exists c',
    createStatement Samples.shopModel (_store Samples.emptyShop) 1 "test_order"
      Samples.widget (freshCtx Samples.shopModel) = Ok c'
    /\ statements c'
       = statements (freshCtx Samples.shopModel)
         ++ [insertStatement Samples.test_order Samples.widget]
    /\ inserted c'
       = <["test_order" := [] ++ [Samples.widget]]>
           (inserted (freshCtx Samples.shopModel)).
Proof.
  apply (unresolved_relations_emit_one_insert Samples.shopModel
           (_store Samples.emptyShop) 0 "test_order" Samples.test_order
           Samples.widget [] []); vm_compute; reflexivity.
Defined.

(** ** A model without relation fields *)

Lemma newRows_distinct (model : DataModelModel) (rows : list ModelData) :
  forall acc,
    distinctIdentities model rows = true ->
    forallb (fun r => negb (existsb (every_eq (rowIdFields model r)) acc)) rows
    = true ->
    newRows model acc rows = rows.
Proof.
  induction rows as [|r rest IH]; intros acc Hd Hacc; simpl in *; [reflexivity|].
  apply andb_prop in Hd. destruct Hd as [Hr Hd].
  apply andb_prop in Hacc. destruct Hacc as [Hra Hacc].
  apply negb_true_iff in Hra. rewrite Hra. f_equal. apply IH; [exact Hd|].
  apply forallb_forall. intros r' Hr'.
  rewrite forallb_forall in Hacc, Hr.
  specialize (Hacc r' Hr'). specialize (Hr r' Hr').
  apply negb_true_iff in Hacc. rewrite existsb_app, Hacc. simpl.
  apply negb_true_iff in Hr. now rewrite Hr.
Qed.

Lemma rows_relation_free (dataModel : DataModel)
    (store : gmap string (list ModelData)) (fuel : nat) (m : string)
    (model : DataModelModel) :
  models dataModel !! m = Some model -> relationFree model = true ->
  forall rows c ins pend,
    inserted c !! m = Some ins -> pending c !! m = Some pend ->
    exists c',
      forEach (createStatement dataModel store (S fuel) m) rows c = Ok c'
      /\ statements c'
         = statements c ++ map (insertStatement model) (newRows model ins rows).
Proof.
  intros Hm Hfree.
  assert (Hps : snd (groupFields (fields model)) = []).
  { unfold relationFree in Hfree.
    now destruct (snd (groupFields (fields model))). }
  induction rows as [|r rest IH]; intros c ins pend Hins Hpend.
  - exists c. split; [reflexivity|]. simpl. now rewrite app_nil_r.
  - cbn [forEach newRows].
    destruct (existsb (every_eq (rowIdFields model r)) ins) eqn:Hex.
    + rewrite createStatement_inserted
        by (unfold isRowInserted; now rewrite Hm, Hins).
      cbn [bind]. now apply (IH c ins pend).
    + rewrite (createStatement_alone dataModel store fuel m model r ins pend c)
        by (try assumption; now rewrite Hps).
      cbn [bind].
      destruct (IH (insertedAlone model m r ins pend c) (ins ++ [r])
                  (List.filter (every_ne (rowIdFields model r)) (pend ++ [r])))
        as [c' [Hrun Hst]].
      * cbn [insertedAlone inserted]. now rewrite lookup_insert_eq.
      * cbn [insertedAlone pending]. now rewrite lookup_insert_eq.
      * exists c'. split; [exact Hrun|]. rewrite Hst.
        cbn [insertedAlone statements map]. now rewrite <- app_assoc.
Qed.

(** X8.  When the first model with rows has no relation field, [toSQL]
    succeeds with a budget of one and returns the INSERT of the first row
    of every identity tuple, in the order of the store, followed by the
    sequence fixes of the model; when the identity tuples of the rows are
    pairwise distinct, that is the INSERT of every row. *)
Theorem relation_free_model_batch (sortModels : DataModel -> list ModelNode)
    (fuel : nat) (this : PgStore) (entry : ModelNode)
    (model : DataModelModel) (rows : list ModelData) :
  firstWithRows (_store this) (sortModels (dataModel this)) = Some entry ->
  models (dataModel this) !! modelName entry = Some model ->
  _store this !! modelName entry = Some rows ->
  relationFree model = true ->
  toSQL sortModels (S fuel) this
  = Ok (Some (map (insertStatement model) (keepFirst model rows)
              ++ sequenceFixerStatements (node entry)))
  /\ (distinctIdentities model rows = true -> keepFirst model rows = rows).
Proof.
  intros Hfirst Hm Hst Hfree. split.
  - destruct (firstWithRows_rows _ _ _ Hfirst) as (row & rest & Hrows).
    rewrite Hst in Hrows. inversion Hrows; subst rows.
    unfold toSQL, createStatements.
    rewrite (createStatements_loop_first _ _ _ _ _ _ _ Hfirst).
    cbn [createStatements_loop].
    rewrite Hst. cbn [length Nat.eqb].
    destruct (rows_relation_free (dataModel this) (_store this) fuel
                (modelName entry) model Hm Hfree (row :: rest)
                (freshCtx (dataModel this)) [] [])
      as [c' [Hrun Hstmts]].
    + cbn [freshCtx inserted]. now rewrite lookup_fmap, Hm.
    + cbn [freshCtx pending]. now rewrite lookup_fmap, Hm.
    + rewrite Hrun. cbn [bind]. rewrite Hstmts. reflexivity.
  - intros Hd. apply newRows_distinct; [exact Hd|].
    apply forallb_forall. reflexivity.
Qed.

Lemma relation_free_model_batch_witness :
  toSQL (sequenceOf ["test_customer"; "test_order"]) 1 Samples.shop
  = Ok (Some (map (insertStatement Samples.test_customer)
                (keepFirst Samples.test_customer
                   [Samples.johnDoe; Samples.janeDoe])
              ++ sequenceFixerStatements Samples.test_customer))
  /\ (distinctIdentities Samples.test_customer
        [Samples.johnDoe; Samples.janeDoe] = true ->
      keepFirst Samples.test_customer [Samples.johnDoe; Samples.janeDoe]
      = [Samples.johnDoe; Samples.janeDoe]).
Proof.
  apply (relation_free_model_batch
           (sequenceOf ["test_customer"; "test_order"]) 0 Samples.shop
           {| modelName := "test_customer"; node := Samples.test_customer |});
    vm_compute; reflexivity.
Defined.

(** ** The rows of the visited model *)

(** X9.  In a batch returned by [toSQL], every row of the first model
    with rows is covered: the batch holds the INSERT of a row of that
    model, taken from the store, that carries its identity tuple; it is
    the row itself when no other row of the model carries its identity
    tuple. *)
Theorem visited_rows_covered (sortModels : DataModel -> list ModelNode)
    (fuel : nat) (this : PgStore) (out : list statement) (entry : ModelNode)
    (rows : list ModelData) (r : ModelData) :
  toSQL sortModels fuel this = Ok (Some out) ->
  firstWithRows (_store this) (sortModels (dataModel this)) = Some entry ->
  _store this !! modelName entry = Some rows -> In r rows ->
  exists model r',
    models (dataModel this) !! modelName entry = Some model
    /\ In r' rows
    /\ every_eq (rowIdFields model r) r' = true
    /\ In (insertStatement model r') out
    /\ (soleIdentity (dataModel this) (_store this) (modelName entry) r = true
        -> r' = r).
Proof.
  intros Hrun Hfirst Hst Hr.
  destruct (toSQL_traced _ _ _ _ Hrun)
    as (entry' & row & rest & ctx' & log & Hfirst' & Hst' & HT & Hins & ->).
  rewrite Hfirst in Hfirst'. inversion Hfirst'; subst entry'.
  rewrite Hst in Hst'. inversion Hst'; subst rows.
  specialize (Hins r Hr). unfold isRowInserted in Hins.
  destruct (models (dataModel this) !! modelName entry) as [model|] eqn:Hm;
    [|discriminate].
  destruct (inserted ctx' !! modelName entry) as [ins|] eqn:Hi; [|discriminate].
  apply existsb_exists in Hins. destruct Hins as (r' & Hr' & Hid).
  destruct HT as [T1 T2 T3 T4].
  assert (Hlog : In (modelName entry, r') log) by (eapply T2; eassumption).
  destruct (T3 _ _ Hlog) as (rows' & Hrows' & Hin').
  rewrite Hst in Hrows'. inversion Hrows'; subst rows'.
  exists model, r'. split; [reflexivity|]. split; [exact Hin'|].
  split; [exact Hid|]. split.
  - apply list_elem_of_In, list_elem_of_lookup in Hlog. destruct Hlog as [i Hi'].
    destruct (Forall2_lookup_l _ _ _ _ _ T1 Hi') as (s & Hs & model' & Hm' & ->).
    simpl in Hm'. rewrite Hm in Hm'. inversion Hm'; subst model'.
    apply in_or_app. left. apply list_elem_of_In, list_elem_of_lookup.
    now exists i.
  - intros Hsole. symmetry.
    eapply soleIdentity_spec; eassumption.
Qed.

Lemma visited_rows_covered_witness :
  exists model r',
    models (dataModel Samples.referralChain) !! "customer" = Some model
    /\ In r' [Samples.john; Samples.founder]
    /\ every_eq (rowIdFields model Samples.founder) r' = true
    /\ In (insertStatement model r')
         [ insertStatement (Samples.customer true) Samples.founder;
           insertStatement (Samples.customer true) Samples.john;
           SelectSetval "public.customer_id_seq" "id" "public" "customer" ]
    /\ (soleIdentity (dataModel Samples.referralChain)
          (_store Samples.referralChain) "customer" Samples.founder = true ->
        r' = Samples.founder).
Proof.
  apply (visited_rows_covered (sequenceOf ["customer"]) 2
           Samples.referralChain _
           {| modelName := "customer"; node := Samples.customer true |}).
  - vm_compute. reflexivity.
  - vm_compute. reflexivity.
  - vm_compute. reflexivity.
  - right. now left.
Defined.

(** ** [logToSqlErrors] *)

Lemma jsMapSet_keys {V : Type} (k : string) (v : V) (m : list (string * V)) :
  map fst (jsMapSet k v m)
  = if existsb (fun kv => String.eqb (fst kv) k) m
    then map fst m else map fst m ++ [k].
Proof.
  unfold jsMapSet. destruct (existsb _ m).
  - rewrite map_map. apply map_ext. intros [k0 v0]. simpl.
    destruct (String.eqb k0 k) eqn:E; [|reflexivity].
    apply String.eqb_eq in E. now subst.
  - now rewrite map_app.
Qed.

Lemma jsMapGet_set {V : Type} (k k' : string) (v : V) (m : list (string * V)) :
  jsMapGet k' (jsMapSet k v m)
  = if String.eqb k k' then Some v else jsMapGet k' m.
Proof.
  unfold jsMapSet, jsMapGet.
  destruct (existsb (fun kv => String.eqb (fst kv) k) m) eqn:Hex.
  - induction m as [|[k0 v0] m IH]; [discriminate|]. simpl in *.
    destruct (String.eqb k0 k) eqn:E0.
    + apply String.eqb_eq in E0. subst k0. simpl.
      destruct (String.eqb k k') eqn:E; [reflexivity|].
      destruct (existsb (fun kv => String.eqb (fst kv) k) m) eqn:Hm.
      * rewrite (IH eq_refl). reflexivity.
      * clear IH Hex. induction m as [|[k1 v1] m IH]; [reflexivity|].
        simpl in *. apply orb_false_elim in Hm. destruct Hm as [E1 Hm].
        rewrite E1. simpl. destruct (String.eqb k1 k'); [reflexivity|].
        now apply IH.
    + simpl in Hex. simpl.
      destruct (String.eqb k0 k') eqn:E1.
      * destruct (String.eqb k k') eqn:E; [|reflexivity].
        apply String.eqb_eq in E, E1. subst. now rewrite String.eqb_refl in E0.
      * now apply IH.
  - induction m as [|[k0 v0] m IH]; simpl in *.
    + destruct (String.eqb k k'); reflexivity.
    + apply orb_false_elim in Hex. destruct Hex as [E0 Hex].
      destruct (String.eqb k0 k') eqn:E1.
      * destruct (String.eqb k k') eqn:E; [|reflexivity].
        apply String.eqb_eq in E, E1. subst. now rewrite String.eqb_refl in E0.
      * now apply IH.
Qed.

Lemma jsMapGet_In {V : Type} (k : string) (v : V) (m : list (string * V)) :
  jsMapGet k m = Some v -> In (k, v) m.
Proof.
  unfold jsMapGet. destruct (List.find _ m) as [[k0 v0]|] eqn:E; [|discriminate].
  apply find_some in E. destruct E as [Hin Heq]. apply String.eqb_eq in Heq.
  simpl in *. intros H. inversion H. now subst.
Qed.

Lemma occurrences_snoc (name : string) (errors : list MissingPKForUpdateError)
    (e : MissingPKForUpdateError) :
  occurrences name (errors ++ [e])
  = occurrences name errors
    + (if String.eqb (error_modelName e) name then 1 else 0).
Proof.
  unfold occurrences. rewrite List.filter_app, length_app. simpl.
  now destruct (String.eqb (error_modelName e) name).
Qed.

(** What the map holds after the errors [seen]: a key for every model
    with an error, bound to one more than the number of its errors. *)
Lemma missingPKForUpdateErrorsMap_spec (errors : list MissingPKForUpdateError) :
  List.NoDup (map fst (missingPKForUpdateErrorsMap errors))
  /\ forall name,
       jsMapGet name (missingPKForUpdateErrorsMap errors)
       = if Nat.eqb (occurrences name errors) 0 then None
         else Some (occurrences name errors + 1).
Proof.
  unfold missingPKForUpdateErrorsMap.
  set (step := fun (m : list (string * nat)) (error : MissingPKForUpdateError) =>
                 jsMapSet (error_modelName error)
                   (default 1 (jsMapGet (error_modelName error) m) + 1) m).
  assert (G : forall todo seen m,
             (List.NoDup (map fst m)
              /\ forall name,
                   jsMapGet name m
                   = if Nat.eqb (occurrences name seen) 0 then None
                     else Some (occurrences name seen + 1)) ->
             List.NoDup (map fst (fold_left step todo m))
             /\ forall name,
                  jsMapGet name (fold_left step todo m)
                  = if Nat.eqb (occurrences name (seen ++ todo)) 0 then None
                    else Some (occurrences name (seen ++ todo) + 1)).
  { induction todo as [|e todo IH]; intros seen m [Hnd Hget]; simpl.
    - rewrite app_nil_r. now split.
    - replace (seen ++ e :: todo) with ((seen ++ [e]) ++ todo)
        by (rewrite <- app_assoc; reflexivity).
      apply IH. unfold step. split.
      + rewrite jsMapSet_keys.
        destruct (existsb _ m) eqn:Hex; [exact Hnd|].
        apply NoDup_ListNoDup, NoDup_app. apply NoDup_ListNoDup in Hnd.
        split; [exact Hnd|]. split; [|apply NoDup_singleton].
        intros x Hx Hx'. apply list_elem_of_singleton in Hx'. subst x.
        apply list_elem_of_In in Hx. apply in_map_iff in Hx.
        destruct Hx as [kv [E Hin]].
        assert (Ht : existsb (fun kv => String.eqb (fst kv) (error_modelName e)) m
                     = true).
        { apply existsb_exists. exists kv. split; [exact Hin|].
          now apply String.eqb_eq. }
        congruence.
      + intros name. rewrite jsMapGet_set, occurrences_snoc.
        destruct (String.eqb (error_modelName e) name) eqn:E.
        * apply String.eqb_eq in E. subst name. rewrite Hget.
          destruct (Nat.eqb_spec (occurrences (error_modelName e) seen) 0);
            destruct (Nat.eqb_spec
                        (occurrences (error_modelName e) seen + 1) 0);
            try lia; simpl; f_equal; lia.
        * rewrite Hget, Nat.add_0_r. reflexivity. }
  apply (G errors [] []). split; [constructor|]. intros name. reflexivity.
Qed.

(** X10.  [logToSqlErrors] writes one line for every model that has an
    error, and no other line; the number of rows it reports for a model
    is one more than the number of errors recorded for that model.  For an
    empty list of errors it writes nothing. *)
Theorem logToSqlErrors_counts (errors : list MissingPKForUpdateError) :
  List.NoDup (map warning_modelName (logToSqlErrors errors))
  /\ forall name n,
       In {| warning_modelName := name; affectedRows := n |}
          (logToSqlErrors errors)
       <-> 0 < occurrences name errors /\ n = occurrences name errors + 1.
Proof.
  destruct (missingPKForUpdateErrorsMap_spec errors) as [Hnd Hget].
  assert (E : logToSqlErrors errors
              = map (fun kv => {| warning_modelName := fst kv;
                                  affectedRows := snd kv |})
                    (missingPKForUpdateErrorsMap errors)).
  { unfold logToSqlErrors. now destruct errors. }
  rewrite E. split.
  - rewrite map_map. simpl. exact Hnd.
  - intros name n. rewrite in_map_iff. split.
    + intros [[k v] [Hw Hin]]. simpl in Hw. inversion Hw; subst k v.
      pose proof (jsMapGet_distinct _ _ _ Hnd Hin) as Hg. rewrite Hget in Hg.
      destruct (Nat.eqb (occurrences name errors) 0) eqn:E0; [discriminate|].
      apply Nat.eqb_neq in E0. inversion Hg. split; [lia|reflexivity].
    + intros [Hpos ->]. exists (name, occurrences name errors + 1).
      split; [reflexivity|]. apply jsMapGet_In. rewrite Hget.
      replace (Nat.eqb (occurrences name errors) 0) with false
        by (symmetry; apply Nat.eqb_neq; lia).
      reflexivity.
Qed.

(** ** The model names of the context *)

Lemma insert_is_Some_iff {V : Type} (mp : gmap string V) (k j : string) (v : V) :
  is_Some (mp !! k) -> (is_Some (<[k := v]> mp !! j) <-> is_Some (mp !! j)).
Proof.
  intros Hk. destruct (decide (k = j)) as [->|Hne].
  - rewrite lookup_insert_eq. split; [intros _; exact Hk|intros _; now eexists].
  - now rewrite lookup_insert_ne.
Qed.

Lemma sameKeys_refl (c : Ctx) : sameKeys c c.
Proof. intros m. split; reflexivity. Qed.

Lemma sameKeys_trans (c1 c2 c3 : Ctx) :
  sameKeys c1 c2 -> sameKeys c2 c3 -> sameKeys c1 c3.
Proof.
  intros H12 H23 m. destruct (H12 m) as [A1 B1], (H23 m) as [A2 B2].
  split; etransitivity; eassumption.
Qed.

Section Keys.
Variable dataModel : DataModel.
Variable store : gmap string (list ModelData).

Lemma resolveParent_keys (rec : string -> ModelData -> Ctx -> result Ctx)
    (row : ModelData) :
  (forall m r c c', rec m r c = Ok c' -> sameKeys c c') ->
  forall p c c', resolveParent store rec row p c = Ok c' -> sameKeys c c'.
Proof.
  intros Hrec p c c'. unfold resolveParent.
  destruct (allNull _); [intros E; inversion E; apply sameKeys_refl|].
  destruct (store !! o_type p); [|discriminate].
  destruct (List.find _ _); [|intros E; inversion E; apply sameKeys_refl].
  destruct (pending c !! o_type p); [|discriminate].
  destruct (existsb _ _); [discriminate|]. apply Hrec.
Qed.

(** A resolution adds no model name to the context and removes none. *)
Lemma createStatement_keys (fuel : nat) :
  forall m r c c',
    createStatement dataModel store fuel m r c = Ok c' -> sameKeys c c'.
Proof.
  induction fuel as [|fuel IH]; intros m r c c' Hrun; [discriminate|].
  simpl in Hrun. unfold createStatement_body in Hrun.
  destruct (models dataModel !! m) as [model|]; [|discriminate].
  destruct (inserted c !! m) as [ins|] eqn:Hins; [|discriminate].
  destruct (existsb _ ins).
  { inversion Hrun. apply sameKeys_refl. }
  destruct (pending c !! m) as [pend|] eqn:Hpend; [|discriminate].
  match type of Hrun with
  | bind (forEach _ _ ?c1) _ = _ => set (ctx1 := c1) in *
  end.
  destruct (forEach _ _ ctx1) as [c2| |] eqn:Hloop; simpl in Hrun;
    try discriminate.
  destruct (pending c2 !! m) as [pend2|] eqn:Hpend2; [|discriminate].
  destruct (inserted c2 !! m) as [ins2|] eqn:Hins2; [|discriminate].
  inversion Hrun; subst c'; clear Hrun.
  assert (H1 : sameKeys c ctx1).
  { intros m0. unfold ctx1. cbn [inserted pending]. split; [tauto|].
    apply insert_is_Some_iff. rewrite Hpend. now eexists. }
  assert (H2 : sameKeys ctx1 c2).
  { apply (forEach_invariant
             (resolveParent store (createStatement dataModel store fuel) r)
             (sameKeys ctx1) (snd (groupFields (fields model))))
      with (s := ctx1); [|apply sameKeys_refl|exact Hloop].
    intros p s s' _ Hs Hp. eapply sameKeys_trans; [exact Hs|].
    eapply resolveParent_keys; eassumption. }
  eapply sameKeys_trans; [exact H1|]. eapply sameKeys_trans; [exact H2|].
  intros m0. cbn [inserted pending]. split; apply insert_is_Some_iff;
    rewrite ?Hins2, ?Hpend2; now eexists.
Qed.

Lemma keyed_sameKeys (c c' : Ctx) :
  sameKeys c c' -> keyed dataModel c -> keyed dataModel c'.
Proof.
  intros Hk H m Hm. destruct (H m Hm) as [Hi Hp], (Hk m) as [Ki Kp].
  split; [now apply Ki|now apply Kp].
Qed.
End Keys.

(** ** [Pending] when every model has an id field *)

Lemma allHaveId_spec (dataModel : DataModel) (m : string)
    (model : DataModelModel) (r : ModelData) :
  allHaveId dataModel = true -> models dataModel !! m = Some model ->
  every_ne (rowIdFields model r) r = false.
Proof.
  unfold allHaveId. intros H Hm. rewrite forallb_forall in H.
  assert (Hin : In (m, model) (map_to_list (models dataModel))).
  { apply list_elem_of_In. now apply elem_of_map_to_list. }
  specialize (H _ Hin). simpl in H. unfold every_ne, rowIdFields.
  destruct (List.filter f_isId (fields model)) as [|f fs]; [discriminate|].
  simpl. unfold strict_eq. now rewrite bool_decide_eq_true_2.
Qed.

Lemma pending_sub_refl (c : Ctx) : pending_sub c c.
Proof. intros m l H. exists l. now split. Qed.

Lemma pending_sub_trans (c1 c2 c3 : Ctx) :
  pending_sub c1 c2 -> pending_sub c2 c3 -> pending_sub c1 c3.
Proof.
  intros H12 H23 m l3 H3. destruct (H23 m l3 H3) as [l2 [H2 S2]].
  destruct (H12 m l2 H2) as [l1 [H1 S1]]. exists l1. split; [exact H1|]. auto.
Qed.

Section PendingCleaned.
Variable dataModel : DataModel.
Variable store : gmap string (list ModelData).
Hypothesis HallId : allHaveId dataModel = true.

Lemma resolveParent_pending_sub
    (rec : string -> ModelData -> Ctx -> result Ctx) (row : ModelData) :
  (forall m r c c', rec m r c = Ok c' -> pending_sub c c') ->
  forall p c c', resolveParent store rec row p c = Ok c' -> pending_sub c c'.
Proof.
  intros Hrec p c c'. unfold resolveParent.
  destruct (allNull _); [intros E; inversion E; apply pending_sub_refl|].
  destruct (store !! o_type p); [|discriminate].
  destruct (List.find _ _); [|intros E; inversion E; apply pending_sub_refl].
  destruct (pending c !! o_type p); [|discriminate].
  destruct (existsb _ _); [discriminate|]. apply Hrec.
Qed.

Lemma createStatement_pending_sub (fuel : nat) :
  forall m r c c',
    createStatement dataModel store fuel m r c = Ok c' -> pending_sub c c'.
Proof.
  induction fuel as [|fuel IH]; intros m r c c' Hrun; [discriminate|].
  simpl in Hrun. unfold createStatement_body in Hrun.
  destruct (models dataModel !! m) as [model|] eqn:Hm; [|discriminate].
  destruct (inserted c !! m) as [ins|] eqn:Hins; [|discriminate].
  destruct (existsb _ ins).
  { inversion Hrun. apply pending_sub_refl. }
  destruct (pending c !! m) as [pend|] eqn:Hpend; [|discriminate].
  match type of Hrun with
  | bind (forEach _ _ ?c1) _ = _ => set (ctx1 := c1) in *
  end.
  destruct (forEach _ _ ctx1) as [c2| |] eqn:Hloop; simpl in Hrun;
    try discriminate.
  destruct (pending c2 !! m) as [pend2|] eqn:Hpend2; [|discriminate].
  destruct (inserted c2 !! m) as [ins2|] eqn:Hins2; [|discriminate].
  inversion Hrun; subst c'; clear Hrun.
  assert (H2 : pending_sub ctx1 c2).
  { apply (forEach_invariant
             (resolveParent store (createStatement dataModel store fuel) r)
             (pending_sub ctx1) (snd (groupFields (fields model))))
      with (s := ctx1); [|apply pending_sub_refl|exact Hloop].
    intros p s s' _ Hs Hp. eapply pending_sub_trans; [exact Hs|].
    eapply resolveParent_pending_sub; eassumption. }
  intros m0 l' Hl'. cbn [pending] in Hl'.
  destruct (decide (m = m0)) as [<-|Hne].
  - rewrite lookup_insert_eq in Hl'. inversion Hl'; subst l'.
    exists pend. split; [exact Hpend|]. intros x Hx.
    apply filter_In in Hx. destruct Hx as [Hx Hne].
    destruct (H2 m pend2 Hpend2) as [l1 [Hl1 S1]].
    unfold ctx1 in Hl1. cbn [pending] in Hl1. rewrite lookup_insert_eq in Hl1.
    inversion Hl1; subst l1. apply S1 in Hx. apply in_app_or in Hx.
    destruct Hx as [Hx|[<-|[]]]; [exact Hx|].
    rewrite (allHaveId_spec dataModel m model r HallId Hm) in Hne.
    discriminate.
  - rewrite lookup_insert_ne in Hl' by exact Hne.
    destruct (H2 m0 l' Hl') as [l1 [Hl1 S1]].
    unfold ctx1 in Hl1. cbn [pending] in Hl1. rewrite lookup_insert_ne in Hl1 by exact Hne.
    exists l1. now split.
Qed.
End PendingCleaned.

(** X5.  When every model has at least one id field, a completed
    resolution leaves in [Pending] only rows that were pending before it
    began: the row it pushed, and the rows its parents pushed, are all
    removed again.  Started with an empty [Pending], it ends with an empty
    [Pending]. *)
Theorem pending_cleaned (dataModel : DataModel)
    (store : gmap string (list ModelData)) (fuel : nat) (m : string)
    (r : ModelData) (c c' : Ctx) :
  allHaveId dataModel = true ->
  createStatement dataModel store fuel m r c = Ok c' ->
  (forall m0 l', pending c' !! m0 = Some l' ->
                 exists l, pending c !! m0 = Some l
                           /\ forall x, In x l' -> In x l)
  /\ ((forall m0 l, pending c !! m0 = Some l -> l = []) ->
      forall m0 l', pending c' !! m0 = Some l' -> l' = []).
Proof.
  intros HallId Hrun.
  pose proof (createStatement_pending_sub dataModel store HallId fuel
                m r c c' Hrun) as Hsub.
  split; [exact Hsub|]. intros Hempty m0 l' Hl'.
  destruct (Hsub m0 l' Hl') as [l [Hl S]]. rewrite (Hempty m0 l Hl) in S.
  destruct l' as [|x l']; [reflexivity|]. destruct (S x). now left.
Qed.

Lemma pending_cleaned_witness :
  (forall m0 l', pending Samples.afterJohn !! m0 = Some l' ->
                 exists l,
                   pending (freshCtx (dataModel Samples.referralChain)) !! m0
                   = Some l
                   /\ forall x, In x l' -> In x l)
  /\ ((forall m0 l,
          pending (freshCtx (dataModel Samples.referralChain)) !! m0 = Some l ->
          l = []) ->
      forall m0 l', pending Samples.afterJohn !! m0 = Some l' -> l' = []).
Proof.
  apply (pending_cleaned (dataModel Samples.referralChain)
           (_store Samples.referralChain) 2 "customer" Samples.john).
  - vm_compute. reflexivity.
  - vm_compute. reflexivity.
Defined.

(** ** [Pending] in a model without id fields *)

Lemma pending_keeps_refl (m : string) (c : Ctx) : pending_keeps m c c.
Proof. intros l x Hl Hx. now exists l. Qed.

Lemma pending_keeps_trans (m : string) (c1 c2 c3 : Ctx) :
  pending_keeps m c1 c2 -> pending_keeps m c2 c3 -> pending_keeps m c1 c3.
Proof.
  intros H12 H23 l x Hl Hx. destruct (H12 l x Hl Hx) as [l2 [Hl2 Hx2]].
  exact (H23 l2 x Hl2 Hx2).
Qed.

Section PendingLeak.
Variable dataModel : DataModel.
Variable store : gmap string (list ModelData).
Variable m : string.
Variable model : DataModelModel.
Hypothesis Hm : models dataModel !! m = Some model.
Hypothesis Hno : List.filter f_isId (fields model) = [].

Lemma resolveParent_pending_keeps
    (rec : string -> ModelData -> Ctx -> result Ctx) (row : ModelData) :
  (forall m' r c c', rec m' r c = Ok c' -> pending_keeps m c c') ->
  forall p c c', resolveParent store rec row p c = Ok c' ->
                 pending_keeps m c c'.
Proof.
  intros Hrec p c c'. unfold resolveParent.
  destruct (allNull _); [intros E; inversion E; apply pending_keeps_refl|].
  destruct (store !! o_type p); [|discriminate].
  destruct (List.find _ _); [|intros E; inversion E; apply pending_keeps_refl].
  destruct (pending c !! o_type p); [|discriminate].
  destruct (existsb _ _); [discriminate|]. apply Hrec.
Qed.

Lemma parents_pending_keeps (fuel : nat) (row : ModelData)
    (ps : list DataModelObjectField) (c c' : Ctx) :
  (forall m' r c c',
      createStatement dataModel store fuel m' r c = Ok c' ->
      pending_keeps m c c') ->
  forEach (resolveParent store (createStatement dataModel store fuel) row) ps c
  = Ok c' ->
  pending_keeps m c c'.
Proof.
  intros IH Hloop.
  apply (forEach_invariant
           (resolveParent store (createStatement dataModel store fuel) row)
           (pending_keeps m c) ps) with (s := c);
    [|apply pending_keeps_refl|exact Hloop].
  intros p s s' _ Hs Hp. eapply pending_keeps_trans; [exact Hs|].
  eapply resolveParent_pending_keeps; eassumption.
Qed.

(** No resolution takes a row of the model off [Pending]. *)
Lemma createStatement_pending_keeps (fuel : nat) :
  forall m' r c c',
    createStatement dataModel store fuel m' r c = Ok c' ->
    pending_keeps m c c'.
Proof.
  induction fuel as [|fuel IH]; intros m' r c c' Hrun; [discriminate|].
  simpl in Hrun. unfold createStatement_body in Hrun.
  destruct (models dataModel !! m') as [model'|] eqn:Hm'; [|discriminate].
  destruct (inserted c !! m') as [ins|] eqn:Hins; [|discriminate].
  destruct (existsb _ ins).
  { inversion Hrun. apply pending_keeps_refl. }
  destruct (pending c !! m') as [pend|] eqn:Hpend; [|discriminate].
  match type of Hrun with
  | bind (forEach _ _ ?c1) _ = _ => set (ctx1 := c1) in *
  end.
  destruct (forEach _ _ ctx1) as [c2| |] eqn:Hloop; simpl in Hrun;
    try discriminate.
  destruct (pending c2 !! m') as [pend2|] eqn:Hpend2; [|discriminate].
  destruct (inserted c2 !! m') as [ins2|] eqn:Hins2; [|discriminate].
  inversion Hrun; subst c'; clear Hrun.
  pose proof (parents_pending_keeps fuel r _ _ _ IH Hloop) as H2.
  intros l x Hl Hx.
  assert (H1 : exists l1, pending ctx1 !! m = Some l1 /\ In x l1).
  { unfold ctx1. cbn [pending]. destruct (decide (m' = m)) as [->|Hne].
    - rewrite lookup_insert_eq. rewrite Hpend in Hl. inversion Hl; subst l.
      eexists. split; [reflexivity|]. apply in_or_app. now left.
    - rewrite lookup_insert_ne by exact Hne. now exists l. }
  destruct H1 as (l1 & Hl1 & Hx1).
  destruct (H2 l1 x Hl1 Hx1) as (l2 & Hl2 & Hx2). cbn [pending].
  destruct (decide (m' = m)) as [->|Hne].
  - rewrite lookup_insert_eq. rewrite Hpend2 in Hl2. inversion Hl2; subst l2.
    eexists. split; [reflexivity|]. apply filter_In. split; [exact Hx2|].
    rewrite Hm in Hm'. inversion Hm'; subst model'.
    unfold rowIdFields. now rewrite Hno.
  - rewrite lookup_insert_ne by exact Hne. now exists l2.
Qed.
End PendingLeak.

(** X6.  In a model without id fields a row is never taken off
    [Pending]: after its resolution has completed and its INSERT has been
    emitted, the row is still pending.  So every relation that resolves
    to it afterwards throws the circular-dependency error, although the
    row is no longer being resolved. *)
Theorem no_id_row_stays_pending (dataModel : DataModel)
    (store : gmap string (list ModelData)) (fuel : nat) (m : string)
    (model : DataModelModel) (r : ModelData) (c c1 : Ctx) :
  models dataModel !! m = Some model ->
  List.filter f_isId (fields model) = [] ->
  isRowInserted dataModel c m r = false ->
  createStatement dataModel store fuel m r c = Ok c1 ->
  (exists pend1, pending c1 !! m = Some pend1 /\ In r pend1)
  /\ forall rec row p,
       o_type p = m -> parentRow store p row = Some r ->
       resolveParent store rec row p c1 = Throw (CircularDependency m r).
Proof.
  intros Hm Hno Hnot Hrun.
  assert (Hpending : exists pend1, pending c1 !! m = Some pend1 /\ In r pend1).
  { destruct fuel as [|fuel]; [discriminate|].
    simpl in Hrun. unfold createStatement_body in Hrun.
    unfold isRowInserted in Hnot. rewrite Hm in Hrun, Hnot.
    destruct (inserted c !! m) as [ins|] eqn:Hins; [|discriminate].
    rewrite Hnot in Hrun.
    destruct (pending c !! m) as [pend|] eqn:Hpend; [|discriminate].
    match type of Hrun with
    | bind (forEach _ _ ?c1) _ = _ => set (ctx1 := c1) in *
    end.
    destruct (forEach _ _ ctx1) as [c2| |] eqn:Hloop; simpl in Hrun;
      try discriminate.
    destruct (pending c2 !! m) as [pend2|] eqn:Hpend2; [|discriminate].
    destruct (inserted c2 !! m) as [ins2|] eqn:Hins2; [|discriminate].
    inversion Hrun; subst c1; clear Hrun. cbn [pending].
    rewrite lookup_insert_eq. eexists. split; [reflexivity|].
    apply filter_In. split; [|unfold rowIdFields; now rewrite Hno].
    destruct (parents_pending_keeps dataModel store m fuel r _ _ _
                (createStatement_pending_keeps dataModel store m model Hm Hno fuel)
                Hloop (pend ++ [r]) r) as (l2 & Hl2 & Hx2).
    - unfold ctx1. cbn [pending]. now rewrite lookup_insert_eq.
    - apply in_or_app. right. now left.
    - rewrite Hpend2 in Hl2. now inversion Hl2. }
  split; [exact Hpending|].
  destruct Hpending as (pend1 & Hpend1 & Hin).
  intros rec row p Htype Hparent. subst m.
  unfold parentRow in Hparent. unfold resolveParent.
  destruct (allNull (parentIdFields p row)); [discriminate|].
  destruct (store !! o_type p) as [rows|]; [|discriminate].
  rewrite Hparent, Hpend1. apply find_some in Hparent.
  destruct Hparent as [_ Hmatch].
  replace (existsb (every_eq (parentIdFields p row)) pend1) with true;
    [reflexivity|].
  symmetry. apply existsb_exists. now exists r.
Qed.

Lemma no_id_row_stays_pending_witness :
  (exists pend1, pending Cases.lastResolved !! "step" = Some pend1
                 /\ In Samples.last pend1)
  /\ forall rec row p,
       o_type p = "step" ->
       parentRow (_store Samples.steps) p row = Some Samples.last ->
       resolveParent (_store Samples.steps) rec row p Cases.lastResolved
       = Throw (CircularDependency "step" Samples.last).
Proof.
  apply (no_id_row_stays_pending (dataModel Samples.steps)
           (_store Samples.steps) 1 "step" Samples.step Samples.last
           (freshCtx (dataModel Samples.steps)));
    vm_compute; reflexivity.
Defined.

(** ** Stores on which synthesis succeeds *)

Lemma closed_spec (dataModel : DataModel)
    (store : gmap string (list ModelData)) (m : string)
    (model : DataModelModel) :
  closed dataModel store = true -> models dataModel !! m = Some model ->
  is_Some (store !! m)
  /\ forall p, In p (snd (groupFields (fields model))) ->
               is_Some (models dataModel !! o_type p).
Proof.
  unfold closed. intros H Hm. rewrite forallb_forall in H.
  assert (Hin : In (m, model) (map_to_list (models dataModel))).
  { apply list_elem_of_In. now apply elem_of_map_to_list. }
  specialize (H _ Hin). simpl in H. apply andb_prop in H.
  destruct H as [Hst Hps]. split; [now apply bool_decide_eq_true in Hst|].
  intros p Hp. rewrite forallb_forall in Hps.
  specialize (Hps p Hp). now apply bool_decide_eq_true in Hps.
Qed.

Lemma uniqueTargets_spec (dataModel : DataModel)
    (store : gmap string (list ModelData)) :
  uniqueTargets dataModel store = true ->
  forall m model rows r p a prows x,
    models dataModel !! m = Some model -> store !! m = Some rows ->
    In r rows -> In p (snd (groupFields (fields model))) ->
    parentRow store p r = Some a -> store !! o_type p = Some prows ->
    In x prows -> every_eq (parentIdFields p r) x = true -> x = a.
Proof.
  unfold uniqueTargets.
  intros H m model rows r p a prows x Hm Hst Hr Hp Ha Hprows Hx Hmatch.
  rewrite forallb_forall in H.
  assert (Hin : In (m, rows) (map_to_list store)).
  { apply list_elem_of_In. now apply elem_of_map_to_list. }
  specialize (H _ Hin). simpl in H. rewrite Hm in H.
  rewrite forallb_forall in H. specialize (H r Hr).
  rewrite forallb_forall in H. specialize (H p Hp).
  rewrite Ha, Hprows in H. rewrite forallb_forall in H. specialize (H x Hx).
  rewrite Hmatch in H. simpl in H. now apply bool_decide_eq_true in H.
Qed.

Lemma rankedBelow_spec (store : gmap string (list ModelData))
    (rank : string -> ModelData -> nat) (fuel : nat) (m : string)
    (rows : list ModelData) (r : ModelData) :
  rankedBelow store rank fuel = true -> store !! m = Some rows -> In r rows ->
  rank m r < fuel.
Proof.
  unfold rankedBelow. intros H Hst Hr. rewrite forallb_forall in H.
  assert (Hin : In (m, rows) (map_to_list store)).
  { apply list_elem_of_In. now apply elem_of_map_to_list. }
  specialize (H _ Hin). simpl in H. rewrite forallb_forall in H.
  specialize (H r Hr). now apply Nat.ltb_lt in H.
Qed.

Lemma guarded_sub (store : gmap string (list ModelData))
    (rank : string -> ModelData -> nat) (n n' : nat) (c c' : Ctx) :
  pending_sub c c' -> n' <= n -> guarded store rank n c ->
  guarded store rank n' c'.
Proof.
  intros Hsub Hn Hg m0 l' x Hl' Hx. destruct (Hsub m0 l' Hl') as [l [Hl S]].
  destruct (Hg m0 l x Hl (S x Hx)) as [Hst Hr]. split; [exact Hst|lia].
Qed.

Section Success.
Variable dataModel : DataModel.
Variable store : gmap string (list ModelData).
Variable rank : string -> ModelData -> nat.
Hypothesis Hranked : ranked dataModel store rank = true.
Hypothesis Hclosed : closed dataModel store = true.
Hypothesis HallId : allHaveId dataModel = true.
Hypothesis Hunique : uniqueTargets dataModel store = true.

(** With a budget above its rank, the resolution of a row of the store
    completes. *)
Lemma createStatement_succeeds (fuel : nat) :
  forall m r c rows,
    store !! m = Some rows -> In r rows -> is_Some (models dataModel !! m) ->
    keyed dataModel c -> guarded store rank (S (rank m r)) c ->
    rank m r < fuel ->
    exists c', createStatement dataModel store fuel m r c = Ok c'.
Proof.
  induction fuel as [|fuel IH]; intros m r c rows Hst Hr [model Hm] Hk Hg Hfuel;
    [lia|].
  simpl. unfold createStatement_body. rewrite Hm.
  destruct (Hk m) as [[ins Hins] [pend Hpend]]; [rewrite Hm; now eexists|].
  rewrite Hins. destruct (existsb _ ins); [now eexists|]. rewrite Hpend.
  match goal with
  | |- exists _, bind (forEach _ _ ?c1) _ = _ => set (ctx1 := c1)
  end.
  assert (Hk1 : keyed dataModel ctx1).
  { intros m0 Hm0. destruct (Hk m0 Hm0) as [Hi Hp]. unfold ctx1.
    cbn [inserted pending]. split; [exact Hi|].
    apply insert_is_Some_iff; [rewrite Hpend; now eexists|exact Hp]. }
  assert (Hg1 : guarded store rank (rank m r) ctx1).
  { intros m0 l x Hl Hx. unfold ctx1 in Hl. cbn [pending] in Hl.
    destruct (decide (m = m0)) as [<-|Hne].
    - rewrite lookup_insert_eq in Hl. inversion Hl; subst l.
      apply in_app_or in Hx. destruct Hx as [Hx|[<-|[]]].
      + destruct (Hg m pend x Hpend Hx) as [Hs Hrk]. split; [exact Hs|lia].
      + split; [now exists rows|lia].
    - rewrite lookup_insert_ne in Hl by exact Hne.
      destruct (Hg m0 l x Hl Hx) as [Hs Hrk]. split; [exact Hs|lia]. }
  assert (Hloop : forall ps,
             (forall p, In p ps -> In p (snd (groupFields (fields model)))) ->
             forall s, keyed dataModel s -> guarded store rank (rank m r) s ->
             exists s',
               forEach (resolveParent store
                          (createStatement dataModel store fuel) r) ps s
               = Ok s'
               /\ keyed dataModel s').
  { induction ps as [|p ps IHps]; intros Hsub s Hks Hgs.
    - exists s. now split.
    - cbn [forEach].
      assert (Hp : In p (snd (groupFields (fields model))))
        by (apply Hsub; now left).
      assert (Hrest : forall q, In q ps ->
                                In q (snd (groupFields (fields model))))
        by (intros q Hq; apply Hsub; now right).
      unfold resolveParent at 1.
      destruct (allNull (parentIdFields p r)) eqn:Hnull;
        [cbn [bind]; now apply IHps|].
      destruct (proj2 (closed_spec _ _ _ _ Hclosed Hm) p Hp) as [pm Hpm].
      destruct (proj1 (closed_spec _ _ _ _ Hclosed Hpm)) as [prows Hprows].
      rewrite Hprows.
      destruct (List.find (every_eq (parentIdFields p r)) prows) as [a|]
        eqn:Hfind; [|cbn [bind]; now apply IHps].
      destruct (Hks (o_type p)) as [_ [pnd Hpnd]]; [rewrite Hpm; now eexists|].
      rewrite Hpnd.
      assert (Hparent : parentRow store p r = Some a)
        by (unfold parentRow; now rewrite Hnull, Hprows).
      pose proof (ranked_spec _ _ _ Hranked m model rows r p a Hm Hst Hr Hp
                    Hparent) as Hlt.
      destruct (existsb (every_eq (parentIdFields p r)) pnd) eqn:Hex.
      { exfalso. apply existsb_exists in Hex. destruct Hex as (x & Hx & Hmatch).
        destruct (Hgs (o_type p) pnd x Hpnd Hx) as [(xrows & Hxrows & Hxin) Hrk].
        rewrite Hprows in Hxrows. inversion Hxrows; subst xrows.
        assert (x = a)
          by (eapply (uniqueTargets_spec _ _ Hunique m model rows r p a);
              eassumption).
        subst x. lia. }
      apply find_some in Hfind. destruct Hfind as [Ha _].
      destruct (IH (o_type p) a s prows Hprows Ha) as [s1 Hs1].
      + rewrite Hpm. now eexists.
      + exact Hks.
      + eapply guarded_sub; [apply pending_sub_refl| |exact Hgs]. lia.
      + lia.
      + rewrite Hs1. cbn [bind]. apply IHps; [exact Hrest| |].
        * eapply keyed_sameKeys; [|exact Hks].
          eapply createStatement_keys. exact Hs1.
        * eapply guarded_sub; [|apply Nat.le_refl|exact Hgs].
          eapply createStatement_pending_sub; eassumption. }
  destruct (Hloop _ (fun p H => H) ctx1 Hk1 Hg1) as (c2 & Hrun & Hk2).
  rewrite Hrun. cbn [bind].
  destruct (Hk2 m) as [[ins2 Hins2] [pend2 Hpend2]]; [rewrite Hm; now eexists|].
  rewrite Hpend2, Hins2. now eexists.
Qed.

(** The rows of one model, from a context with nothing pending. *)
Lemma rows_succeed (fuel : nat) (m : string) (rows : list ModelData) :
  store !! m = Some rows -> is_Some (models dataModel !! m) ->
  rankedBelow store rank fuel = true ->
  forall todo c,
    (forall r, In r todo -> In r rows) -> keyed dataModel c ->
    (forall m0 l, pending c !! m0 = Some l -> l = []) ->
    exists c', forEach (createStatement dataModel store fuel m) todo c = Ok c'.
Proof.
  intros Hst Hm Hbelow. induction todo as [|r todo IH]; intros c Hsub Hk Hempty.
  - now exists c.
  - cbn [forEach].
    destruct (createStatement_succeeds fuel m r c rows Hst) as [c1 Hc1];
      try assumption.
    + apply Hsub. now left.
    + intros m0 l x Hl Hx. rewrite (Hempty m0 l Hl) in Hx. destruct Hx.
    + eapply rankedBelow_spec; [exact Hbelow|exact Hst|]. apply Hsub. now left.
    + rewrite Hc1. cbn [bind]. apply IH.
      * intros r' Hr'. apply Hsub. now right.
      * eapply keyed_sameKeys; [|exact Hk].
        eapply createStatement_keys. exact Hc1.
      * intros m0 l' Hl'.
        destruct (createStatement_pending_sub dataModel store HallId fuel
                    m r c c1 Hc1 m0 l' Hl') as [l [Hl S]].
        rewrite (Hempty m0 l Hl) in S.
        destruct l' as [|x l']; [reflexivity|]. destruct (S x). now left.
Qed.
End Success.

(** X7.  Synthesis succeeds on a well-formed store without cycle, given
    room for the nested calls.  Let every model have an id field and a
    list in the store, every relation target a model, the "to" columns of
    every relation single out the row it resolves to, and the references
    between the rows form no cycle ([rank] decreases along them).  The
    calls of [createStatement] nest along the references; let the budget
    of nested calls [fuel], the depth the call stack allows, be above the
    rank of every row.  Then [toSQL] returns a list of statements as soon
    as some model of the sequence has rows: it throws neither a TypeError
    nor the circular-dependency error and stays within the budget.  A
    chain of references deeper than the budget is not covered: there the
    call stack overflows. *)
Theorem synthesis_succeeds (sortModels : DataModel -> list ModelNode)
    (fuel : nat) (this : PgStore) (rank : string -> ModelData -> nat)
    (entry : ModelNode) :
  ranked (dataModel this) (_store this) rank = true ->
  closed (dataModel this) (_store this) = true ->
  allHaveId (dataModel this) = true ->
  uniqueTargets (dataModel this) (_store this) = true ->
  rankedBelow (_store this) rank fuel = true ->
  firstWithRows (_store this) (sortModels (dataModel this)) = Some entry ->
  bool_decide (is_Some (models (dataModel this) !! modelName entry)) = true ->
  exists out, toSQL sortModels fuel this = Ok (Some out).
Proof.
  intros Hranked Hclosed HallId Hunique Hbelow Hfirst Hmodel.
  apply bool_decide_eq_true in Hmodel.
  destruct (firstWithRows_rows _ _ _ Hfirst) as (row & rest & Hrows).
  unfold toSQL, createStatements.
  rewrite (createStatements_loop_first _ _ _ _ _ _ _ Hfirst).
  cbn [createStatements_loop]. rewrite Hrows. cbn [length Nat.eqb].
  destruct (rows_succeed (dataModel this) (_store this) rank Hranked Hclosed
              HallId Hunique fuel (modelName entry) (row :: rest) Hrows Hmodel
              Hbelow (row :: rest) (freshCtx (dataModel this)))
    as [c' Hc'].
  - auto.
  - intros m [model Hm]. cbn [freshCtx inserted pending].
    rewrite !lookup_fmap, Hm. split; now eexists.
  - intros m l Hl. cbn [freshCtx pending] in Hl. rewrite lookup_fmap in Hl.
    destruct (models (dataModel this) !! m); simpl in Hl; [|discriminate].
    now inversion Hl.
  - rewrite Hc'. cbn [bind]. now eexists.
Qed.

Lemma synthesis_succeeds_witness :
  exists out,
    toSQL (sequenceOf ["customer"]) 2 Samples.referralChain = Ok (Some out).
Proof.
  apply (synthesis_succeeds (sequenceOf ["customer"]) 2 Samples.referralChain
           Samples.seniority
           {| modelName := "customer"; node := Samples.customer true |});
    vm_compute; reflexivity.
Defined.

(** ** The sequence fixes *)

Lemma jsMapSet_In {V : Type} (k : string) (v : V) (m : list (string * V))
    (kv : string * V) :
  In kv (jsMapSet k v m) -> kv = (k, v) \/ In kv m.
Proof.
  unfold jsMapSet. destruct (existsb _ m).
  - intros H. apply in_map_iff in H. destruct H as [[k0 v0] [E Hin]].
    simpl in E. destruct (String.eqb k0 k); [left; now symmetry|].
    right. now subst.
  - intros H. apply in_app_or in H. destruct H as [H|[H|[]]]; [now right|].
    left. now symmetry.
Qed.

Lemma jsMapOf_In {V : Type} (l : list (string * V)) (kv : string * V) :
  In kv (jsMapOf l) -> In kv l.
Proof.
  unfold jsMapOf.
  assert (G : forall acc,
             In kv (fold_left (fun m e => jsMapSet (fst e) (snd e) m) l acc) ->
             In kv acc \/ In kv l).
  { induction l as [|[k v] l IH]; intros acc H; simpl in *; [now left|].
    destruct (IH _ H) as [H'|H']; [|right; now right].
    apply jsMapSet_In in H'. destruct H' as [->|H']; [right; now left|now left]. }
  intros H. destruct (G [] H) as [[]|H']. exact H'.
Qed.

Lemma truthy_nonempty (s : string) : truthy s = true -> s <> "".
Proof.
  unfold truthy. intros H E. subst s. discriminate.
Qed.

(** X11.  Every sequence fix of a model stems from a field of the model
    bound to a sequence and sets that sequence from a column that INSERTs
    write: the column of a scalar field of the same name that is not both
    generated and not an id.  It names the schema and the table of the
    model, and none of the four names is empty. *)
Theorem sequence_fix_sound (model : DataModelModel) (s : statement) :
  In s (sequenceFixerStatements model) ->
  exists f seq owner,
    In f (fields model) /\ f_sequence f = Some seq
    /\ In (Scalar owner) (fields model) /\ s_name owner = f_name f
    /\ negb (isGenerated owner && negb (isId owner)) = true
    /\ s = SelectSetval (identifier seq) (columnName owner)
             (schemaName model) (tableName model)
    /\ identifier seq <> "" /\ columnName owner <> ""
    /\ schemaName model <> "" /\ tableName model <> "".
Proof.
  unfold sequenceFixerStatements, sequenceFields. intros Hs.
  apply list_elem_of_In, list_elem_of_omap in Hs. destruct Hs as (f & Hf & Hfix).
  apply list_elem_of_In, filter_In in Hf. destruct Hf as [Hf _].
  unfold sequenceFixerStatement in Hfix.
  destruct (jsMapGet (f_name f) (fieldToColumnMap model)) as [col|] eqn:Hcol;
    [|discriminate].
  destruct (f_sequence f) as [seq|] eqn:Hseq; [|discriminate].
  destruct (truthy col && truthy (schemaName model) && truthy (tableName model)
            && truthy (identifier seq)) eqn:Ht; [|discriminate].
  inversion Hfix; subst s; clear Hfix.
  apply andb_prop in Ht. destruct Ht as [Ht T4].
  apply andb_prop in Ht. destruct Ht as [Ht T3].
  apply andb_prop in Ht. destruct Ht as [T1 T2].
  apply jsMapGet_In, jsMapOf_In, in_map_iff in Hcol.
  destruct Hcol as ([k owner] & E & Hin). simpl in E. inversion E; subst col.
  apply jsMapOf_In, in_map_iff in Hin. destruct Hin as (owner' & E' & Hin).
  inversion E'; subst owner'. apply insertable_In in Hin.
  destruct Hin as [Hfield Hins].
  exists f, seq, owner. repeat split; try assumption;
    now apply truthy_nonempty.
Qed.

Lemma sequence_fix_sound_witness :
  exists f seq owner,
    In f (fields Samples.ticket) /\ f_sequence f = Some seq
    /\ In (Scalar owner) (fields Samples.ticket) /\ s_name owner = f_name f
    /\ negb (isGenerated owner && negb (isId owner)) = true
    /\ SelectSetval "public.ticket_id_seq" "id" "public" "ticket"
       = SelectSetval (identifier seq) (columnName owner)
           (schemaName Samples.ticket) (tableName Samples.ticket)
    /\ identifier seq <> "" /\ columnName owner <> ""
    /\ schemaName Samples.ticket <> "" /\ tableName Samples.ticket <> "".
Proof.
  apply sequence_fix_sound. vm_compute. now left.
Defined.

(** ** The flags the synthesis does not read *)

Lemma forEach_ext {A S : Type} (b1 b2 : A -> S -> result S) (xs : list A) :
  (forall x s, In x xs -> b1 x s = b2 x s) ->
  forall s, forEach b1 xs s = forEach b2 xs s.
Proof.
  induction xs as [|x xs IH]; intros E s; simpl; [reflexivity|].
  rewrite (E x s) by now left.
  destruct (b2 x s); simpl; try reflexivity.
  apply IH. intros y s' Hy. apply E. now right.
Qed.

Lemma forEach_map {A B S : Type} (g : A -> B) (b : B -> S -> result S)
    (xs : list A) (s : S) :
  forEach b (map g xs) s = forEach (fun x => b (g x)) xs s.
Proof.
  revert s. induction xs as [|x xs IH]; intros s; simpl; [reflexivity|].
  destruct (b (g x) s); simpl; auto.
Qed.

Lemma jsMapSet_values {V W : Type} (h : V -> W) (k : string) (v : V)
    (m : list (string * V)) :
  jsMapSet k (h v) (map (fun kv => (fst kv, h (snd kv))) m)
  = map (fun kv => (fst kv, h (snd kv))) (jsMapSet k v m).
Proof.
  unfold jsMapSet.
  replace (existsb (fun kv => String.eqb (fst kv) k)
             (map (fun kv => (fst kv, h (snd kv))) m))
    with (existsb (fun kv => String.eqb (fst kv) k) m)
    by (induction m as [|[k0 v0] m IH]; simpl; [reflexivity|now rewrite IH]).
  destruct (existsb _ m).
  - rewrite !map_map. apply map_ext. intros [k0 v0]. simpl.
    now destruct (String.eqb k0 k).
  - now rewrite map_app.
Qed.

Lemma jsMapOf_values {V W : Type} (h : V -> W) (l : list (string * V)) :
  jsMapOf (map (fun kv => (fst kv, h (snd kv))) l)
  = map (fun kv => (fst kv, h (snd kv))) (jsMapOf l).
Proof.
  unfold jsMapOf.
  change (@nil (string * W))
    with (map (fun kv : string * V => (fst kv, h (snd kv))) []) at 1.
  generalize (@nil (string * V)) as acc.
  induction l as [|[k v] l IH]; intros acc; simpl; [reflexivity|].
  rewrite jsMapSet_values. apply IH.
Qed.

Section Reflag.
Variable d : DataModelScalarField -> bool.
Variable n : DataModelObjectField -> bool.

Lemma reflag_rowIdFields (model : DataModelModel) (row : ModelData) :
  rowIdFields (reflagModel d n model) row = rowIdFields model row.
Proof.
  unfold rowIdFields, reflagModel. cbn [fields].
  induction (fields model) as [|f fs IH]; simpl; [reflexivity|].
  destruct f as [s|o]; simpl; [destruct (isId s); simpl|]; now rewrite ?IH.
Qed.

Lemma reflag_parents (fs : list DataModelField) :
  snd (groupFields (map (reflagField d n) fs))
  = map (fun o => {| o_name := o_name o; o_type := o_type o;
                     relationFromFields := relationFromFields o;
                     relationToFields := relationToFields o;
                     nullable := n o |})
        (snd (groupFields fs)).
Proof.
  unfold groupFields. cbn [snd].
  induction fs as [|f fs IH]; simpl; [reflexivity|].
  destruct f as [s|o]; simpl in *; [exact IH|f_equal; exact IH].
Qed.

Lemma reflag_insertStatement (model : DataModelModel) (row : ModelData) :
  insertStatement (reflagModel d n model) row = insertStatement model row.
Proof.
  unfold insertStatement, reflagModel, groupFields.
  cbn [fields fst schemaName tableName].
  f_equal.
  - f_equal. f_equal.
    induction (fields model) as [|f fs IH]; simpl; [reflexivity|].
    destruct f as [s|o]; simpl; [|exact IH].
    destruct (isGenerated s && isId s); simpl; now rewrite IH.
  - induction (fields model) as [|f fs IH]; simpl; [reflexivity|].
    destruct f as [s|o]; simpl in *; [f_equal; exact IH|exact IH].
  - induction (fields model) as [|f fs IH]; simpl; [reflexivity|].
    destruct f as [s|o]; simpl in *; [f_equal; exact IH|exact IH].
Qed.

Lemma reflag_insertable (fs : list DataModelField) :
  map (fun s => (s_name s, (s_name s, columnName s)))
      (omap insertable (map (reflagField d n) fs))
  = map (fun s => (s_name s, (s_name s, columnName s))) (omap insertable fs).
Proof.
  induction fs as [|f fs IH]; simpl; [reflexivity|].
  destruct f as [s|o]; simpl in *; [|exact IH].
  destruct (negb (isGenerated s && negb (isId s))); simpl in *;
    [f_equal|]; exact IH.
Qed.

Lemma fieldToColumnMap_names (model : DataModelModel) :
  fieldToColumnMap model
  = jsMapOf (map snd (jsMapOf (map (fun s => (s_name s, (s_name s, columnName s)))
                                   (omap insertable (fields model))))).
Proof.
  unfold fieldToColumnMap, fieldMap.
  pose proof (jsMapOf_values (fun s => (s_name s, columnName s))
                (map (fun s => (s_name s, s)) (omap insertable (fields model))))
    as E.
  rewrite map_map in E. cbn [fst snd] in E. rewrite E, map_map. reflexivity.
Qed.

Lemma reflag_fieldToColumnMap (model : DataModelModel) :
  fieldToColumnMap (reflagModel d n model) = fieldToColumnMap model.
Proof.
  rewrite !fieldToColumnMap_names. unfold reflagModel. cbn [fields].
  now rewrite reflag_insertable.
Qed.

Lemma reflag_sequenceFixerStatements (model : DataModelModel) :
  sequenceFixerStatements (reflagModel d n model)
  = sequenceFixerStatements model.
Proof.
  unfold sequenceFixerStatements, sequenceFields, sequenceFixerStatement.
  rewrite reflag_fieldToColumnMap.
  unfold reflagModel. cbn [fields schemaName tableName].
  induction (fields model) as [|f fs IH]; simpl; [reflexivity|].
  destruct f as [s|o]; simpl in *; [|exact IH].
  destruct (bool_decide (is_Some (sequence s))); simpl in *; [|exact IH].
  destruct (jsMapGet (s_name s) (fieldToColumnMap model)) as [col|];
    [|exact IH].
  destruct (sequence s) as [seq|]; [|exact IH].
  destruct (truthy col && truthy (schemaName model) && truthy (tableName model)
            && truthy (identifier seq)); [f_equal|]; exact IH.
Qed.

Lemma reflag_freshCtx (dm : DataModel) : freshCtx (reflag d n dm) = freshCtx dm.
Proof.
  unfold freshCtx, reflag. cbn [models].
  now rewrite <- !map_fmap_compose.
Qed.

Lemma reflag_createStatement (dm : DataModel)
    (store : gmap string (list ModelData)) (fuel : nat) :
  forall m row c,
    createStatement (reflag d n dm) store fuel m row c
    = createStatement dm store fuel m row c.
Proof.
  induction fuel as [|fuel IH]; intros m row c; [reflexivity|].
  cbn [createStatement]. unfold createStatement_body, reflag. cbn [models].
  rewrite lookup_fmap.
  destruct (models dm !! m) as [model|]; [|reflexivity].
  cbn [fmap option_fmap option_map].
  rewrite reflag_rowIdFields, reflag_insertStatement.
  destruct (inserted c !! m) as [ins|]; [|reflexivity].
  destruct (existsb _ ins); [reflexivity|].
  destruct (pending c !! m) as [pend|]; [|reflexivity].
  change (fields (reflagModel d n model))
    with (map (reflagField d n) (fields model)).
  rewrite reflag_parents, forEach_map.
  rewrite (forEach_ext _ (resolveParent store (createStatement dm store fuel) row));
    [reflexivity|].
  intros p s _. unfold resolveParent, parentIdFields.
  cbn [o_type relationFromFields relationToFields].
  destruct (allNull _); [reflexivity|].
  destruct (store !! o_type p) as [rows|]; [|reflexivity].
  destruct (List.find _ rows) as [parentRow|]; [|reflexivity].
  destruct (pending s !! o_type p) as [pend'|]; [|reflexivity].
  destruct (existsb _ pend'); [reflexivity|].
  apply (IH (o_type p) parentRow s).
Qed.

Lemma reflag_loop (dm : DataModel) (store : gmap string (list ModelData))
    (fuel : nat) (c : Ctx) (fixers : list statement) (entries : list ModelNode) :
  createStatements_loop (reflag d n dm) store fuel c fixers
    (map (reflagNode d n) entries)
  = createStatements_loop dm store fuel c fixers entries.
Proof.
  induction entries as [|entry rest IH]; simpl; [reflexivity|].
  destruct (store !! modelName entry) as [rows|]; [|reflexivity].
  destruct (Nat.eqb (length rows) 0); [exact IH|].
  rewrite reflag_sequenceFixerStatements.
  rewrite (forEach_ext _ (createStatement dm store fuel (modelName entry)));
    [reflexivity|].
  intros row s _. apply reflag_createStatement.
Qed.
End Reflag.

(** X12.  The flags reach the outcome only through the sequencer.  The
    resolution of a row reads neither the nullability of a relation nor
    whether a column has a default: on the data model with these two flags
    set in any other way, field by field, [createStatement] ends the same
    way in every context.  So does [toSQL], provided the sequencer returns
    for the changed data model the order it returns for the original one
    (the same model names with the changed descriptors). *)
Theorem flags_not_read (d : DataModelScalarField -> bool)
    (n : DataModelObjectField -> bool)
    (sortModels : DataModel -> list ModelNode) (fuel : nat) (this : PgStore) :
  sortModels (reflag d n (dataModel this))
  = map (reflagNode d n) (sortModels (dataModel this)) ->
  toSQL sortModels fuel
    {| dataModel := reflag d n (dataModel this); _store := _store this |}
  = toSQL sortModels fuel this
  /\ forall m row c,
       createStatement (reflag d n (dataModel this)) (_store this) fuel m row c
       = createStatement (dataModel this) (_store this) fuel m row c.
Proof.
  intros Horder. split.
  - unfold toSQL, createStatements. cbn [dataModel _store].
    rewrite Horder, reflag_freshCtx. apply reflag_loop.
  - apply reflag_createStatement.
Qed.

Lemma flags_not_read_witness :
  toSQL (sequenceOf ["customer"]) 3
    {| dataModel := reflag (fun _ => true) (fun _ => false)
                      (dataModel (Samples.referrals true));
       _store := _store (Samples.referrals true) |}
  = toSQL (sequenceOf ["customer"]) 3 (Samples.referrals true).
Proof.
  apply (flags_not_read (fun _ => true) (fun _ => false)
           (sequenceOf ["customer"]) 3 (Samples.referrals true)).
  vm_compute. reflexivity.
Defined.

(** * The calls of [toSQL] share nothing *)

Lemma prefix_insert_beyond {A : Type} (l0 l : list A) (i : nat) (x : A) :
  l0 `prefix_of` l -> length l0 <= i -> l0 `prefix_of` <[i := x]> l.
Proof.
  intros [k ->] Hi. exists (<[i - length l0 := x]> k).
  apply insert_app_r_alt. lia.
Qed.

Lemma extends_refl (h : Imperative.heap) : Imperative.extends h h.
Proof. repeat split; reflexivity. Qed.

Lemma extends_trans (h1 h2 h3 : Imperative.heap) :
  Imperative.extends h1 h2 -> Imperative.extends h2 h3 ->
  Imperative.extends h1 h3.
Proof.
  intros (A1 & R1 & T1) (A2 & R2 & T2).
  repeat split; etransitivity; eassumption.
Qed.

Lemma view_lookup (h : Imperative.heap) (d : gmap string nat) (k : string) :
  Imperative.view h d !! k = d !! k ≫= (fun a => Imperative.arrays h !! a).
Proof. unfold Imperative.view. apply lookup_omap. Qed.

Lemma view_frame (h h' : Imperative.heap) (d : gmap string nat) :
  (forall k a, d !! k = Some a ->
               Imperative.arrays h' !! a = Imperative.arrays h !! a) ->
  Imperative.view h' d = Imperative.view h d.
Proof.
  intros H. apply map_eq. intros k. rewrite !view_lookup.
  destruct (d !! k) as [a|] eqn:E; simpl; [|reflexivity]. now apply (H k).
Qed.

Lemma view_written (h h' : Imperative.heap) (d : gmap string nat)
    (k : string) (a : nat) (rows : list ModelData) :
  d !! k = Some a -> unshared d -> a < length (Imperative.arrays h) ->
  Imperative.arrays h' = <[a := rows]> (Imperative.arrays h) ->
  Imperative.view h' d = <[k := rows]> (Imperative.view h d).
Proof.
  intros Hk Hinj Ha Hh. apply map_eq. intros k'.
  destruct (decide (k' = k)) as [->|Hne].
  - rewrite lookup_insert_eq, view_lookup, Hk. simpl. rewrite Hh.
    now apply list_lookup_insert_eq.
  - rewrite lookup_insert_ne by congruence. rewrite !view_lookup.
    destruct (d !! k') as [a'|] eqn:E; simpl; [|reflexivity].
    rewrite Hh. apply list_lookup_insert_ne. intros ->.
    apply Hne. eapply Hinj; eassumption.
Qed.

Lemma view_assigned (h h' : Imperative.heap) (d : gmap string nat)
    (k : string) (rows : list ModelData) :
  (forall k' a, d !! k' = Some a -> a < length (Imperative.arrays h)) ->
  Imperative.arrays h' = Imperative.arrays h ++ [rows] ->
  Imperative.view h' (<[k := length (Imperative.arrays h)]> d)
  = <[k := rows]> (Imperative.view h d).
Proof.
  intros Hd Hh. apply map_eq. intros k'. rewrite view_lookup.
  destruct (decide (k' = k)) as [->|Hne].
  - rewrite !lookup_insert_eq. simpl. rewrite Hh.
    rewrite lookup_app_r by lia. now rewrite Nat.sub_diag.
  - rewrite !lookup_insert_ne by congruence. rewrite view_lookup.
    destruct (d !! k') as [a'|] eqn:E; simpl; [|reflexivity].
    rewrite Hh. apply lookup_app_l. eapply Hd. eassumption.
Qed.

Lemma member_view (h : Imperative.heap) (r : nat) (d : gmap string nat)
    (k : string) :
  Imperative.records h !! r = Some d ->
  match Imperative.view h d !! k with
  | Some rows =>
      exists a, d !! k = Some a /\ Imperative.arrays h !! a = Some rows
                /\ Imperative.member r k h = (Ok (a, rows), h)
  | None => Imperative.member r k h = (Throw TypeError, h)
  end.
Proof.
  intros Hr. rewrite view_lookup. unfold Imperative.member. rewrite Hr. simpl.
  destruct (d !! k) as [a|]; simpl; [|reflexivity].
  destruct (Imperative.arrays h !! a) as [rows|] eqn:E; [|reflexivity].
  exists a. now rewrite E.
Qed.

Section Simulation.
Variable dataModel : DataModel.
Variable h0 : Imperative.heap.
Variable ctx : Imperative.Refs.
Variable fixers : nat.
Variable di ds : gmap string nat.
Variable store : gmap string (list ModelData).
Hypothesis Hstore :
  Imperative.records h0 !! Imperative.r_store ctx = Some ds.
Hypothesis Hds :
  forall k a, ds !! k = Some a -> a < length (Imperative.arrays h0).
Hypothesis Hview : store = Imperative.view h0 ds.

Lemma extends_store (h : Imperative.heap) :
  Imperative.extends h0 h ->
  Imperative.records h !! Imperative.r_store ctx = Some ds
  /\ Imperative.view h ds = store.
Proof.
  intros (HA & HR & _). split.
  - eapply prefix_lookup_Some; eassumption.
  - rewrite Hview. apply view_frame. intros k a Hk.
    destruct HA as [ext ->]. apply lookup_app_l. eapply Hds. eassumption.
Qed.

Lemma rep_push_pending (fx : list statement) (h : Imperative.heap) (c : Ctx)
    (m : string) (pend : list ModelData) (row : ModelData) :
  Rep h0 ctx fixers di fx h c -> pending c !! m = Some pend ->
  exists a h',
    Imperative.member (Imperative.r_pending ctx) m h = (Ok (a, pend), h)
    /\ Imperative.push a row h = (Ok tt, h')
    /\ Rep h0 ctx fixers di fx h'
         {| inserted := inserted c;
            pending := <[m := pend ++ [row]]> (pending c);
            statements := statements c |}.
Proof.
  intros [Hext Hrec Htx Hst Hfx (Hi & Hiv & Hio & Hii)
            (dp & Hp & Hpv & Hpo & Hpi & Hap)] Hm.
  pose proof (member_view h _ dp m Hp) as Hmem. rewrite Hpv, Hm in Hmem.
  destruct Hmem as (a & Hda & Ha & Hmem).
  exists a. eexists. split; [exact Hmem|].
  unfold Imperative.push. rewrite Ha. split; [reflexivity|].
  destruct (Hpo _ _ Hda) as [Hlo Hhi].
  constructor; cbn [Imperative.arrays Imperative.records Imperative.texts
                    inserted pending statements]; try assumption.
  - destruct Hext as (HA & HR & HT). split; [|split; assumption].
    cbn [Imperative.arrays]. now apply prefix_insert_beyond.
  - split; [exact Hi|]. split; [|split; [|exact Hii]].
    + rewrite <- Hiv. apply view_frame. intros k a' Hk.
      cbn [Imperative.arrays]. apply list_lookup_insert_ne. intros ->.
      eapply Hap; eassumption.
    + intros k a' Hk. cbn [Imperative.arrays]. rewrite length_insert.
      now apply (Hio k).
  - exists dp. split; [exact Hp|]. split; [|split; [|split; assumption]].
    + rewrite <- Hpv. now apply (view_written h _ dp m a).
    + intros k a' Hk. cbn [Imperative.arrays]. rewrite length_insert.
      now apply (Hpo k).
Qed.

Lemma rep_push_inserted (fx : list statement) (h : Imperative.heap) (c : Ctx)
    (m : string) (ins : list ModelData) (row : ModelData) :
  Rep h0 ctx fixers di fx h c -> inserted c !! m = Some ins ->
  exists a h',
    Imperative.member (Imperative.r_inserted ctx) m h = (Ok (a, ins), h)
    /\ Imperative.push a row h = (Ok tt, h')
    /\ Rep h0 ctx fixers di fx h'
         {| inserted := <[m := ins ++ [row]]> (inserted c);
            pending := pending c;
            statements := statements c |}.
Proof.
  intros [Hext Hrec Htx Hst Hfx (Hi & Hiv & Hio & Hii)
            (dp & Hp & Hpv & Hpo & Hpi & Hap)] Hm.
  pose proof (member_view h _ di m Hi) as Hmem. rewrite Hiv, Hm in Hmem.
  destruct Hmem as (a & Hda & Ha & Hmem).
  exists a. eexists. split; [exact Hmem|].
  unfold Imperative.push. rewrite Ha. split; [reflexivity|].
  destruct (Hio _ _ Hda) as [Hlo Hhi].
  constructor; cbn [Imperative.arrays Imperative.records Imperative.texts
                    inserted pending statements]; try assumption.
  - destruct Hext as (HA & HR & HT). split; [|split; assumption].
    cbn [Imperative.arrays]. now apply prefix_insert_beyond.
  - split; [exact Hi|]. split; [|split; [|exact Hii]].
    + rewrite <- Hiv. now apply (view_written h _ di m a).
    + intros k a' Hk. cbn [Imperative.arrays]. rewrite length_insert.
      now apply (Hio k).
  - exists dp. split; [exact Hp|]. split; [|split; [|split; assumption]].
    + rewrite <- Hpv. apply view_frame. intros k a' Hk.
      cbn [Imperative.arrays]. apply list_lookup_insert_ne. intros ->.
      eapply Hap; eassumption.
    + intros k a' Hk. cbn [Imperative.arrays]. rewrite length_insert.
      now apply (Hpo k).
Qed.

Lemma rep_pushText (fx : list statement) (h : Imperative.heap) (c : Ctx)
    (s : statement) :
  Rep h0 ctx fixers di fx h c ->
  exists h',
    Imperative.pushText (Imperative.r_statements ctx) s h = (Ok tt, h')
    /\ Rep h0 ctx fixers di fx h'
         {| inserted := inserted c; pending := pending c;
            statements := statements c ++ [s] |}.
Proof.
  intros [Hext Hrec Htx Hst Hfx Hi Hp].
  unfold Imperative.pushText. rewrite Hst. eexists. split; [reflexivity|].
  destruct Htx as (Ht1 & Ht2 & Ht3).
  constructor; cbn [Imperative.arrays Imperative.records Imperative.texts
                    inserted pending statements]; try assumption.
  - destruct Hext as (HA & HR & HT). split; [exact HA|]. split; [exact HR|].
    cbn [Imperative.texts]. now apply prefix_insert_beyond.
  - now split.
  - apply list_lookup_insert_eq. eapply lookup_lt_Some. eassumption.
  - rewrite list_lookup_insert_ne by congruence. exact Hfx.
Qed.

Lemma rep_filter (fx : list statement) (h : Imperative.heap) (c : Ctx)
    (m : string) (pend kept : list ModelData) :
  Rep h0 ctx fixers di fx h c -> pending c !! m = Some pend ->
  exists a h1 h2,
    Imperative.member (Imperative.r_pending ctx) m h = (Ok (a, pend), h)
    /\ Imperative.newArray kept h = (Ok (length (Imperative.arrays h)), h1)
    /\ Imperative.assign (Imperative.r_pending ctx) m
         (length (Imperative.arrays h)) h1 = (Ok tt, h2)
    /\ Rep h0 ctx fixers di fx h2
         {| inserted := inserted c;
            pending := <[m := kept]> (pending c);
            statements := statements c |}.
Proof.
  intros [Hext Hrec Htx Hst Hfx (Hi & Hiv & Hio & Hii)
            (dp & Hp & Hpv & Hpo & Hpi & Hap)] Hm.
  pose proof (member_view h _ dp m Hp) as Hmem. rewrite Hpv, Hm in Hmem.
  destruct Hmem as (a & Hda & Ha & Hmem).
  exists a. eexists. eexists. split; [exact Hmem|].
  split; [reflexivity|].
  unfold Imperative.assign. cbn [Imperative.records]. rewrite Hp.
  split; [reflexivity|].
  destruct Hrec as (Hr1 & Hr2 & Hr3).
  constructor; cbn [Imperative.arrays Imperative.records Imperative.texts
                    inserted pending statements]; try assumption.
  - destruct Hext as (HA & HR & HT). split; [|split; [|exact HT]].
    + cbn [Imperative.arrays]. now apply prefix_app_r.
    + cbn [Imperative.records]. now apply prefix_insert_beyond.
  - now split.
  - split; [|split; [|split; [|exact Hii]]].
    + rewrite list_lookup_insert_ne by congruence. exact Hi.
    + rewrite <- Hiv. apply view_frame. intros k a' Hk.
      cbn [Imperative.arrays]. apply lookup_app_l. now apply (Hio k).
    + intros k a' Hk. cbn [Imperative.arrays]. rewrite length_app. simpl.
      destruct (Hio k a' Hk). lia.
  - exists (<[m := length (Imperative.arrays h)]> dp).
    split; [|split; [|split; [|split]]].
    + apply list_lookup_insert_eq. eapply lookup_lt_Some. eassumption.
    + rewrite <- Hpv. apply view_assigned; [|reflexivity].
      intros k a' Hk. now apply (Hpo k).
    + intros k a' Hk. cbn [Imperative.arrays]. rewrite length_app. simpl.
      destruct (decide (k = m)) as [->|Hne].
      * rewrite lookup_insert_eq in Hk. inversion Hk; subst a'.
        destruct (Hpo _ _ Hda). lia.
      * rewrite lookup_insert_ne in Hk by congruence.
        destruct (Hpo k a' Hk). lia.
    + intros k k' a' Hk Hk'.
      destruct (decide (k = m)) as [->|Hne];
        destruct (decide (k' = m)) as [->|Hne']; [reflexivity| | |].
      * rewrite lookup_insert_eq in Hk. inversion Hk; subst a'.
        rewrite lookup_insert_ne in Hk' by congruence.
        destruct (Hpo k' _ Hk'). lia.
      * rewrite lookup_insert_eq in Hk'. inversion Hk'; subst a'.
        rewrite lookup_insert_ne in Hk by congruence.
        destruct (Hpo k _ Hk). lia.
      * rewrite lookup_insert_ne in Hk by congruence.
        rewrite lookup_insert_ne in Hk' by congruence.
        eapply Hpi; eassumption.
    + intros k k' a' Hk Hk'.
      destruct (decide (k' = m)) as [->|Hne].
      * rewrite lookup_insert_eq in Hk'. inversion Hk'; subst a'.
        destruct (Hio k _ Hk). lia.
      * rewrite lookup_insert_ne in Hk' by congruence.
        eapply Hap; eassumption.
Qed.

Lemma forEachM_sim {A : Type} (fx : list statement)
    (pure : A -> Ctx -> result Ctx) (imp : A -> Imperative.M unit)
    (xs : list A) :
  (forall x h c, In x xs -> Rep h0 ctx fixers di fx h c ->
                 sim (Rep h0 ctx fixers di fx) (Imperative.extends h0)
                   (pure x c) (imp x h)) ->
  forall h c, Rep h0 ctx fixers di fx h c ->
              sim (Rep h0 ctx fixers di fx) (Imperative.extends h0)
                (forEach pure xs c) (Imperative.forEachM imp xs h).
Proof.
  induction xs as [|x xs IH]; intros Hbody h c Hrep; simpl.
  - split; [now exists tt|exact Hrep].
  - specialize (Hbody x h c (or_introl eq_refl) Hrep) as Hx.
    unfold Imperative.bindM.
    destruct (pure x c) as [c'| |]; simpl in *;
      destruct (imp x h) as [r h']; simpl in *.
    + destruct Hx as [[[] ->] Hrep']. apply IH; [|exact Hrep'].
      intros y h2 c2 Hy. apply Hbody. now right.
    + destruct Hx as [-> Hext]. now split.
    + destruct Hx as [-> Hext]. now split.
Qed.

Lemma resolveParent_sim (fx : list statement)
    (rec : string -> ModelData -> Ctx -> result Ctx)
    (recM : string -> ModelData -> Imperative.M unit) (row : ModelData)
    (parent : DataModelObjectField) :
  (forall m r h c, Rep h0 ctx fixers di fx h c ->
                   sim (Rep h0 ctx fixers di fx) (Imperative.extends h0)
                     (rec m r c) (recM m r h)) ->
  forall h c, Rep h0 ctx fixers di fx h c ->
              sim (Rep h0 ctx fixers di fx) (Imperative.extends h0)
                (resolveParent store rec row parent c)
                (Imperative.resolveParent ctx recM row parent h).
Proof.
  intros Hrec h c Hrep.
  unfold resolveParent, Imperative.resolveParent.
  destruct (allNull _); [split; [now exists tt|exact Hrep]|].
  pose proof (rep_ext _ _ _ _ _ _ _ Hrep) as Hext.
  destruct (extends_store h Hext) as [Hs Hsv].
  pose proof (member_view h _ ds (o_type parent) Hs) as Hmem.
  rewrite Hsv in Hmem. unfold Imperative.bindM.
  destruct (store !! o_type parent) as [rows|].
  - destruct Hmem as (a & _ & _ & ->). cbn [snd].
    destruct (List.find _ rows) as [parentRow|];
      [|split; [now exists tt|exact Hrep]].
    destruct (rep_pending _ _ _ _ _ _ _ Hrep) as (dp & Hp & Hpv & _).
    pose proof (member_view h _ dp (o_type parent) Hp) as Hmem.
    rewrite Hpv in Hmem.
    destruct (pending c !! o_type parent) as [pend|].
    + destruct Hmem as (a' & _ & _ & ->). cbn [snd].
      destruct (existsb _ pend); [now split|]. now apply Hrec.
    + rewrite Hmem. now split.
  - rewrite Hmem. now split.
Qed.

Lemma createStatement_sim (fx : list statement) (fuel : nat) :
  forall m row h c,
    Rep h0 ctx fixers di fx h c ->
    sim (Rep h0 ctx fixers di fx) (Imperative.extends h0)
      (createStatement dataModel store fuel m row c)
      (Imperative.createStatement dataModel ctx fuel m row h).
Proof.
  induction fuel as [|fuel IH]; intros m row h c Hrep.
  - split; [reflexivity|]. eapply rep_ext. exact Hrep.
  - cbn [createStatement Imperative.createStatement].
    unfold createStatement_body, Imperative.createStatement_body.
    pose proof (rep_ext _ _ _ _ _ _ _ Hrep) as Hext.
    destruct (models dataModel !! m) as [model|]; [|now split].
    destruct (rep_inserted _ _ _ _ _ _ _ Hrep) as (Hi & Hiv & _).
    pose proof (member_view h _ di m Hi) as Hmem. rewrite Hiv in Hmem.
    unfold Imperative.bindM at 1.
    destruct (inserted c !! m) as [ins|]; [|rewrite Hmem; now split].
    destruct Hmem as (a & _ & _ & ->). cbn [snd].
    destruct (existsb _ ins); [split; [now exists tt|exact Hrep]|].
    unfold Imperative.bindM at 1.
    destruct (rep_pending _ _ _ _ _ _ _ Hrep) as (dp & Hp & Hpv & _).
    pose proof (member_view h _ dp m Hp) as Hmem. rewrite Hpv in Hmem.
    destruct (pending c !! m) as [pend|] eqn:Hpend;
      [|rewrite Hmem; now split].
    clear Hmem.
    destruct (rep_push_pending fx h c m pend row Hrep Hpend)
      as (ap & h1 & -> & Hpush & Hrep1).
    cbn [fst]. unfold Imperative.bindM at 1. rewrite Hpush.
    pose proof (forEachM_sim fx
                  (resolveParent store (createStatement dataModel store fuel)
                     row)
                  (Imperative.resolveParent ctx
                     (Imperative.createStatement dataModel ctx fuel) row)
                  (snd (groupFields (fields model)))
                  (fun p h' c' _ Hr =>
                     resolveParent_sim fx _ _ row p IH h' c' Hr)
                  h1 _ Hrep1) as Hloop.
    unfold Imperative.bindM at 1.
    destruct (forEach _ _ _) as [c2| |]; simpl in Hloop;
      destruct (Imperative.forEachM _ _ h1) as [r h2]; simpl in Hloop;
      [|destruct Hloop as [-> Hx]; now split
       |destruct Hloop as [-> Hx]; now split].
    destruct Hloop as [[[] ->] Hrep2]. cbn [bind].
    destruct (rep_pushText fx h2 c2 (insertStatement model row) Hrep2)
      as (h3 & Hpt & Hrep3).
    unfold Imperative.bindM at 1. rewrite Hpt.
    unfold Imperative.bindM at 1.
    destruct (pending c2 !! m) as [pend2|] eqn:Hpend2.
    + destruct (rep_filter fx h3 _ m pend2
                  (List.filter (every_ne (rowIdFields model row)) pend2)
                  Hrep3 Hpend2)
        as (a2 & h4 & h5 & -> & Hnew & Hassign & Hrep5).
      cbn [snd]. unfold Imperative.bindM at 1. rewrite Hnew.
      unfold Imperative.bindM at 1. rewrite Hassign.
      unfold Imperative.bindM at 1.
      cbn [inserted pending statements] in Hrep5.
      destruct (inserted c2 !! m) as [ins2|] eqn:Hins2.
      * destruct (rep_push_inserted fx h5 _ m ins2 row Hrep5 Hins2)
          as (a3 & h6 & -> & Hpush6 & Hrep6).
        cbn [fst]. rewrite Hpush6. split; [now exists tt|exact Hrep6].
      * destruct (rep_inserted _ _ _ _ _ _ _ Hrep5) as (Hi5 & Hiv5 & _).
        pose proof (member_view h5 _ di m Hi5) as Hmem.
        rewrite Hiv5 in Hmem. cbn [inserted] in Hmem.
        rewrite Hins2 in Hmem. rewrite Hmem.
        split; [reflexivity|]. eapply rep_ext. exact Hrep5.
    + destruct (rep_pending _ _ _ _ _ _ _ Hrep3) as (dp3 & Hp3 & Hpv3 & _).
      pose proof (member_view h3 _ dp3 m Hp3) as Hmem.
      rewrite Hpv3 in Hmem. cbn [pending] in Hmem.
      rewrite Hpend2 in Hmem. rewrite Hmem.
      split; [reflexivity|]. eapply rep_ext. exact Hrep3.
Qed.

Lemma rep_pushFixers (fx : list statement) (h : Imperative.heap) (c : Ctx)
    (new : list statement) :
  Rep h0 ctx fixers di fx h c ->
  exists h',
    Imperative.forEachM (Imperative.pushText fixers) new h = (Ok tt, h')
    /\ Rep h0 ctx fixers di (fx ++ new) h' c.
Proof.
  revert fx h. induction new as [|s new IH]; intros fx h Hrep; simpl.
  - exists h. rewrite app_nil_r. now split.
  - destruct Hrep as [Hext Hrec Htx Hst Hfx Hi Hp].
    unfold Imperative.bindM, Imperative.pushText. rewrite Hfx.
    destruct Htx as (Ht1 & Ht2 & Ht3).
    replace (fx ++ s :: new) with ((fx ++ [s]) ++ new)
      by (rewrite <- app_assoc; reflexivity).
    apply IH.
    constructor; cbn [Imperative.arrays Imperative.records Imperative.texts];
      try assumption.
    + destruct Hext as (HA & HR & HT). split; [exact HA|]. split; [exact HR|].
      cbn [Imperative.texts]. now apply prefix_insert_beyond.
    + now split.
    + rewrite list_lookup_insert_ne by congruence. exact Hst.
    + apply list_lookup_insert_eq. eapply lookup_lt_Some. eassumption.
Qed.

Lemma createStatements_loop_sim (fuel : nat) (entries : list ModelNode) :
  forall fx h c,
    Rep h0 ctx fixers di fx h c ->
    ends h0 (createStatements_loop dataModel store fuel c fx entries)
      (Imperative.createStatements_loop dataModel fuel ctx fixers entries h).
Proof.
  induction entries as [|entry rest IH]; intros fx h c Hrep; simpl.
  - split; [reflexivity|]. eapply rep_ext. exact Hrep.
  - pose proof (rep_ext _ _ _ _ _ _ _ Hrep) as Hext.
    destruct (extends_store h Hext) as [Hs Hsv].
    pose proof (member_view h _ ds (modelName entry) Hs) as Hmem.
    rewrite Hsv in Hmem. unfold Imperative.bindM at 1.
    destruct (store !! modelName entry) as [rows|];
      [|rewrite Hmem; now split].
    destruct Hmem as (a & _ & _ & ->). cbn [snd].
    destruct (Nat.eqb (length rows) 0); [now apply IH|].
    destruct (rep_pushFixers fx h c (sequenceFixerStatements (node entry))
                Hrep) as (h1 & Hfix & Hrep1).
    unfold Imperative.bindM at 1. rewrite Hfix.
    pose proof (forEachM_sim _
                  (createStatement dataModel store fuel (modelName entry))
                  (Imperative.createStatement dataModel ctx fuel
                     (modelName entry))
                  rows
                  (fun r h' c' _ Hr =>
                     createStatement_sim _ fuel (modelName entry) r h' c' Hr)
                  h1 c Hrep1) as Hloop.
    unfold Imperative.bindM at 1.
    destruct (forEach _ rows c) as [c2| |]; simpl in Hloop;
      destruct (Imperative.forEachM _ rows h1) as [r h2]; simpl in Hloop;
      [|destruct Hloop as [-> Hx]; now split
       |destruct Hloop as [-> Hx]; now split].
    destruct Hloop as [[[] ->] Hrep2].
    unfold Imperative.bindM, Imperative.readText.
    rewrite (rep_statements _ _ _ _ _ _ _ Hrep2).
    rewrite (rep_fixers _ _ _ _ _ _ _ Hrep2).
    split; [reflexivity|]. eapply rep_ext. exact Hrep2.
Qed.
End Simulation.

Lemma emptyArrays_blank (lo : nat) (keys : list string) :
  forall d h,
    blank lo h d -> lo <= length (Imperative.arrays h) ->
    (forall k a, d !! k = Some a -> a < length (Imperative.arrays h)) ->
    exists d' ext,
      Imperative.emptyArrays keys d h
      = (Ok d', {| Imperative.arrays := Imperative.arrays h ++ ext;
                   Imperative.records := Imperative.records h;
                   Imperative.texts := Imperative.texts h |})
      /\ blank lo {| Imperative.arrays := Imperative.arrays h ++ ext;
                     Imperative.records := Imperative.records h;
                     Imperative.texts := Imperative.texts h |} d'
      /\ (forall k a, d' !! k = Some a ->
                      a < length (Imperative.arrays h ++ ext))
      /\ forall k, is_Some (d' !! k) <-> In k keys \/ is_Some (d !! k).
Proof.
  induction keys as [|key keys IH]; intros d h [Hb Hu] Hlo Hlt; simpl.
  - exists d, []. rewrite app_nil_r. destruct h as [ar re te]. simpl in *.
    split; [reflexivity|]. split; [now split|]. split; [exact Hlt|].
    intros k. tauto.
  - unfold Imperative.bindM, Imperative.newArray.
    edestruct (IH (<[key := length (Imperative.arrays h)]> d)
                 {| Imperative.arrays := Imperative.arrays h ++ [[]];
                    Imperative.records := Imperative.records h;
                    Imperative.texts := Imperative.texts h |})
      as (d' & ext & Hrun & Hblank & Hlt' & Hdom).
    + split.
      * intros k a Hk. cbn [Imperative.arrays].
        destruct (decide (k = key)) as [->|Hne].
        -- rewrite lookup_insert_eq in Hk. inversion Hk; subst a.
           split; [exact Hlo|]. rewrite lookup_app_r by lia.
           now rewrite Nat.sub_diag.
        -- rewrite lookup_insert_ne in Hk by congruence.
           destruct (Hb k a Hk) as [H1 H2]. split; [exact H1|].
           now apply lookup_app_l_Some.
      * intros k k' a Hk Hk'.
        destruct (decide (k = key)) as [->|Hne];
          destruct (decide (k' = key)) as [->|Hne']; [reflexivity| | |].
        -- rewrite lookup_insert_eq in Hk. inversion Hk; subst a.
           rewrite lookup_insert_ne in Hk' by congruence.
           specialize (Hlt _ _ Hk'). lia.
        -- rewrite lookup_insert_eq in Hk'. inversion Hk'; subst a.
           rewrite lookup_insert_ne in Hk by congruence.
           specialize (Hlt _ _ Hk). lia.
        -- rewrite lookup_insert_ne in Hk by congruence.
           rewrite lookup_insert_ne in Hk' by congruence.
           eapply Hu; eassumption.
    + cbn [Imperative.arrays]. rewrite length_app. simpl. lia.
    + intros k a Hk. cbn [Imperative.arrays]. rewrite length_app. simpl.
      destruct (decide (k = key)) as [->|Hne].
      * rewrite lookup_insert_eq in Hk. inversion Hk. lia.
      * rewrite lookup_insert_ne in Hk by congruence.
        specialize (Hlt _ _ Hk). lia.
    + cbn [Imperative.arrays Imperative.records Imperative.texts] in *.
      rewrite <- app_assoc in Hrun, Hblank, Hlt'.
      exists d', ([[]] ++ ext). split; [exact Hrun|].
      split; [exact Hblank|]. split; [exact Hlt'|].
      intros k. rewrite Hdom.
      destruct (decide (k = key)) as [->|Hne].
      * rewrite lookup_insert_eq. split; [intros _; left; now left|].
        intros _. right. now eexists.
      * rewrite lookup_insert_ne by congruence. split.
        -- intros [H|H]; [left; now right|now right].
        -- intros [[H|H]|H]; [congruence|now left|now right].
Qed.

Lemma blank_prefix (lo : nat) (h h' : Imperative.heap) (d : gmap string nat) :
  blank lo h d -> Imperative.arrays h `prefix_of` Imperative.arrays h' ->
  blank lo h' d.
Proof.
  intros [Hb Hu] Hp. split; [|exact Hu]. intros k a Hk.
  destruct (Hb k a Hk) as [H1 H2]. split; [exact H1|].
  eapply prefix_lookup_Some; eassumption.
Qed.

Lemma view_blank (lo : nat) (h : Imperative.heap) (d : gmap string nat)
    (m : gmap string DataModelModel) :
  blank lo h d ->
  (forall k, is_Some (d !! k) <-> In k (map fst (map_to_list m))) ->
  Imperative.view h d = (fun _ => []) <$> m.
Proof.
  intros [Hb _] Hdom. apply map_eq. intros k.
  rewrite view_lookup, lookup_fmap.
  destruct (m !! k) as [model|] eqn:Hm; simpl.
  - destruct (proj2 (Hdom k)) as [a Ha].
    { apply in_map_iff. exists (k, model). split; [reflexivity|].
      apply list_elem_of_In. now apply elem_of_map_to_list. }
    rewrite Ha. simpl. exact (proj2 (Hb k a Ha)).
  - destruct (d !! k) as [a|] eqn:Hd; [|reflexivity].
    exfalso.
    assert (Hin : In k (map fst (map_to_list m)))
      by (apply Hdom; rewrite Hd; now eexists).
    apply in_map_iff in Hin. destruct Hin as ([k' model] & E & Hin).
    simpl in E. subst k'.
    apply list_elem_of_In, elem_of_map_to_list in Hin. congruence.
Qed.

Lemma fromEntries_blank (keys : list string) (h : Imperative.heap) :
  exists d ext,
    Imperative.fromEntries keys h
    = (Ok (length (Imperative.records h)),
       {| Imperative.arrays := Imperative.arrays h ++ ext;
          Imperative.records := Imperative.records h ++ [d];
          Imperative.texts := Imperative.texts h |})
    /\ (forall k a, d !! k = Some a ->
                    length (Imperative.arrays h) <= a
                    /\ a < length (Imperative.arrays h ++ ext)
                    /\ (Imperative.arrays h ++ ext) !! a = Some [])
    /\ unshared d
    /\ forall k, is_Some (d !! k) <-> In k keys.
Proof.
  destruct (emptyArrays_blank (length (Imperative.arrays h)) keys ∅ h)
    as (d & ext & Hrun & [Hb Hu] & Hlt & Hdom).
  - split; intros k; intros; now rewrite lookup_empty in *.
  - lia.
  - intros k a Hk. now rewrite lookup_empty in Hk.
  - exists d, ext. unfold Imperative.fromEntries, Imperative.bindM.
    rewrite Hrun. split; [reflexivity|]. split; [|split; [exact Hu|]].
    + intros k a Hk. destruct (Hb k a Hk) as [H1 H2].
      split; [exact H1|]. split; [now apply (Hlt k)|exact H2].
    + intros k. rewrite Hdom. split; [|now left].
      intros [H|[x H]]; [exact H|]. now rewrite lookup_empty in H.
Qed.

Lemma wellFormed_spec (h : Imperative.heap) (store : nat) :
  Imperative.wellFormed h store = true ->
  exists ds,
    Imperative.records h !! store = Some ds
    /\ forall k a, ds !! k = Some a -> a < length (Imperative.arrays h).
Proof.
  unfold Imperative.wellFormed.
  destruct (Imperative.records h !! store) as [ds|]; [|discriminate].
  intros H. exists ds. split; [reflexivity|]. intros k a Hk.
  rewrite forallb_forall in H.
  specialize (H (k, a)). simpl in H. apply Nat.ltb_lt, H.
  apply list_elem_of_In. now apply elem_of_map_to_list.
Qed.

Lemma wellFormed_extends (h h' : Imperative.heap) (store : nat) :
  Imperative.wellFormed h store = true -> Imperative.extends h h' ->
  Imperative.wellFormed h' store = true
  /\ Imperative.snapshot h' store = Imperative.snapshot h store.
Proof.
  intros Hwf (HA & HR & _).
  destruct (wellFormed_spec h store Hwf) as (ds & Hs & Hlt).
  assert (Hs' : Imperative.records h' !! store = Some ds)
    by (eapply prefix_lookup_Some; eassumption).
  unfold Imperative.wellFormed, Imperative.snapshot. rewrite Hs, Hs'. split.
  - apply forallb_forall. intros [k a] Hin. simpl.
    apply list_elem_of_In, elem_of_map_to_list in Hin.
    apply Nat.ltb_lt. apply prefix_length in HA.
    specialize (Hlt k a Hin). lia.
  - apply view_frame. intros k a Hk. destruct HA as [ext ->].
    apply lookup_app_l. now apply (Hlt k).
Qed.

Lemma createStatements_ends (sortModels : DataModel -> list ModelNode)
    (dataModel : DataModel) (store fuel : nat) (h : Imperative.heap) :
  Imperative.wellFormed h store = true ->
  ends h
    (createStatements sortModels dataModel (Imperative.snapshot h store) fuel)
    (Imperative.createStatements sortModels dataModel store fuel h).
Proof.
  intros Hwf. destruct (wellFormed_spec h store Hwf) as (ds & Hs & Hlt).
  unfold Imperative.createStatements, createStatements.
  unfold Imperative.bindM at 1. unfold Imperative.newText at 1.
  set (keys := map fst (map_to_list (models dataModel))).
  set (h1 := {| Imperative.arrays := Imperative.arrays h;
                Imperative.records := Imperative.records h;
                Imperative.texts := Imperative.texts h ++ [[]] |}).
  destruct (fromEntries_blank keys h1) as (d1 & ext1 & Hrun1 & Hb1 & Hu1 & Hdom1).
  unfold Imperative.bindM at 1. rewrite Hrun1.
  set (h2 := {| Imperative.arrays := Imperative.arrays h1 ++ ext1;
                Imperative.records := Imperative.records h1 ++ [d1];
                Imperative.texts := Imperative.texts h1 |}).
  destruct (fromEntries_blank keys h2) as (d2 & ext2 & Hrun2 & Hb2 & Hu2 & Hdom2).
  unfold Imperative.bindM at 1. rewrite Hrun2.
  unfold Imperative.bindM at 1. unfold Imperative.newText at 1.
  cbn [Imperative.arrays Imperative.records Imperative.texts h1 h2] in *.
  eapply (createStatements_loop_sim dataModel h _ _ d1 ds
            (Imperative.snapshot h store)).
  - exact Hs.
  - exact Hlt.
  - unfold Imperative.snapshot. now rewrite Hs.
  - constructor;
      cbn [Imperative.arrays Imperative.records Imperative.texts
           Imperative.r_inserted Imperative.r_pending
           Imperative.r_statements freshCtx inserted pending statements].
    + split; [|split]; cbn [Imperative.arrays Imperative.records
                            Imperative.texts].
      * apply prefix_app_r, prefix_app_r. reflexivity.
      * apply prefix_app_r, prefix_app_r. reflexivity.
      * apply prefix_app_r, prefix_app_r. reflexivity.
    + rewrite length_app. simpl. lia.
    + rewrite length_app. simpl. lia.
    + rewrite lookup_app_r by lia. now rewrite Nat.sub_diag.
    + rewrite lookup_app_l by (rewrite length_app; simpl; lia).
      rewrite lookup_app_r by lia. now rewrite Nat.sub_diag.
    + split; [|split; [|split; [|exact Hu1]]].
      * rewrite lookup_app_l by (rewrite length_app; simpl; lia).
        rewrite lookup_app_r by lia. now rewrite Nat.sub_diag.
      * apply (view_blank (length (Imperative.arrays h))).
        -- split; [|exact Hu1]. intros k a Hk.
           destruct (Hb1 k a Hk) as (H1 & H2 & H3). split; [exact H1|].
           cbn [Imperative.arrays]. now apply lookup_app_l_Some.
        -- exact Hdom1.
      * intros k a Hk. destruct (Hb1 k a Hk) as (H1 & H2 & H3).
        cbn [Imperative.arrays]. rewrite length_app. lia.
      
    + exists d2. split; [|split; [|split; [|split; [exact Hu2|]]]].
      * rewrite lookup_app_r by (rewrite length_app; simpl; lia).
        rewrite length_app. simpl.
        now replace (length (Imperative.records h) + 1
                     - (length (Imperative.records h) + 1)) with 0 by lia.
      * apply (view_blank (length (Imperative.arrays h ++ ext1))).
        -- split; [|exact Hu2]. intros k a Hk.
           destruct (Hb2 k a Hk) as (H1 & H2 & H3). now split.
        -- exact Hdom2.
      * intros k a Hk. destruct (Hb2 k a Hk) as (H1 & H2 & H3).
        cbn [Imperative.arrays]. rewrite length_app in H1. lia.
      * intros k k' a Hk Hk'.
        destruct (Hb1 k a Hk) as (_ & H2 & _).
        destruct (Hb2 k' a Hk') as (H1 & _ & _). lia.
Qed.

(** C8 (determinism, no interference between calls).  [toSQL] is run on
    a heap in which the store object exists.  The objects the call
    writes to ([inserted], [pending], [statements],
    [sequenceFixerStatements] and the arrays they hold) are all created
    by the call itself, so: the outcome (batch, [undefined] or error) is
    the one computed from the data model and the rows the store holds
    when the call starts; every object that was on the heap when the
    call started, the store and what earlier calls left among them, is
    on the heap afterwards as it was; and a call made at any later time,
    with the store as it was, in particular a second call made right
    after the first, has the same outcome. *)
Theorem toSQL_calls_share_nothing (sortModels : DataModel -> list ModelNode)
    (fuel : nat) (this : Imperative.PgStore) (h : Imperative.heap) :
  Imperative.wellFormed h (Imperative._store this) = true ->
  fst (Imperative.toSQL sortModels fuel this h)
  = toSQL sortModels fuel
      {| dataModel := Imperative.dataModel this;
         _store := Imperative.snapshot h (Imperative._store this) |}
  /\ Imperative.extends h (snd (Imperative.toSQL sortModels fuel this h))
  /\ (forall h', Imperative.extends h h' ->
                 fst (Imperative.toSQL sortModels fuel this h')
                 = fst (Imperative.toSQL sortModels fuel this h))
  /\ fst (Imperative.toSQL sortModels fuel this
            (snd (Imperative.toSQL sortModels fuel this h)))
     = fst (Imperative.toSQL sortModels fuel this h).
Proof.
  intros Hwf.
  destruct (createStatements_ends sortModels (Imperative.dataModel this)
              (Imperative._store this) fuel h Hwf) as [Hout Hext].
  assert (Hlater : forall h', Imperative.extends h h' ->
            fst (Imperative.toSQL sortModels fuel this h')
            = fst (Imperative.toSQL sortModels fuel this h)).
  { intros h' Hh'.
    destruct (wellFormed_extends h h' _ Hwf Hh') as [Hwf' Hsnap].
    destruct (createStatements_ends sortModels (Imperative.dataModel this)
                (Imperative._store this) fuel h' Hwf') as [Hout' _].
    unfold Imperative.toSQL. rewrite Hout', Hout, Hsnap. reflexivity. }
  split; [exact Hout|]. split; [exact Hext|]. split; [exact Hlater|].
  apply Hlater. exact Hext.
Qed.

Lemma toSQL_calls_share_nothing_witness :
  fst (Imperative.toSQL (sequenceOf ["test_customer"; "test_order"]) 3
         shopObject shopHeap)
  = toSQL (sequenceOf ["test_customer"; "test_order"]) 3
      {| dataModel := Imperative.dataModel shopObject;
         _store := Imperative.snapshot shopHeap
                     (Imperative._store shopObject) |}
  /\ Imperative.extends shopHeap
       (snd (Imperative.toSQL (sequenceOf ["test_customer"; "test_order"]) 3
               shopObject shopHeap))
  /\ (forall h', Imperative.extends shopHeap h' ->
                 fst (Imperative.toSQL
                        (sequenceOf ["test_customer"; "test_order"]) 3
                        shopObject h')
                 = fst (Imperative.toSQL
                          (sequenceOf ["test_customer"; "test_order"]) 3
                          shopObject shopHeap))
  /\ fst (Imperative.toSQL (sequenceOf ["test_customer"; "test_order"]) 3
            shopObject
            (snd (Imperative.toSQL
                    (sequenceOf ["test_customer"; "test_order"]) 3
                    shopObject shopHeap)))
     = fst (Imperative.toSQL (sequenceOf ["test_customer"; "test_order"]) 3
              shopObject shopHeap).
Proof.
  apply (toSQL_calls_share_nothing
           (sequenceOf ["test_customer"; "test_order"]) 3 shopObject shopHeap).
  vm_compute. reflexivity.
Defined.

(** The two calls on the heap of the shop: the second runs on the heap
    the first has left, with the two records the first has created still
    there, and returns the batch again. *)
Lemma shop_called_twice :
  let first_call :=
    Imperative.toSQL (sequenceOf ["test_customer"; "test_order"]) 3
      shopObject shopHeap in
  let second_call :=
    Imperative.toSQL (sequenceOf ["test_customer"; "test_order"]) 3
      shopObject (snd first_call) in
  fst first_call
  = Ok (Some [ insertStatement Samples.test_customer Samples.johnDoe;
               insertStatement Samples.test_customer Samples.janeDoe;
               SelectSetval "public.test_customer_id_seq" "id" "public"
                 "test_customer" ])
  /\ fst second_call = fst first_call
  /\ length (Imperative.records (snd first_call)) = 3
  /\ length (Imperative.records (snd second_call)) = 5.
Proof.
  vm_compute. repeat split; reflexivity.
Qed.
